(** * Rated-capacity dashboard: the computational core of [RatedCapacity.tsx]

    A shallow embedding of the pure part of the component: the CSV parser,
    the month-key utilities, the numeric helpers, the two loaders and the
    derived values, followed by the properties proved about them.

    Conventions.
    - A JavaScript string is a [string]; each [ascii] stands for one UTF-16
      code unit below 256.
    - A JavaScript number holding a capacity is a binary64 [float]
      (IEEE 754, as in the engine): [Number] of a string rounds the
      literal to the nearest binary64, and [*], [/], [+], [-] are the
      primitive operations.
    - The numbers of a month key (month, year and their differences) are
      integers far below 2^53, where binary64 arithmetic is exact; they are
      carried as [Z] inside [JS.ival], next to [undefined] and [NaN].
    - A JavaScript object used as a dictionary is a [gmap string _].
    - A fetch that fails, and a component that was unmounted, are left
      out: the loaders are modelled from the fetched text on. *)

From Stdlib Require Import ZArith Floats Ascii String DecimalString List Sorted Permutation Lia.
From stdpp Require Import base option list gmap strings.

Local Open Scope Z_scope.

#[local] Arguments String.append !s1 s2 : simpl nomatch.

(** ** The JavaScript built-ins the component calls *)

Module JS.

(** Code units used by the parser. *)
Definition dquote : ascii := "034"%char.
Definition comma : ascii := ","%char.
Definition LF : ascii := "010"%char.
Definition CR : ascii := "013"%char.
Definition slash : ascii := "/"%char.

(** White space and line terminators below U+0100: TAB, LF, VT, FF, CR,
    SPACE and NO-BREAK SPACE. *)
Definition is_ws (c : ascii) : bool :=
  let n := nat_of_ascii c in
  ((9 <=? n)%nat && (n <=? 13)%nat) || (n =? 32)%nat || (n =? 160)%nat.

Definition is_empty (s : string) : bool :=
  match s with EmptyString => true | String _ _ => false end.

(** [String.prototype.trimStart], [trimEnd] and [trim]. *)
Fixpoint trimStart (s : string) : string :=
  match s with
  | EmptyString => EmptyString
  | String c r => if is_ws c then trimStart r else s
  end.

Fixpoint trimEnd (s : string) : string :=
  match s with
  | EmptyString => EmptyString
  | String c r =>
      let r' := trimEnd r in
      if is_ws c && is_empty r' then EmptyString else String c r'
  end.

Definition trim (s : string) : string := trimEnd (trimStart s).

(** [s.split(/\r?\n/)]: a line feed, or a carriage return directly followed
    by a line feed, separates two pieces; the result is never empty. *)
Fixpoint splitLines (s : string) : list string :=
  match s with
  | EmptyString => [EmptyString]
  | String c r =>
      if Ascii.eqb c LF then EmptyString :: splitLines r
      else
        match r with
        | String c2 r2 =>
            if Ascii.eqb c CR && Ascii.eqb c2 LF then EmptyString :: splitLines r2
            else
              match splitLines r with
              | h :: t => String c h :: t
              | [] => [String c EmptyString]
              end
        | EmptyString => [String c EmptyString]
        end
  end.

(** [s.split(sep)] for a separator of one code unit. *)
Fixpoint splitOn (sep : ascii) (s : string) : list string :=
  match s with
  | EmptyString => [EmptyString]
  | String c r =>
      if Ascii.eqb c sep then EmptyString :: splitOn sep r
      else
        match splitOn sep r with
        | h :: t => String c h :: t
        | [] => [String c EmptyString]
        end
  end.

(** [xs.filter(Boolean)] on strings: the empty string is the only falsy one. *)
Definition filterTruthy (xs : list string) : list string :=
  List.filter (fun s => negb (is_empty s)) xs.

(** ASCII digits. *)
Definition is_digit (c : ascii) : bool :=
  let n := nat_of_ascii c in (48 <=? n)%nat && (n <=? 57)%nat.

Definition digit_val (c : ascii) : Z := Z.of_nat (nat_of_ascii c) - 48.

(** [s.toLowerCase()] on code units below 256: A–Z, and À–Þ except ×. *)
Definition lower_char (c : ascii) : ascii :=
  let n := nat_of_ascii c in
  if ((65 <=? n)%nat && (n <=? 90)%nat)
     || ((192 <=? n)%nat && (n <=? 222)%nat && negb (n =? 215)%nat)
  then ascii_of_nat (n + 32) else c.

Fixpoint toLowerCase (s : string) : string :=
  match s with
  | EmptyString => EmptyString
  | String c r => String (lower_char c) (toLowerCase r)
  end.

(** [xs.findIndex(p)], with [None] for -1. *)
Fixpoint findIndex {A} (p : A -> bool) (xs : list A) : option nat :=
  match xs with
  | [] => None
  | x :: r => if p x then Some 0%nat else option_map S (findIndex p r)
  end.


(** *** Numbers *)

(** The mathematical value of a string numeric literal, before rounding:
    [LDec neg m e] stands for (-1)^neg * m * 10^e. *)
Inductive numlit : Type :=
  | LNaN
  | LInf (neg : bool)
  | LDec (neg : bool) (m : Z) (e10 : Z).

(** The longest prefix of decimal digits, and what follows it. *)
Fixpoint spanDigits (s : string) : string * string :=
  match s with
  | String c r =>
      if is_digit c then let '(d, t) := spanDigits r in (String c d, t)
      else (EmptyString, s)
  | EmptyString => (EmptyString, EmptyString)
  end.

Fixpoint digitsValue (acc : Z) (s : string) : Z :=
  match s with
  | EmptyString => acc
  | String c r => digitsValue (10 * acc + digit_val c) r
  end.

Definition strlen (s : string) : Z := Z.of_nat (String.length s).

(** A digit of a literal in base 2, 8 or 16. *)
Definition radix_digit (base : Z) (c : ascii) : option Z :=
  let n := Z.of_nat (nat_of_ascii c) in
  let v :=
    if (48 <=? n) && (n <=? 57) then Some (n - 48)
    else if (97 <=? n) && (n <=? 102) then Some (n - 87)
    else if (65 <=? n) && (n <=? 70) then Some (n - 55)
    else None in
  match v with
  | Some d => if d <? base then Some d else None
  | None => None
  end.

Fixpoint radixValue (base : Z) (acc : Z) (s : string) : option Z :=
  match s with
  | EmptyString => Some acc
  | String c r =>
      match radix_digit base c with
      | Some d => radixValue base (base * acc + d) r
      | None => None
      end
  end.

Definition radixLiteral (base : Z) (s : string) : numlit :=
  match s with
  | EmptyString => LNaN
  | _ => match radixValue base 0 s with Some v => LDec false v 0 | None => LNaN end
  end.

(** The exponent part after the mantissa: nothing, or [e]/[E], an optional
    sign and at least one digit, up to the end of the string. *)
Definition exponentPart (s : string) : option Z :=
  match s with
  | EmptyString => Some 0
  | String c r =>
      if Ascii.eqb c "e"%char || Ascii.eqb c "E"%char then
        let '(neg, r1) :=
          match r with
          | String "-"%char t => (true, t)
          | String "+"%char t => (false, t)
          | _ => (false, r)
          end in
        let '(d, t) := spanDigits r1 in
        if is_empty d || negb (is_empty t) then None
        else Some (if neg then - digitsValue 0 d else digitsValue 0 d)
      else None
  end.

(** An unsigned decimal literal: [Infinity], or digits with an optional
    fraction and exponent; at least one digit before or after the dot. *)
Definition unsignedDecimal (neg : bool) (s : string) : numlit :=
  if String.eqb s "Infinity" then LInf neg
  else
    let '(ip, r) := spanDigits s in
    let '(fp, r1, dot) :=
      match r with
      | String "."%char t => let '(f, t') := spanDigits t in (f, t', true)
      | _ => (EmptyString, r, false)
      end in
    if is_empty ip && is_empty fp then LNaN
    else
      match exponentPart r1 with
      | Some e => LDec neg (digitsValue 0 (ip +:+ fp)) (e - strlen fp)
      | None => LNaN
      end.

(** [StringToNumber] up to rounding: white space is trimmed, the empty
    string is 0, and anything outside the grammar is NaN. *)
Definition stringLiteral (s : string) : numlit :=
  match trim s with
  | EmptyString => LDec false 0 0
  | String "0"%char (String c r) as t =>
      if Ascii.eqb c "x"%char || Ascii.eqb c "X"%char then radixLiteral 16 r
      else if Ascii.eqb c "o"%char || Ascii.eqb c "O"%char then radixLiteral 8 r
      else if Ascii.eqb c "b"%char || Ascii.eqb c "B"%char then radixLiteral 2 r
      else unsignedDecimal false t
  | String "-"%char r => unsignedDecimal true r
  | String "+"%char r => unsignedDecimal false r
  | t => unsignedDecimal false t
  end.

(** The binary64 nearest to n/d (ties to even), for positive [n] and [d]:
    the quotient is taken with more than 64 bits and a sticky bit, and
    [binary_normalize] rounds it. *)
Definition float_of_ratio (neg : bool) (n d : Z) : float :=
  let k := Z.log2 d - Z.log2 n + 66 in
  let num := if 0 <=? k then n * 2 ^ k else n in
  let den := if 0 <=? k then d else d * 2 ^ (- k) in
  let m := 2 * (num / den) + (if num mod den =? 0 then 0 else 1) in
  SF2Prim (binary_normalize prec emax (if neg then - m else m) (- k - 1) false).

Definition float_of_numlit (l : numlit) : float :=
  match l with
  | LNaN => PrimFloat.nan
  | LInf neg => if neg then PrimFloat.neg_infinity else PrimFloat.infinity
  | LDec neg m e =>
      if m =? 0 then (if neg then PrimFloat.neg_zero else PrimFloat.zero)
      else if 0 <=? e then float_of_ratio neg (m * 10 ^ e) 1
      else float_of_ratio neg m (10 ^ (- e))
  end.

(** The values [Number] and [safeNum] are applied to. *)
Inductive value : Type :=
  | VUndefined
  | VString (s : string)
  | VNumber (x : float).

(** [Number(x)]. *)
Definition Number (v : value) : float :=
  match v with
  | VUndefined => PrimFloat.nan
  | VString s => float_of_numlit (stringLiteral s)
  | VNumber x => x
  end.

(** [Number.isFinite(x)] on a number. *)
Definition isFinite (x : float) : bool := is_finite x.

(** [Math.round(x)]: the integer nearest to [x], a tie going toward
    +infinity; -0 for x in [-0.5, -0]; NaN, infinities and integers are
    returned as they are. *)
Definition Math_round (x : float) : float :=
  match Prim2SF x with
  | S754_finite s m e =>
      if 0 <=? e then x
      else
        let v := if s then Z.neg m else Z.pos m in
        let n := (2 * v + 2 ^ (- e)) / 2 ^ (1 - e) in
        if n =? 0 then (if s then PrimFloat.neg_zero else PrimFloat.zero)
        else SF2Prim (binary_normalize prec emax n 0 false)
  | _ => x
  end.


(** *** Integer-valued numbers

    The month utilities apply [Number] to the pieces of a key and only
    subtract and compare the results.  [IInt z] is the number [z]; [INaN]
    is NaN, and also stands for a piece whose value is not an integer
    (a fraction, an infinity), on which these utilities are not modelled;
    [IUndefined] is a missing piece of a destructuring. *)
Inductive ival : Type :=
  | IUndefined
  | INaN
  | IInt (z : Z).

(** [Number(s)] as such a value: exact for a string that is not a number
    and for an integer of magnitude at most 2^53, which is all that a key
    of the shape MM/YYYY holds. *)
Definition Number_int (s : string) : ival :=
  match stringLiteral s with
  | LDec neg m e =>
      if 0 <=? e then IInt ((if neg then - m else m) * 10 ^ e)
      else if m mod 10 ^ (- e) =? 0
      then IInt ((if neg then - m else m) / 10 ^ (- e))
      else INaN
  | _ => INaN
  end.

(** [a - b]. *)
Definition isub (a b : ival) : ival :=
  match a, b with
  | IInt x, IInt y => IInt (x - y)
  | _, _ => INaN
  end.

(** [a !== b]. *)
Definition strict_neq (a b : ival) : bool :=
  match a, b with
  | IUndefined, IUndefined => false
  | IInt x, IInt y => negb (x =? y)
  | _, _ => true
  end.

(** [a <= 0], [a > 0] and [a < 0]: false on NaN and undefined. *)
Definition le0 (a : ival) : bool :=
  match a with IInt z => z <=? 0 | _ => false end.

Definition gt0 (a : ival) : bool :=
  match a with IInt z => 0 <? z | _ => false end.

Definition lt0 (a : ival) : bool :=
  match a with IInt z => z <? 0 | _ => false end.

(** [String(a)]. *)
Definition String_int (a : ival) : string :=
  match a with
  | IUndefined => "undefined"
  | INaN => "NaN"
  | IInt z => DecimalString.NilZero.string_of_int (Z.to_int z)
  end.

(** [s.padStart(2, "0")]. *)
Definition padStart2 (s : string) : string :=
  match s with
  | EmptyString => "00"
  | String c EmptyString => String "0"%char s
  | _ => s
  end.

(** [xs.sort(cmp)]: the sort is stable, and a comparator result that is
    not positive keeps the left element first (NaN counts as 0).  Written
    as an insertion sort; on a comparator that is a total preorder every
    conforming engine returns the same array. *)
Fixpoint insert {A} (cmp : A -> A -> ival) (x : A) (l : list A) : list A :=
  match l with
  | [] => [x]
  | y :: l' => if gt0 (cmp x y) then y :: insert cmp x l' else x :: l
  end.

Definition sort {A} (cmp : A -> A -> ival) (l : list A) : list A :=
  List.fold_right (insert cmp) [] l.

(** [xs.includes(x)] on strings. *)
Definition includes (xs : list string) (x : string) : bool :=
  List.existsb (String.eqb x) xs.

End JS.

(** ** The CSV parser *)

Record csv := { header : list string; rows : list (list string) }.

(** The state of the character loop of [parseLine]: the fields pushed so
    far, the field being read and the quote flag.  One call consumes one
    code unit, or two for an escaped quote (the source's [i++]). *)
Fixpoint parseLine_loop (line : string) (out : list string) (cur : string)
  (inQuotes : bool) : list string :=
  match line with
  | EmptyString => out ++ [JS.trim cur]
  | String ch rest =>
      let plain :=
        if Ascii.eqb ch JS.dquote then parseLine_loop rest out cur (negb inQuotes)
        else if Ascii.eqb ch JS.comma && negb inQuotes
        then parseLine_loop rest (out ++ [JS.trim cur]) EmptyString inQuotes
        else parseLine_loop rest out (cur +:+ String ch EmptyString) inQuotes in
      match rest with
      | String next rest' =>
          if Ascii.eqb ch JS.dquote && inQuotes && Ascii.eqb next JS.dquote
          then parseLine_loop rest' out (cur +:+ String JS.dquote EmptyString) inQuotes
          else plain
      | EmptyString => plain
      end
  end.

Definition parseLine (line : string) : list string :=
  parseLine_loop line [] EmptyString false.

Definition csvLines (text : string) : list string :=
  JS.filterTruthy (List.map JS.trim (JS.splitLines text)).

Definition parseCSVSimple (text : string) : csv :=
  match csvLines text with
  | [] => {| header := []; rows := [] |}
  | l0 :: ls => {| header := parseLine l0; rows := List.map parseLine ls |}
  end.

(** Helpers to write test inputs: a quote and a line feed as strings. *)
Definition Q : string := String JS.dquote EmptyString.
Definition NL : string := String JS.LF EmptyString.


(** ** Sources and numeric helpers *)

Definition SOURCES : list string :=
  ["Coal"; "Oil & Gas"; "Nuclear"; "Hydro"; "Solar"; "Wind"; "Small-Hydro"; "Bio Power"].

Definition round2 (n : float) : float :=
  (JS.Math_round (n * 100) / 100)%float.

Definition safeNum (x : JS.value) : float :=
  let n := JS.Number x in
  if JS.isFinite n then n else 0%float.

(** [obj[k]] on an object of numbers, of strings, and [row[i]] on an array
    of strings: a missing entry reads as [undefined]. *)
Definition numProp (obj : gmap string float) (k : string) : JS.value :=
  match obj !! k with Some x => JS.VNumber x | None => JS.VUndefined end.

Definition strProp (obj : gmap string string) (k : string) : JS.value :=
  match obj !! k with Some x => JS.VString x | None => JS.VUndefined end.

Definition cell (row : list string) (i : nat) : JS.value :=
  match row !! i with Some x => JS.VString x | None => JS.VUndefined end.

Definition sumSources (obj : gmap string float) (keys : list string) : float :=
  List.fold_left (fun acc k => (acc + safeNum (numProp obj k))%float) keys 0%float.

(** [Object.fromEntries(SOURCES.map((s) => [s, 0]))]. *)
Definition zeroCaps : gmap string float :=
  list_to_map (List.map (fun s => (s, 0%float)) SOURCES).

(** ** Month keys *)

(** The two numbers of a key: [a.split("/").map(Number)], destructured. *)
Definition monthParts (a : string) : JS.ival * JS.ival :=
  let ps := List.map JS.Number_int (JS.splitOn JS.slash a) in
  (List.nth 0 ps JS.IUndefined, List.nth 1 ps JS.IUndefined).

Definition compareMonthKey (a b : string) : JS.ival :=
  let '(am, ay) := monthParts a in
  let '(bm, by_) := monthParts b in
  if JS.strict_neq ay by_ then JS.isub ay by_ else JS.isub am bm.

(** The [while (left > 0)] loop of [minusMonths].  The counter [left] is
    a natural number: this is the loop of the source for a [monthsBack] of
    at most 2^53, up to which the binary64 counter of the source counts
    down exactly (above it [left -= 1] can leave [left] as it is). *)
Fixpoint minusMonths_loop (left : nat) (m y : JS.ival) : JS.ival * JS.ival :=
  match left with
  | O => (m, y)
  | S left' =>
      let m1 := JS.isub m (JS.IInt 1) in
      if JS.le0 m1 then minusMonths_loop left' (JS.IInt 12) (JS.isub y (JS.IInt 1))
      else minusMonths_loop left' m1 y
  end.

Definition minusMonths (monthKey : string) (monthsBack : nat) : string :=
  let '(mm, yyyy) := monthParts monthKey in
  let '(m, y) := minusMonths_loop monthsBack mm yyyy in
  JS.padStart2 (JS.String_int m) +:+ "/" +:+ JS.String_int y.

(** Scanning [sorted] from its last element down to the first. *)
Definition clampMonthKeyToOptions (target : string) (options : list string) : string :=
  match options with
  | [] => target
  | _ =>
      if JS.includes options target then target
      else
        let sorted := JS.sort compareMonthKey options in
        match List.find (fun o => JS.le0 (compareMonthKey o target)) (List.rev sorted) with
        | Some o => o
        | None => match sorted with o :: _ => o | [] => target end
        end
  end.

(** The test [/^\d{2}\/\d{4}$/]. *)
Definition monthKeyRegex (s : string) : bool :=
  match s with
  | String a (String b (String c (String d (String e (String f (String g EmptyString)))))) =>
      JS.is_digit a && JS.is_digit b && Ascii.eqb c JS.slash
      && JS.is_digit d && JS.is_digit e && JS.is_digit f && JS.is_digit g
  | _ => false
  end.

(** ** Rated capacity (top card) *)

(** [for (const s of SOURCES) out[s] = ...], starting from [{}]. *)
Definition ratedBySource (installed plf : gmap string float) : gmap string float :=
  List.fold_left
    (fun out s =>
       <[s := round2 (safeNum (numProp installed s) * (safeNum (numProp plf s) / 100))%float]> out)
    SOURCES ∅.

Definition ratedTotal (installed plf : gmap string float) : float :=
  sumSources (ratedBySource installed plf) SOURCES.

(** ** The installed-capacity snapshot *)

(** What the loader does to the component state: [setInstalled(next)], no
    state change at all, or the [catch] branch with its message. *)
Inductive snapshot : Type :=
  | SnapshotReplaced (next : gmap string float)
  | SnapshotUnchanged
  | SnapshotFailed.

(** [header.forEach((h, i) => map[h] = row[i] ?? "")]. *)
Fixpoint headerMap (header : list string) (row : list string) (i : nat)
  (map : gmap string string) : gmap string string :=
  match header with
  | [] => map
  | h :: hs => headerMap hs row (S i) (<[h := default EmptyString (row !! i)]> map)
  end.

(** The loop over SOURCES: the pair of [next] and the flag [any]. *)
Definition snapshotLoop (map : gmap string string) (installed : gmap string float)
  : gmap string float * bool :=
  List.fold_left
    (fun '(next, any) s =>
       let v := safeNum (strProp map s) in
       if JS.isFinite v then (<[s := v]> next, true) else (next, any))
    SOURCES (installed, false).

(** The body of [loadCapacitySingleRow] once the text has been fetched;
    [installed] is the mapping the effect closed over. *)
Definition loadCapacitySingleRow (installed : gmap string float) (text : string) : snapshot :=
  let c := parseCSVSimple text in
  match header c, rows c with
  | [], _ | _, [] => SnapshotFailed
  | _, row :: _ =>
      let map := headerMap (header c) row 0 ∅ in
      let '(next, any) := snapshotLoop map installed in
      if any then SnapshotReplaced next else SnapshotUnchanged
  end.

(** [Object.values(installed).some((v) => Number(v) !== 0)]. *)
Definition hasNonZeroLocal (installed : gmap string float) : bool :=
  List.existsb (fun '(_, v) => negb (v =? 0)%float) (map_to_list installed).

(** ** History (bottom card) *)

Record MonthRow := { month : string; values : gmap string float }.

Definition isMonthHeader (h : string) : bool :=
  String.eqb (JS.toLowerCase (JS.trim h)) "month".

(** The per-row loop over SOURCES. *)
Definition rowValues (header : list string) (row : list string) : gmap string float :=
  List.fold_left
    (fun values s =>
       match JS.findIndex (fun h => String.eqb (JS.trim h) s) header with
       | Some idx => <[s := safeNum (cell row idx)]> values
       | None => <[s := 0%float]> values
       end)
    SOURCES ∅.

(** [(row[monthIdx] || "").trim()]. *)
Definition rowMonth (monthIdx : nat) (row : list string) : string :=
  JS.trim (default EmptyString (row !! monthIdx)).

(** The [for (const row of rows)] loop with its [continue] and [push]. *)
Fixpoint parseRows (header : list string) (monthIdx : nat) (rows : list (list string))
  (parsed : list MonthRow) : list MonthRow :=
  match rows with
  | [] => parsed
  | row :: rest =>
      let mk := rowMonth monthIdx row in
      if monthKeyRegex mk
      then parseRows header monthIdx rest
             (parsed ++ [{| month := mk; values := rowValues header row |}])
      else parseRows header monthIdx rest parsed
  end.

(** The array [parsed] of [loadHistory] before it is sorted, once the text
    has been fetched; [None] when the body throws. *)
Definition parsedRows (text : string) : option (list MonthRow) :=
  let c := parseCSVSimple text in
  match header c, rows c with
  | [], _ | _, [] => None
  | _, _ =>
      match JS.findIndex isMonthHeader (header c) with
      | None => None
      | Some monthIdx => Some (parseRows (header c) monthIdx (rows c) [])
      end
  end.

(** The comparator [(a, b) => compareMonthKey(a.month, b.month)]. *)
Definition compareRows (a b : MonthRow) : JS.ival := compareMonthKey (month a) (month b).

(** [loadHistory]: [Some h] is [setHistory(h)], [None] the [catch] branch
    ([setHistory([])] and the error message). *)
Definition loadHistory (text : string) : option (list MonthRow) :=
  match parsedRows text with
  | Some parsed => Some (JS.sort compareRows parsed)
  | None => None
  end.

Definition monthOptions (history : list MonthRow) : list string :=
  JS.sort compareMonthKey (JS.filterTruthy (List.map month history)).

(** [startRow] and [endRow]: the first row of [history] with that month. *)
Definition findRow (history : list MonthRow) (m : string) : option MonthRow :=
  if JS.is_empty m then None
  else List.find (fun r => String.eqb (month r) m) history.

Record Totals := { per : gmap string float; total : float }.

(** [startTotals] and [endTotals]. *)
Definition rowTotals (row : option MonthRow) : option Totals :=
  match row with
  | Some r => Some {| per := values r; total := sumSources (values r) SOURCES |}
  | None => None
  end.

Definition netAdditions (startTotals endTotals : option Totals) : Totals :=
  {| per :=
       List.fold_left
         (fun out s =>
            match startTotals ≫= (fun t => per t !! s), endTotals ≫= (fun t => per t !! s) with
            | Some a, Some b => <[s := round2 (b - a)%float]> out
            | _, _ => <[s := 0%float]> out
            end)
         SOURCES ∅;
     total :=
       match startTotals, endTotals with
       | Some st, Some en => round2 (total en - total st)%float
       | _, _ => 0%float
       end |}.

(** ** The month selection *)

Record Selection := { startMonth : string; endMonth : string }.

(** The effect "Enforce Start ≤ End". *)
Definition enforce (sel : Selection) : Selection :=
  if JS.is_empty (startMonth sel) || JS.is_empty (endMonth sel) then sel
  else if JS.gt0 (compareMonthKey (startMonth sel) (endMonth sel))
  then {| startMonth := endMonth sel; endMonth := endMonth sel |}
  else sel.

(** [a || b] on values that are a string, [null] or [undefined]. *)
Definition orElse (a b : option string) : option string :=
  match a with
  | Some x => if JS.is_empty x then b else a
  | None => b
  end.

(** [latestMonth] and [defaultStartMonth]. *)
Definition latestMonth (options : list string) : option string := last options.

Definition defaultStartMonth (options : list string) : option string :=
  match latestMonth options with
  | Some l => Some (clampMonthKeyToOptions (minusMonths l 12) options)
  | None => None
  end.

(** The effect "Initialize default start/end once history arrives", as the
    two state updaters it queues.  An [undefined] default is stored as the
    empty string: both are falsy and display as no selection. *)
Definition initSelection (options : list string) (sel : Selection) : Selection :=
  match options with
  | [] => sel
  | _ =>
      let end_ := orElse (latestMonth options) (last options) in
      let start :=
        orElse (orElse (defaultStartMonth options)
                  (options !! (length options - 13)%nat))
               (options !! 0%nat) in
      {| startMonth :=
           if JS.is_empty (startMonth sel) then default EmptyString start
           else clampMonthKeyToOptions (startMonth sel) options;
         endMonth :=
           if JS.is_empty (endMonth sel) then default EmptyString end_
           else clampMonthKeyToOptions (endMonth sel) options |}
  end.

(** The part of the component state the history card depends on. *)
Record UI := { history : list MonthRow; selection : Selection }.

Definition initialUI : UI :=
  {| history := []; selection := {| startMonth := EmptyString; endMonth := EmptyString |} |}.

(** What changes that state: the history fetch resolving with a text, and
    the two [<select>] elements.  A state is taken after the effects that
    the change triggers have run. *)
Inductive event : Type :=
  | HistoryLoaded (text : string)
  | StartPicked (m : string)
  | EndPicked (m : string).

Definition step (ev : event) (ui : UI) : UI :=
  match ev with
  | HistoryLoaded text =>
      let h := default [] (loadHistory text) in
      {| history := h;
         selection := enforce (initSelection (monthOptions h) (selection ui)) |}
  | StartPicked m =>
      {| history := history ui;
         selection := enforce {| startMonth := m; endMonth := endMonth (selection ui) |} |}
  | EndPicked m =>
      {| history := history ui;
         selection := enforce {| startMonth := startMonth (selection ui); endMonth := m |} |}
  end.

(** A [<select>] offers the month options, or the single value [""] when
    there is none. *)
Definition offered (ui : UI) (m : string) : Prop :=
  In m (monthOptions (history ui)) \/ (monthOptions (history ui) = [] /\ m = EmptyString).

Definition enabled (ev : event) (ui : UI) : Prop :=
  match ev with
  | HistoryLoaded _ => True
  | StartPicked m | EndPicked m => offered ui m
  end.

Inductive reachable : UI -> Prop :=
  | reachable_initial : reachable initialUI
  | reachable_step ev ui : reachable ui -> enabled ev ui -> reachable (step ev ui).

(** The order on month keys that the component uses. *)
Definition monthKeyLe (a b : string) : Prop := JS.le0 (compareMonthKey a b) = true.

(** A well-formed MonthKey: the shape MM/YYYY with a month from 01 to 12. *)
Definition wellFormedMonthKey (s : string) : bool :=
  monthKeyRegex s
  && match fst (monthParts s) with JS.IInt m => (1 <=? m) && (m <=? 12) | _ => false end.

(** ** Vocabulary of the statements *)

(** A field as it is written on a line: as it is, or between quotes with
    every quote of its content doubled. *)
Inductive field : Type :=
  | Raw (s : string)
  | Quoted (s : string).

(** The content of a quoted field as it is written: every quote doubled. *)
Fixpoint escape (s : string) : string :=
  match s with
  | EmptyString => EmptyString
  | String c r =>
      if Ascii.eqb c JS.dquote then String JS.dquote (String JS.dquote (escape r))
      else String c (escape r)
  end.

(** The text of a field on the line, and the content it stands for. *)
Definition render (f : field) : string :=
  match f with
  | Raw s => s
  | Quoted s => Q +:+ escape s +:+ Q
  end.

Definition content (f : field) : string :=
  match f with Raw s | Quoted s => s end.

(** A raw field holds no quote and no comma. *)
Fixpoint plain (s : string) : bool :=
  match s with
  | EmptyString => true
  | String c r => negb (Ascii.eqb c JS.dquote) && negb (Ascii.eqb c JS.comma) && plain r
  end.

(** A text without any quote. *)
Fixpoint noQuote (s : string) : bool :=
  match s with
  | EmptyString => true
  | String c r => negb (Ascii.eqb c JS.dquote) && noQuote r
  end.

(** A field that can be written: a raw one must be plain. *)
Definition fieldOk (f : field) : bool :=
  match f with Raw s => plain s | Quoted _ => true end.

(** The fields of a line, separated by commas. *)
Fixpoint joinComma (fs : list string) : string :=
  match fs with
  | [] => EmptyString
  | [x] => x
  | x :: r => x +:+ "," +:+ joinComma r
  end.

(** The fields that precede another one on a line, each with its comma. *)
Fixpoint linePrefix (fs : list field) : string :=
  match fs with
  | [] => EmptyString
  | f :: r => render f +:+ "," +:+ linePrefix r
  end.

(** What the parser is to return for a written field. *)
Definition fieldText (f : field) : string := JS.trim (content f).

(** A line written from its fields. *)
Definition writeLine (fs : list field) : string := joinComma (List.map render fs).

(** The lines of a text, separated by line feeds. *)
Fixpoint joinLines (ls : list string) : string :=
  match ls with
  | [] => EmptyString
  | [x] => x
  | x :: r => x +:+ NL +:+ joinLines r
  end.

(** A line holds no line feed and no carriage return. *)
Fixpoint noBreak (s : string) : bool :=
  match s with
  | EmptyString => true
  | String c r => negb (Ascii.eqb c JS.LF) && negb (Ascii.eqb c JS.CR) && noBreak r
  end.

(** The next code unit is a quote (what the loop's look-ahead tests). *)
Definition startsWithQuote (s : string) : bool :=
  match s with String c _ => Ascii.eqb c JS.dquote | EmptyString => false end.

(** A string with no white space at either end. *)
Definition trimmed (s : string) : Prop := JS.trim s = s.

(** A written line the parser keeps: at least one field, raw fields free
    of quotes and commas, no line break inside, and not blank. *)
Definition lineOk (fs : list field) : bool :=
  negb (forallb (fun _ => false) fs) && forallb fieldOk fs
  && noBreak (writeLine fs) && negb (JS.is_empty (JS.trim (writeLine fs))).

(** Strings of white space only, and of decimal digits only. *)
Fixpoint allWs (s : string) : bool :=
  match s with
  | EmptyString => true
  | String c r => JS.is_ws c && allWs r
  end.

Fixpoint allDigits (s : string) : bool :=
  match s with
  | EmptyString => true
  | String c r => JS.is_digit c && allDigits r
  end.

(** The month and the year of a key whose two pieces are integers. *)
Definition monthNumbers (s : string) : option (Z * Z) :=
  match monthParts s with
  | (JS.IInt m, JS.IInt y) => Some (m, y)
  | _ => None
  end.

(** Position of a key on the time line, for a month below 100. *)
Definition monthIndex (s : string) : Z :=
  match monthNumbers s with
  | Some (m, y) => 100 * y + m
  | None => 0
  end.

(** Keys that [compareMonthKey] orders by year, then month. *)
Definition comparable (s : string) : Prop :=
  exists m y, monthNumbers s = Some (m, y) /\ 0 <= m <= 99.

(** A month and a year as [minusMonths] prints them. *)
Definition monthText (m : Z) : string := JS.padStart2 (JS.String_int (JS.IInt m)).
Definition yearText (y : Z) : string := JS.String_int (JS.IInt y).

(** The year is printed with four digits that read back as the year. *)
Definition fourDigits (y : Z) : bool :=
  match yearText y with
  | String d (String e (String f (String g EmptyString))) as s =>
      JS.is_digit d && JS.is_digit e && JS.is_digit f && JS.is_digit g
      && (JS.digitsValue 0 s =? y)
  | _ => false
  end.

(** The month is printed with two digits that read back as the month. *)
Definition twoDigits (m : Z) : bool :=
  match monthText m with
  | String a (String b EmptyString) as s =>
      JS.is_digit a && JS.is_digit b && (JS.digitsValue 0 s =? m)
  | _ => false
  end.

(** The row of the history made from a data row, and the test that keeps
    a data row. *)
Definition toMonthRow (header : list string) (monthIdx : nat) (row : list string) : MonthRow :=
  {| month := rowMonth monthIdx row; values := rowValues header row |}.

Definition keptRow (monthIdx : nat) (row : list string) : bool :=
  monthKeyRegex (rowMonth monthIdx row).

(** The first row with a given month, in any list of rows. *)
Definition firstWithMonth (m : string) (rs : list MonthRow) : option MonthRow :=
  List.find (fun r => String.eqb (month r) m) rs.

(** A history row with a value for Coal and 0 elsewhere, to write examples. *)
Definition coalRow (m : string) (coal : float) : MonthRow :=
  {| month := m; values := <["Coal" := coal]> zeroCaps |}.

(** Texts of the history file used as examples. *)
Definition shortMonthText : string :=
  "Month,Coal" +:+ NL +:+ "1/24,7" +:+ NL +:+ "01/2024,1".

Definition twiceText : string :=
  "Month,Coal" +:+ NL +:+ "06/2024,3" +:+ NL +:+ "01/2024,1" +:+ NL +:+ "01/2024,2".

(** [x] when it is finite, 0 otherwise: what [safeNum] makes of a number. *)
Definition finiteOr0 (x : float) : float := if JS.isFinite x then x else 0%float.

(** The value the loop of [loadHistory] stores for a source. *)
Definition rowValue (header row : list string) (s : string) : float :=
  match JS.findIndex (fun h => String.eqb (JS.trim h) s) header with
  | Some idx => safeNum (cell row idx)
  | None => 0%float
  end.

(** The rated capacity of one source. *)
Definition ratedOf (installed plf : gmap string float) (s : string) : float :=
  round2 (safeNum (numProp installed s) * (safeNum (numProp plf s) / 100))%float.

(** What was typed for an installed capacity or a PLF, as the component
    stores it: [safeNum(e.target.value)]. *)
Definition typed (s : string) : float := safeNum (JS.VString s).

(** The net addition of one source between two rows. *)
Definition netOf (startTotals endTotals : option Totals) (s : string) : float :=
  match startTotals ≫= (fun t => per t !! s), endTotals ≫= (fun t => per t !! s) with
  | Some a, Some b => round2 (b - a)%float
  | _, _ => 0%float
  end.

(** The sum of the values of a row, in display order. *)
Definition plainSum (vals : gmap string float) : float :=
  List.fold_left (fun acc s => (acc + default 0%float (vals !! s))%float) SOURCES 0%float.

Definition twoYearsText : string :=
  "Month,Coal,Solar" +:+ NL +:+ "01/2023,50,1.5" +:+ NL +:+ "01/2024,55,4".

(** The value the loop of [loadCapacitySingleRow] reads for a source. *)
Definition snapshotValue (map : gmap string string) (s : string) : float :=
  safeNum (strProp map s).

(** A selected month is empty (no selection) or has the shape MM/YYYY. *)
Definition okKey (m : string) : Prop := m = "" \/ monthKeyRegex m = true.

(** What holds of every state the component can reach. *)
Definition selectionInv (ui : UI) : Prop :=
  forallb monthKeyRegex (monthOptions (history ui)) = true
  /\ okKey (startMonth (selection ui))
  /\ okKey (endMonth (selection ui))
  /\ (startMonth (selection ui) <> "" -> endMonth (selection ui) <> "" ->
      monthKeyLe (startMonth (selection ui)) (endMonth (selection ui))).

Definition threeMonthsText : string :=
  "Month,Coal" +:+ NL +:+ "01/2023,50" +:+ NL +:+ "06/2023,52" +:+ NL +:+ "01/2024,55".

(** A list ascending by a numeric key. *)
Definition ascending {A} (key : A -> Z) : list A -> Prop :=
  StronglySorted (fun a b => key a <= key b).

(** ** The rest of the component *)

(** The colour and the sign of a net addition. *)
Definition netColorClass (v : float) : string :=
  if (0 <? v)%float then "text-emerald-600"
  else if (v <? 0)%float then "text-rose-600"
  else "text-slate-700".

Definition netSign (v : float) : string :=
  if (0 <? v)%float then "+" else "".

Definition installedTotal (installed : gmap string float) : float :=
  sumSources installed SOURCES.

(** The [disabled] attribute of an option [m] of the start select and of
    the end select. *)
Definition startOptionDisabled (endMonth m : string) : bool :=
  if JS.is_empty endMonth then false else JS.gt0 (compareMonthKey m endMonth).

Definition endOptionDisabled (startMonth m : string) : bool :=
  if JS.is_empty startMonth then false else JS.lt0 (compareMonthKey m startMonth).

(** The [onChange] of a number input of the top card:
    [(prev) => ({ ...prev, [s]: safeNum(e.target.value) })]. *)
Definition typedInto (prev : gmap string float) (s text : string) : gmap string float :=
  <[s := safeNum (JS.VString text)]> prev.

(** The initialiser of [installed] and of [plf].  [None] is a storage
    without the item, with an empty item, or whose item does not parse;
    [Some obj] is the parsed item, taken to be an object of numbers as the
    component writes it ([null], which [obj?.[s]] reads as [undefined]
    everywhere, is the empty object). *)
Definition initialCaps (persisted : option (gmap string float)) : gmap string float :=
  match persisted with
  | Some obj =>
      List.fold_left (fun base s => <[s := safeNum (numProp obj s)]> base) SOURCES zeroCaps
  | None => zeroCaps
  end.

(** The state of the top card: the two mappings, the mapping the snapshot
    effect closed over when the component was mounted, and whether the
    answer to its fetch is still to come. *)
Record Card := {
  atMount : gmap string float;
  installedCaps : gmap string float;
  plfCaps : gmap string float;
  awaiting : bool }.

Definition mountCard (installed plf : gmap string float) : Card :=
  {| atMount := installed; installedCaps := installed; plfCaps := plf;
     awaiting := negb (hasNonZeroLocal installed) |}.

(** What changes that state: typing in an input of a source, and the
    snapshot text arriving. *)
Inductive cardEvent : Type :=
  | InstalledTyped (s text : string)
  | PlfTyped (s text : string)
  | SnapshotArrived (text : string).

Definition cardStep (ev : cardEvent) (c : Card) : Card :=
  match ev with
  | InstalledTyped s text =>
      {| atMount := atMount c; installedCaps := typedInto (installedCaps c) s text;
         plfCaps := plfCaps c; awaiting := awaiting c |}
  | PlfTyped s text =>
      {| atMount := atMount c; installedCaps := installedCaps c;
         plfCaps := typedInto (plfCaps c) s text; awaiting := awaiting c |}
  | SnapshotArrived text =>
      {| atMount := atMount c;
         installedCaps :=
           match loadCapacitySingleRow (atMount c) text with
           | SnapshotReplaced next => next
           | SnapshotUnchanged | SnapshotFailed => installedCaps c
           end;
         plfCaps := plfCaps c; awaiting := false |}
  end.

(** There is one input per source, and one fetch, made only when every
    stored value is 0. *)
Definition cardEnabled (ev : cardEvent) (c : Card) : Prop :=
  match ev with
  | InstalledTyped s _ | PlfTyped s _ => In s SOURCES
  | SnapshotArrived _ => awaiting c = true
  end.

Inductive cardReachable (c0 : Card) : Card -> Prop :=
  | cardReachable_mount : cardReachable c0 c0
  | cardReachable_step ev c :
      cardReachable c0 c -> cardEnabled ev c -> cardReachable c0 (cardStep ev c).

(** ** More vocabulary *)

(** A mapping with a finite value for every source and nothing else. *)
Definition capsOk (caps : gmap string float) : Prop :=
  (forall s, In s SOURCES -> exists v, caps !! s = Some v /\ JS.isFinite v = true)
  /\ (forall s, ~ In s SOURCES -> caps !! s = None).

(** What holds of every state of the top card. *)
Definition cardInv (c : Card) : Prop :=
  capsOk (atMount c) /\ capsOk (installedCaps c) /\ capsOk (plfCaps c).

(** A line terminator, and a text written line by line, each line but the
    last with its terminator. *)
Inductive eol : Type := EolLF | EolCRLF.

Definition eolText (e : eol) : string :=
  match e with
  | EolLF => NL
  | EolCRLF => String JS.CR NL
  end.

Fixpoint writeText (ls : list (string * eol)) (lastLine : string) : string :=
  match ls with
  | [] => lastLine
  | (l, e) :: r => l +:+ eolText e +:+ writeText r lastLine
  end.

(** The commas of a line. *)
Fixpoint countCommas (s : string) : nat :=
  match s with
  | EmptyString => 0%nat
  | String c r => if Ascii.eqb c JS.comma then S (countCommas r) else countCommas r
  end.

(** A binary64 number that is a zero or a finite non-zero number. *)
Definition zeroOrFinite (x : spec_float) : Prop :=
  (exists s, x = S754_zero s) \/ (exists s m e, x = S754_finite s m e).

(** History texts whose totals overflow. *)
Definition overflowText : string :=
  "Month,Coal,Solar" +:+ NL +:+ "01/2023,1e308,1e308" +:+ NL +:+ "01/2024,1e308,1e308".

(** A line in which no quote is directly followed by a quote. *)
Fixpoint noDoubledQuote (s : string) : bool :=
  match s with
  | String c (String d _ as r) =>
      negb (Ascii.eqb c JS.dquote && Ascii.eqb d JS.dquote) && noDoubledQuote r
  | _ => true
  end.

(** A stretch of a field as it stands on a line: outside quotes (no quote
    and no comma in it), between two quotes with every quote of its
    content doubled, or after a quote that is never closed. *)
Inductive stretch : Type :=
  | Outside (s : string)
  | Inside (s : string)
  | Unclosed (s : string).

Definition stretchText (p : stretch) : string :=
  match p with
  | Outside s => s
  | Inside s => Q +:+ escape s +:+ Q
  | Unclosed s => Q +:+ escape s
  end.

Definition stretchContent (p : stretch) : string :=
  match p with Outside s | Inside s | Unclosed s => s end.

(** A field as a sequence of stretches: its text on the line, and the
    value the parser is to return for it. *)
Fixpoint stretchesText (ps : list stretch) : string :=
  match ps with
  | [] => EmptyString
  | p :: r => stretchText p +:+ stretchesText r
  end.

Fixpoint stretchesContent (ps : list stretch) : string :=
  match ps with
  | [] => EmptyString
  | p :: r => stretchContent p +:+ stretchesContent r
  end.

Definition stretchesValue (ps : list stretch) : string := JS.trim (stretchesContent ps).

(** The stretches of a field can be told apart: a stretch outside quotes
    is plain, a closing quote is not directly followed by a quote, and a
    quote that is never closed ends the last field of the line. *)
Fixpoint stretchesOk (lastField : bool) (ps : list stretch) : bool :=
  match ps with
  | [] => true
  | Outside s :: r => plain s && stretchesOk lastField r
  | Inside _ :: r => negb (startsWithQuote (stretchesText r)) && stretchesOk lastField r
  | Unclosed _ :: r => lastField && match r with [] => true | _ :: _ => false end
  end.

Fixpoint stretchLineOk (fs : list (list stretch)) : bool :=
  match fs with
  | [] => false
  | [f] => stretchesOk true f
  | f :: r => stretchesOk false f && stretchLineOk r
  end.

Definition stretchLineText (fs : list (list stretch)) : string :=
  joinComma (List.map stretchesText fs).

(** The text of a line without its quotes. *)
Fixpoint dropQuotes (s : string) : string :=
  match s with
  | EmptyString => EmptyString
  | String c r => if Ascii.eqb c JS.dquote then dropQuotes r else String c (dropQuotes r)
  end.

(** A piece of a key that [JS.Number_int] reads as [Number] does: a piece
    that is not a number at all, or an integer of magnitude at most 2^53
    (the integers that binary64 holds exactly, and whose differences keep
    their sign). *)
Definition exactPiece (s : string) : bool :=
  match JS.stringLiteral s with
  | JS.LNaN => true
  | JS.LInf _ => false
  | JS.LDec _ m e =>
      if 0 <=? e then m * 10 ^ e <=? 2 ^ 53
      else (m mod 10 ^ (- e) =? 0) && (m / 10 ^ (- e) <=? 2 ^ 53)
  end.

(** A string on which the month utilities are modelled exactly: its first
    two pieces are such pieces. *)
Definition exactKey (s : string) : bool :=
  forallb exactPiece (take 2 (JS.splitOn JS.slash s)).

(** A fresh session in which 40 is typed for Wind while the snapshot is
    awaited, and a snapshot that names no source. *)
Definition typedWhilePending : Card :=
  cardStep (InstalledTyped "Wind" "40") (mountCard zeroCaps zeroCaps).

Definition noSourceText : string := "Foo" +:+ NL +:+ "1".

(** A history whose differences are not multiples of 0.01 in binary64. *)
Definition roundingText : string :=
  "Month,Coal,Solar,Wind" +:+ NL +:+ "01/2023,0.1,0.375,0.25" +:+ NL
  +:+ "01/2024,0.3,0.25,0.375".

(** ** The examples of the specification *)

Example parse_example :
  parseCSVSimple ("A,B,C" +:+ NL +:+ "Coal," +:+ Q +:+ "1,234.5" +:+ Q +:+ ",Nuclear")
  = {| header := ["A"; "B"; "C"]; rows := [["Coal"; "1,234.5"; "Nuclear"]] |}.
Proof. reflexivity. Qed.

Example compare_examples :
  compareMonthKey "01/2024" "12/2023" = JS.IInt 1
  /\ compareMonthKey "05/2024" "05/2024" = JS.IInt 0
  /\ minusMonths "03/2024" 12 = "03/2023"
  /\ minusMonths "02/2024" 2 = "12/2023"
  /\ minusMonths "01/1000" 1 = "12/999"
  /\ clampMonthKeyToOptions "03/2023" ["01/2023"; "06/2023"; "01/2024"] = "01/2023"
  /\ clampMonthKeyToOptions "12/2022" ["01/2023"; "06/2023"; "01/2024"] = "01/2023".
Proof. repeat split; reflexivity. Qed.

Example number_examples :
  typed "12.5" = 12.5%float
  /\ typed " 7 " = 7%float
  /\ typed "-2.5" = (-2.5)%float
  /\ typed "1e3" = 1000%float
  /\ typed "0x1F" = 31%float
  /\ typed "" = 0%float
  /\ typed "1,234.5" = 0%float
  /\ typed "Infinity" = 0%float
  /\ typed "abc" = 0%float
  /\ safeNum JS.VUndefined = 0%float
  /\ round2 2.5%float = 2.5%float
  /\ round2 0.125%float = typed "0.13"
  /\ round2 (-0.125)%float = typed "-0.12"
  /\ round2 (typed "1.005") = 1%float
  /\ JS.Math_round 2.5%float = 3%float
  /\ JS.Math_round (-2.5)%float = (-2)%float.
Proof. repeat split; vm_compute; reflexivity. Qed.

(** ** Facts about strings and [trim] *)

Section StringFacts.

Lemma str_app_nil_r (s : string) : s +:+ "" = s.
Proof. induction s as [|c s IH]; simpl; [reflexivity | now rewrite IH]. Qed.

Lemma str_app_cons (c : ascii) (s t : string) : String c s +:+ t = String c (s +:+ t).
Proof. reflexivity. Qed.

Lemma str_app_assoc (a b c : string) : (a +:+ b) +:+ c = a +:+ (b +:+ c).
Proof. induction a as [|x a IH]; simpl; [reflexivity | now rewrite IH]. Qed.

Lemma trimEnd_idem (s : string) : JS.trimEnd (JS.trimEnd s) = JS.trimEnd s.
Proof.
  induction s as [|c s IH]; simpl; [reflexivity|].
  destruct (JS.is_ws c && JS.is_empty (JS.trimEnd s)) eqn:E; simpl; [reflexivity|].
  rewrite IH, E. reflexivity.
Qed.

Lemma trimStart_head (s : string) :
  JS.trimStart s = "" \/ exists c r, JS.trimStart s = String c r /\ JS.is_ws c = false.
Proof.
  induction s as [|c s IH]; simpl; [now left|].
  destruct (JS.is_ws c) eqn:E; [exact IH | right; eauto].
Qed.

Lemma trimStart_idem (s : string) : JS.trimStart (JS.trimStart s) = JS.trimStart s.
Proof.
  destruct (trimStart_head s) as [-> | (c & r & -> & Hc)]; simpl; [reflexivity|].
  now rewrite Hc.
Qed.

Lemma trimStart_trimEnd (s : string) :
  JS.trimStart (JS.trimEnd (JS.trimStart s)) = JS.trimEnd (JS.trimStart s).
Proof.
  destruct (trimStart_head s) as [-> | (c & r & -> & Hc)]; simpl; [reflexivity|].
  rewrite Hc. simpl. now rewrite Hc.
Qed.

Lemma trim_idem (s : string) : JS.trim (JS.trim s) = JS.trim s.
Proof. unfold JS.trim. now rewrite trimStart_trimEnd, trimEnd_idem. Qed.

Lemma trimStart_ws_prefix (w s : string) :
  allWs w = true -> JS.trimStart (w +:+ s) = JS.trimStart s.
Proof.
  induction w as [|c w IH]; simpl; [reflexivity|].
  intros [Hc Hw]%andb_prop. rewrite Hc. auto.
Qed.

Lemma trimEnd_ws_suffix (s w : string) :
  allWs w = true -> JS.trimEnd (s +:+ w) = JS.trimEnd s.
Proof.
  intros Hw. induction s as [|c s IH]; simpl.
  - induction w as [|d w IHw]; simpl; [reflexivity|].
    apply andb_prop in Hw as [Hd Hw]. rewrite (IHw Hw), Hd. reflexivity.
  - now rewrite IH.
Qed.

Lemma trimStart_app_nonws (s w : string) :
  JS.trimStart s <> "" -> JS.trimStart (s +:+ w) = JS.trimStart s +:+ w.
Proof.
  induction s as [|c s IH]; simpl; [congruence|].
  destruct (JS.is_ws c); auto.
Qed.

Lemma trimStart_allWs (s : string) : JS.trimStart s = "" -> allWs s = true.
Proof.
  induction s as [|c s IH]; simpl; [reflexivity|].
  destruct (JS.is_ws c); [auto | discriminate].
Qed.

Lemma allWs_app (a b : string) : allWs a = true -> allWs b = true -> allWs (a +:+ b) = true.
Proof.
  induction a as [|c a IH]; simpl; [auto|].
  intros [Hc Ha]%andb_prop Hb. rewrite Hc; simpl; auto.
Qed.

Lemma trimStart_of_allWs (s : string) : allWs s = true -> JS.trimStart s = "".
Proof.
  induction s as [|c s IH]; simpl; [reflexivity|].
  intros [Hc Hs]%andb_prop. rewrite Hc; auto.
Qed.

Lemma trim_ws_prefix (w s : string) : allWs w = true -> JS.trim (w +:+ s) = JS.trim s.
Proof. intros Hw. unfold JS.trim. now rewrite trimStart_ws_prefix. Qed.

Lemma trim_ws_suffix (s w : string) : allWs w = true -> JS.trim (s +:+ w) = JS.trim s.
Proof.
  intros Hw. unfold JS.trim.
  destruct (string_dec (JS.trimStart s) "") as [E | E].
  - rewrite E, (trimStart_of_allWs (s +:+ w)); [reflexivity|].
    apply allWs_app; [now apply trimStart_allWs | exact Hw].
  - rewrite trimStart_app_nonws by exact E. now apply trimEnd_ws_suffix.
Qed.

Lemma trimStart_decomp (s : string) :
  exists w, allWs w = true /\ s = w +:+ JS.trimStart s.
Proof.
  induction s as [|c s (w & Hw & E)]; simpl; [exists ""; auto|].
  destruct (JS.is_ws c) eqn:Hc.
  - exists (String c w). simpl. rewrite Hc, Hw. split; [reflexivity | congruence].
  - exists "". auto.
Qed.

Lemma trimEnd_decomp (s : string) :
  exists w, allWs w = true /\ s = JS.trimEnd s +:+ w.
Proof.
  induction s as [|c s (w & Hw & E)]; simpl; [exists ""; auto|].
  destruct (JS.is_ws c && JS.is_empty (JS.trimEnd s)) eqn:Hc.
  - apply andb_prop in Hc as [Hc He].
    destruct (JS.trimEnd s); [|discriminate]. simpl in E. subst w.
    exists (String c s). simpl. rewrite Hc, Hw. auto.
  - exists w. simpl. split; [exact Hw | congruence].
Qed.

Lemma trim_decomp (s : string) :
  exists w1 w2, allWs w1 = true /\ allWs w2 = true /\ s = w1 +:+ JS.trim s +:+ w2.
Proof.
  destruct (trimStart_decomp s) as (w1 & H1 & E1).
  destruct (trimEnd_decomp (JS.trimStart s)) as (w2 & H2 & E2).
  exists w1, w2. repeat split; auto. unfold JS.trim. now rewrite <- E2.
Qed.

End StringFacts.

(** ** The character loop of [parseLine] *)

Section ParseLine.

Implicit Types (line rest cur : string) (out : list string) (q : bool).

Lemma loop_nil out cur q : parseLine_loop "" out cur q = out ++ [JS.trim cur].
Proof. reflexivity. Qed.

Lemma loop_escaped rest out cur :
  parseLine_loop (String JS.dquote (String JS.dquote rest)) out cur true
  = parseLine_loop rest out (cur +:+ Q) true.
Proof. reflexivity. Qed.

Lemma loop_quote rest out cur q :
  q = false \/ startsWithQuote rest = false ->
  parseLine_loop (String JS.dquote rest) out cur q = parseLine_loop rest out cur (negb q).
Proof.
  intros H. destruct rest as [|c rest]; [reflexivity|].
  cbn [parseLine_loop]. rewrite Ascii.eqb_refl.
  destruct H as [-> | H]; [reflexivity|].
  simpl in H. rewrite H, andb_false_r. reflexivity.
Qed.

Lemma loop_comma rest out cur :
  parseLine_loop (String JS.comma rest) out cur false
  = parseLine_loop rest (out ++ [JS.trim cur]) "" false.
Proof. destruct rest; reflexivity. Qed.

Lemma loop_other ch rest out cur q :
  ch <> JS.dquote -> ch <> JS.comma \/ q = true ->
  parseLine_loop (String ch rest) out cur q
  = parseLine_loop rest out (cur +:+ String ch "") q.
Proof.
  intros Hq Hc. apply Ascii.eqb_neq in Hq.
  assert (Ascii.eqb ch JS.comma && negb q = false) as Hc'.
  { destruct Hc as [Hc | ->]; [apply Ascii.eqb_neq in Hc; now rewrite Hc | apply andb_false_r]. }
  destruct rest as [|c rest]; cbn [parseLine_loop]; rewrite Hq, Hc'; reflexivity.
Qed.

(** Case analysis following the branches of the loop. *)
Lemma parseLine_loop_cases (P : string -> list string -> string -> bool -> Prop) :
  (forall out cur q, P "" out cur q) ->
  (forall rest out cur,
      P rest out (cur +:+ Q) true ->
      P (String JS.dquote (String JS.dquote rest)) out cur true) ->
  (forall rest out cur q,
      q = false \/ startsWithQuote rest = false ->
      P rest out cur (negb q) -> P (String JS.dquote rest) out cur q) ->
  (forall rest out cur,
      P rest (out ++ [JS.trim cur]) "" false -> P (String JS.comma rest) out cur false) ->
  (forall ch rest out cur q,
      ch <> JS.dquote -> ch <> JS.comma \/ q = true ->
      P rest out (cur +:+ String ch "") q -> P (String ch rest) out cur q) ->
  forall line out cur q, P line out cur q.
Proof.
  intros Hnil Hesc Hquote Hcomma Hother line.
  assert (forall n line, (String.length line <= n)%nat -> forall out cur q, P line out cur q) as H.
  { induction n as [|n IH]; intros l Hl out cur q.
    - destruct l; [apply Hnil | simpl in Hl; lia].
    - destruct l as [|ch rest]; [apply Hnil|]. simpl in Hl.
      destruct (Ascii.eqb_spec ch JS.dquote) as [-> | Hq].
      + destruct q.
        * destruct rest as [|c rest']; [apply Hquote; [now right | apply Hnil]|].
          destruct (Ascii.eqb_spec c JS.dquote) as [-> | Hc].
          -- apply Hesc, IH. simpl in Hl. lia.
          -- apply Hquote; [right; simpl; now apply Ascii.eqb_neq | apply IH; lia].
        * apply Hquote; [now left | apply IH; lia].
      + destruct (Ascii.eqb_spec ch JS.comma) as [-> | Hc].
        * destruct q; [apply Hother; auto; apply IH; lia | apply Hcomma, IH; lia].
        * apply Hother; auto. apply IH; lia. }
  intros out cur q. now apply (H (String.length line)).
Qed.

Lemma parseLine_loop_trimmed line out cur q :
  Forall trimmed out -> Forall trimmed (parseLine_loop line out cur q).
Proof.
  revert line out cur q.
  apply (parseLine_loop_cases (fun line out cur q =>
    Forall trimmed out -> Forall trimmed (parseLine_loop line out cur q))).
  - intros out cur q H. rewrite loop_nil. apply Forall_app; split; [exact H|].
    constructor; [apply trim_idem | constructor].
  - intros rest out cur IH H. rewrite loop_escaped. auto.
  - intros rest out cur q Hq IH H. rewrite loop_quote by exact Hq. auto.
  - intros rest out cur IH H. rewrite loop_comma. apply IH.
    apply Forall_app; split; [exact H|]. constructor; [apply trim_idem | constructor].
  - intros ch rest out cur q Hq Hc IH H. rewrite loop_other by assumption. auto.
Qed.

Lemma parseLine_loop_length line out cur q :
  (length out < length (parseLine_loop line out cur q))%nat.
Proof.
  revert line out cur q.
  apply (parseLine_loop_cases (fun line out cur q =>
    (length out < length (parseLine_loop line out cur q))%nat)).
  - intros out cur q. rewrite loop_nil, length_app. simpl. lia.
  - intros rest out cur IH. now rewrite loop_escaped.
  - intros rest out cur q Hq IH. now rewrite loop_quote.
  - intros rest out cur IH. rewrite loop_comma. rewrite length_app in IH. simpl in IH. lia.
  - intros ch rest out cur q Hq Hc IH. now rewrite loop_other.
Qed.

(** White space in front of the field being read, or after the line, is
    lost in [trim]. *)
Lemma parseLine_loop_ws_cur w line out cur q :
  allWs w = true ->
  parseLine_loop line out (w +:+ cur) q = parseLine_loop line out cur q.
Proof.
  intros Hw. revert line out cur q.
  apply (parseLine_loop_cases (fun line out cur q =>
    parseLine_loop line out (w +:+ cur) q = parseLine_loop line out cur q)).
  - intros out cur q. rewrite !loop_nil. now rewrite trim_ws_prefix.
  - intros rest out cur IH. rewrite !loop_escaped, str_app_assoc. exact IH.
  - intros rest out cur q Hq IH. now rewrite !loop_quote.
  - intros rest out cur IH. rewrite !loop_comma. now rewrite trim_ws_prefix.
  - intros ch rest out cur q Hq Hc IH. rewrite !loop_other by assumption.
    rewrite str_app_assoc. exact IH.
Qed.

Lemma allWs_plain_step c w : allWs (String c w) = true -> c <> JS.dquote /\ c <> JS.comma.
Proof.
  simpl. intros [Hc _]%andb_prop. split; intros ->; discriminate.
Qed.

Lemma parseLine_loop_ws_only w out cur q :
  allWs w = true -> parseLine_loop w out cur q = out ++ [JS.trim cur].
Proof.
  revert cur. induction w as [|c w IH]; intros cur Hw; [reflexivity|].
  destruct (allWs_plain_step _ _ Hw) as [Hq Hc].
  rewrite loop_other by auto. simpl in Hw. apply andb_prop in Hw as [Hc' Hw].
  rewrite IH by exact Hw. f_equal. f_equal.
  apply (trim_ws_suffix cur (String c "")). simpl. now rewrite Hc'.
Qed.

Lemma startsWithQuote_ws line w :
  allWs w = true -> startsWithQuote (line +:+ w) = startsWithQuote line.
Proof.
  intros Hw. destruct line; simpl; [|reflexivity].
  destruct w as [|c w]; [reflexivity|]. simpl.
  destruct (allWs_plain_step _ _ Hw) as [Hq _]. now apply Ascii.eqb_neq.
Qed.

Lemma parseLine_loop_ws_end w line out cur q :
  allWs w = true ->
  parseLine_loop (line +:+ w) out cur q = parseLine_loop line out cur q.
Proof.
  intros Hw. revert line out cur q.
  apply (parseLine_loop_cases (fun line out cur q =>
    parseLine_loop (line +:+ w) out cur q = parseLine_loop line out cur q)).
  - intros out cur q. change ("" +:+ w) with w. now apply parseLine_loop_ws_only.
  - intros rest out cur IH. rewrite !str_app_cons, !loop_escaped. exact IH.
  - intros rest out cur q Hq IH. rewrite str_app_cons, !loop_quote; auto.
    rewrite startsWithQuote_ws; auto.
  - intros rest out cur IH. rewrite str_app_cons. now rewrite !loop_comma.
  - intros ch rest out cur q Hq Hc IH. rewrite str_app_cons. now rewrite !loop_other.
Qed.

Lemma parseLine_loop_ws_start w line out cur q :
  allWs w = true ->
  parseLine_loop (w +:+ line) out cur q = parseLine_loop line out (cur +:+ w) q.
Proof.
  revert cur. induction w as [|c w IH]; intros cur Hw.
  - now rewrite str_app_nil_r.
  - destruct (allWs_plain_step _ _ Hw) as [Hq Hc].
    rewrite str_app_cons, loop_other by auto.
    simpl in Hw. apply andb_prop in Hw as [_ Hw].
    rewrite IH by exact Hw. now rewrite str_app_assoc.
Qed.

Lemma parseLine_trim line : parseLine (JS.trim line) = parseLine line.
Proof.
  destruct (trim_decomp line) as (w1 & w2 & H1 & H2 & E).
  unfold parseLine. rewrite E at 2.
  rewrite parseLine_loop_ws_start by exact H1.
  change ("" +:+ w1) with w1. rewrite <- (str_app_nil_r w1).
  rewrite parseLine_loop_ws_cur by exact H1.
  now rewrite parseLine_loop_ws_end.
Qed.

Lemma loop_plain s rest out cur q :
  plain s = true ->
  parseLine_loop (s +:+ rest) out cur q = parseLine_loop rest out (cur +:+ s) q.
Proof.
  revert cur. induction s as [|c s IH]; intros cur Hs.
  - now rewrite str_app_nil_r.
  - simpl in Hs. apply andb_prop in Hs as [[Hq Hc]%andb_prop Hs].
    apply negb_true_iff, Ascii.eqb_neq in Hq, Hc.
    rewrite str_app_cons, loop_other by auto.
    rewrite IH by exact Hs. now rewrite str_app_assoc.
Qed.

Lemma loop_escape_closed s rest out cur :
  startsWithQuote rest = false ->
  parseLine_loop (escape s +:+ Q +:+ rest) out cur true
  = parseLine_loop rest out (cur +:+ s) false.
Proof.
  intros Hrest. revert cur. induction s as [|c s IH]; intros cur.
  - change (escape "" +:+ Q +:+ rest) with (String JS.dquote rest).
    rewrite loop_quote by auto. now rewrite str_app_nil_r.
  - simpl escape. destruct (Ascii.eqb_spec c JS.dquote) as [-> | Hc].
    + rewrite !str_app_cons, loop_escaped, IH. now rewrite str_app_assoc.
    + rewrite str_app_cons, loop_other by auto. rewrite IH. now rewrite str_app_assoc.
Qed.

Lemma loop_escape_open s out cur :
  parseLine_loop (escape s) out cur true = out ++ [JS.trim (cur +:+ s)].
Proof.
  revert cur. induction s as [|c s IH]; intros cur.
  - simpl. now rewrite str_app_nil_r.
  - simpl escape. destruct (Ascii.eqb_spec c JS.dquote) as [-> | Hc].
    + rewrite loop_escaped, IH. now rewrite str_app_assoc.
    + rewrite loop_other by auto. rewrite IH. now rewrite str_app_assoc.
Qed.

Lemma loop_field f rest out cur :
  fieldOk f = true -> startsWithQuote rest = false ->
  parseLine_loop (render f +:+ rest) out cur false
  = parseLine_loop rest out (cur +:+ content f) false.
Proof.
  intros Hf Hrest. destruct f as [s | s]; unfold render, content, fieldOk in *.
  - now apply loop_plain.
  - rewrite !str_app_assoc.
    change (Q +:+ ?x) with (String JS.dquote x) at 1.
    rewrite loop_quote by auto. now apply loop_escape_closed.
Qed.

Lemma loop_linePrefix fs rest out :
  forallb fieldOk fs = true ->
  parseLine_loop (linePrefix fs +:+ rest) out "" false
  = parseLine_loop rest (out ++ List.map fieldText fs) "" false.
Proof.
  revert out. induction fs as [|f fs IH]; intros out Hfs.
  - simpl. now rewrite app_nil_r.
  - simpl in Hfs. apply andb_prop in Hfs as [Hf Hfs].
    simpl linePrefix. rewrite !str_app_assoc.
    rewrite loop_field by auto. rewrite str_app_cons.
    change (String ","%char ?x) with (String JS.comma x).
    rewrite loop_comma, IH by exact Hfs.
    simpl. now rewrite <- app_assoc.
Qed.

Lemma joinComma_snoc fs f :
  joinComma (List.map render (fs ++ [f])) = linePrefix fs +:+ render f.
Proof.
  induction fs as [|g fs IH]; [reflexivity|].
  simpl linePrefix. rewrite str_app_assoc, str_app_cons, <- IH.
  change ((g :: fs) ++ [f]) with (g :: (fs ++ [f])).
  destruct (fs ++ [f]) eqn:E; [now destruct fs | reflexivity].
Qed.

(** Every written field comes back, trimmed, whether quoted or not. *)
Lemma parseLine_fields fs :
  fs <> [] -> forallb fieldOk fs = true ->
  parseLine (joinComma (List.map render fs)) = List.map fieldText fs.
Proof.
  intros Hne Hok.
  destruct (exists_last Hne) as (fs' & f & ->).
  rewrite forallb_app in Hok. apply andb_prop in Hok as [Hfs Hf].
  simpl in Hf. rewrite andb_true_r in Hf.
  unfold parseLine. rewrite joinComma_snoc, loop_linePrefix by exact Hfs.
  rewrite <- (str_app_nil_r (render f)), loop_field by auto.
  rewrite loop_nil, List.map_app. reflexivity.
Qed.

(** A quote that is opened and never closed takes the rest of the line. *)
Lemma parseLine_unterminated fs body :
  forallb fieldOk fs = true ->
  parseLine (linePrefix fs +:+ Q +:+ escape body) = List.map fieldText fs ++ [JS.trim body].
Proof.
  intros Hfs. unfold parseLine. rewrite loop_linePrefix by exact Hfs.
  change (Q +:+ ?x) with (String JS.dquote x).
  rewrite loop_quote by auto. now rewrite loop_escape_open.
Qed.

End ParseLine.

(** ** Lines of a text *)

Section Lines.

Lemma splitLines_step c r :
  Ascii.eqb c JS.LF = false -> Ascii.eqb c JS.CR = false ->
  JS.splitLines (String c r)
  = match JS.splitLines r with h :: t => String c h :: t | [] => [String c ""] end.
Proof.
  intros H1 H2. cbn [JS.splitLines]. rewrite H1, H2.
  destruct r as [|c2 r2]; reflexivity.
Qed.

Lemma splitLines_last l : noBreak l = true -> JS.splitLines l = [l].
Proof.
  induction l as [|c l IH]; [reflexivity|]. simpl noBreak.
  intros [[H1 H2]%andb_prop Hl]%andb_prop. apply negb_true_iff in H1, H2.
  rewrite splitLines_step, IH by assumption. reflexivity.
Qed.

Lemma splitLines_line l rest :
  noBreak l = true -> JS.splitLines (l +:+ NL +:+ rest) = l :: JS.splitLines rest.
Proof.
  induction l as [|c l IH]; [reflexivity|]. simpl noBreak.
  intros [[H1 H2]%andb_prop Hl]%andb_prop. apply negb_true_iff in H1, H2.
  rewrite str_app_cons, splitLines_step, IH by assumption. reflexivity.
Qed.

Lemma splitLines_joinLines ls :
  ls <> [] -> forallb noBreak ls = true -> JS.splitLines (joinLines ls) = ls.
Proof.
  induction ls as [|l ls IH]; [congruence|]. intros _ Hls.
  simpl in Hls. apply andb_prop in Hls as [Hl Hls].
  destruct ls as [|l' ls'].
  - now apply splitLines_last.
  - change (joinLines (l :: l' :: ls')) with (l +:+ NL +:+ joinLines (l' :: ls')).
    rewrite splitLines_line, IH by (assumption || discriminate). reflexivity.
Qed.

(** The parser applies [parseLine] to the trimmed, non-blank lines. *)
Lemma parseCSVSimple_joinLines ls :
  ls <> [] -> forallb noBreak ls = true ->
  parseCSVSimple (joinLines ls)
  = match JS.filterTruthy (List.map JS.trim ls) with
    | [] => {| header := []; rows := [] |}
    | l0 :: r => {| header := parseLine l0; rows := List.map parseLine r |}
    end.
Proof.
  intros Hne Hls. unfold parseCSVSimple, csvLines.
  now rewrite splitLines_joinLines.
Qed.

Lemma csvLines_nonblank text : Forall (fun l => l <> "" /\ trimmed l) (csvLines text).
Proof.
  unfold csvLines, JS.filterTruthy. apply List.Forall_forall. intros l Hl.
  apply List.filter_In in Hl as [Hin Hne]. apply List.in_map_iff in Hin as (x & <- & _).
  split; [intros E; rewrite E in Hne; discriminate | apply trim_idem].
Qed.

End Lines.

(** ** The parser on written texts *)

Section WrittenTexts.

Lemma lineOk_parts fs :
  lineOk fs = true ->
  fs <> [] /\ forallb fieldOk fs = true /\ noBreak (writeLine fs) = true
  /\ JS.trim (writeLine fs) <> "".
Proof.
  unfold lineOk. intros [[[H1 H2]%andb_prop H3]%andb_prop H4]%andb_prop.
  repeat split; auto.
  - intros ->. discriminate.
  - intros E. rewrite E in H4. discriminate.
Qed.

Lemma parseLine_written fs :
  lineOk fs = true -> parseLine (JS.trim (writeLine fs)) = List.map fieldText fs.
Proof.
  intros (Hne & Hok & _ & _)%lineOk_parts.
  rewrite parseLine_trim. now apply parseLine_fields.
Qed.

Lemma filterTruthy_written ls :
  forallb lineOk ls = true ->
  JS.filterTruthy (List.map JS.trim (List.map writeLine ls))
  = List.map (fun fs => JS.trim (writeLine fs)) ls.
Proof.
  induction ls as [|fs ls IH]; [reflexivity|]. simpl forallb.
  intros [Hfs Hls]%andb_prop. simpl.
  destruct (lineOk_parts _ Hfs) as (_ & _ & _ & Hne).
  destruct (JS.trim (writeLine fs)) eqn:E; [congruence|].
  simpl. f_equal. now apply IH.
Qed.

Lemma noBreak_written ls :
  forallb lineOk ls = true -> forallb noBreak (List.map writeLine ls) = true.
Proof.
  induction ls as [|fs ls IH]; [reflexivity|]. simpl forallb.
  intros [Hfs Hls]%andb_prop.
  destruct (lineOk_parts _ Hfs) as (_ & _ & Hnb & _).
  rewrite Hnb. now apply IH.
Qed.

Lemma parseCSVSimple_written h rs :
  lineOk h = true -> forallb lineOk rs = true ->
  parseCSVSimple (joinLines (List.map writeLine (h :: rs)))
  = {| header := List.map fieldText h; rows := List.map (List.map fieldText) rs |}.
Proof.
  intros Hh Hrs.
  assert (forallb lineOk (h :: rs) = true) as Hall by (simpl; now rewrite Hh).
  rewrite parseCSVSimple_joinLines; [| discriminate | now apply noBreak_written].
  rewrite filterTruthy_written by exact Hall. simpl.
  rewrite parseLine_written by exact Hh. f_equal.
  rewrite List.map_map. apply List.map_ext_in. intros fs Hfs.
  apply parseLine_written.
  rewrite forallb_forall in Hrs. now apply Hrs.
Qed.

Lemma parseCSVSimple_trimmed text :
  Forall trimmed (header (parseCSVSimple text))
  /\ Forall (Forall trimmed) (rows (parseCSVSimple text)).
Proof.
  unfold parseCSVSimple. destruct (csvLines text) as [|l0 ls]; simpl.
  - split; constructor.
  - split; [now apply parseLine_loop_trimmed|].
    apply List.Forall_forall. intros r (l & <- & _)%List.in_map_iff.
    now apply parseLine_loop_trimmed.
Qed.

Lemma parseLine_nonempty line : parseLine line <> [].
Proof.
  unfold parseLine. intros E.
  pose proof (parseLine_loop_length line [] "" false) as H.
  rewrite E in H. simpl in H. lia.
Qed.

Lemma allWs_with_nonws a c b : JS.is_ws c = false -> allWs (a +:+ String c b) = false.
Proof.
  intros Hc. induction a as [|x a IH]; simpl; [now rewrite Hc|].
  rewrite IH. apply andb_false_r.
Qed.

Lemma trim_nonempty line : allWs line = false -> JS.trim line <> "".
Proof.
  intros Hl E. destruct (trim_decomp line) as (w1 & w2 & H1 & H2 & El).
  rewrite E in El. simpl in El. rewrite El, allWs_app in Hl by assumption. discriminate.
Qed.

Lemma escape_noQuote s : noQuote s = true -> escape s = s.
Proof.
  induction s as [|c s IH]; [reflexivity|]. simpl.
  intros [Hc Hs]%andb_prop. apply negb_true_iff in Hc. rewrite Hc, IH by exact Hs.
  reflexivity.
Qed.

(** A text made of one line whose last field is opened and never closed. *)
Lemma parseCSVSimple_unterminated fs body :
  forallb fieldOk fs = true ->
  noBreak (linePrefix fs +:+ Q +:+ escape body) = true ->
  parseCSVSimple (linePrefix fs +:+ Q +:+ escape body)
  = {| header := List.map fieldText fs ++ [JS.trim body]; rows := [] |}.
Proof.
  intros Hfs Hnb.
  pose proof (parseCSVSimple_joinLines [linePrefix fs +:+ Q +:+ escape body]) as H.
  cbn [joinLines] in H. rewrite H; [| discriminate | cbn [forallb]; now rewrite Hnb].
  cbn [List.map JS.filterTruthy List.filter].
  destruct (JS.trim _) eqn:E.
  - exfalso. revert E. apply trim_nonempty. now apply allWs_with_nonws.
  - cbn [JS.is_empty negb List.map]. rewrite <- E, parseLine_trim.
    now rewrite parseLine_unterminated.
Qed.

End WrittenTexts.

(** ** Every line as fields made of stretches *)

Section Stretches.

Lemma startsWithQuote_app a b :
  startsWithQuote (a +:+ b) = if JS.is_empty a then startsWithQuote b else startsWithQuote a.
Proof. destruct a; reflexivity. Qed.

Lemma startsWithQuote_prefix a b :
  startsWithQuote (a +:+ b) = false -> startsWithQuote a = false.
Proof. destruct a; [reflexivity | exact id]. Qed.

Lemma stretchesContent_app ps qs :
  stretchesContent (ps ++ qs) = stretchesContent ps +:+ stretchesContent qs.
Proof.
  induction ps as [|p ps IH]; [reflexivity|]. cbn [app stretchesContent].
  now rewrite IH, str_app_assoc.
Qed.

(** A field that is not the last of its line, read up to its comma. *)
Lemma loop_stretches ps rest out cur :
  stretchesOk false ps = true -> startsWithQuote rest = false ->
  parseLine_loop (stretchesText ps +:+ rest) out cur false
  = parseLine_loop rest out (cur +:+ stretchesContent ps) false.
Proof.
  intros Hok Hrest. revert cur. induction ps as [|[s|s|s] ps IH]; intros cur.
  - cbn [stretchesText stretchesContent]. now rewrite str_app_nil_r.
  - cbn [stretchesOk] in Hok. apply andb_prop in Hok as [Hs Hok].
    cbn [stretchesText stretchText stretchesContent stretchContent].
    rewrite !str_app_assoc, loop_plain by exact Hs. rewrite IH by exact Hok.
    now rewrite str_app_assoc.
  - cbn [stretchesOk] in Hok. apply andb_prop in Hok as [Hq Hok]. apply negb_true_iff in Hq.
    cbn [stretchesText stretchText stretchesContent stretchContent].
    rewrite !str_app_assoc. change (Q +:+ ?x) with (String JS.dquote x).
    rewrite loop_quote by now left. cbn [negb].
    rewrite loop_escape_closed.
    + rewrite IH by exact Hok. now rewrite str_app_assoc.
    + rewrite startsWithQuote_app. now destruct (JS.is_empty (stretchesText ps)).
  - cbn [stretchesOk] in Hok. discriminate.
Qed.

(** The last field of a line, read up to the end. *)
Lemma loop_stretches_last ps out cur :
  stretchesOk true ps = true ->
  parseLine_loop (stretchesText ps) out cur false
  = out ++ [JS.trim (cur +:+ stretchesContent ps)].
Proof.
  intros Hok. revert cur. induction ps as [|[s|s|s] ps IH]; intros cur.
  - cbn [stretchesText stretchesContent]. now rewrite loop_nil, str_app_nil_r.
  - cbn [stretchesOk] in Hok. apply andb_prop in Hok as [Hs Hok].
    cbn [stretchesText stretchText stretchesContent stretchContent].
    rewrite loop_plain by exact Hs. rewrite IH by exact Hok. now rewrite str_app_assoc.
  - cbn [stretchesOk] in Hok. apply andb_prop in Hok as [Hq Hok]. apply negb_true_iff in Hq.
    cbn [stretchesText stretchText stretchesContent stretchContent].
    rewrite !str_app_assoc. change (Q +:+ ?x) with (String JS.dquote x).
    rewrite loop_quote by now left. cbn [negb].
    rewrite loop_escape_closed by exact Hq.
    rewrite IH by exact Hok. now rewrite str_app_assoc.
  - cbn [stretchesOk] in Hok. destruct ps; [|discriminate].
    cbn [stretchesText stretchText stretchesContent stretchContent].
    rewrite !str_app_nil_r. change (Q +:+ ?x) with (String JS.dquote x).
    rewrite loop_quote by now left. cbn [negb]. apply loop_escape_open.
Qed.

Lemma loop_stretchLine fs out :
  stretchLineOk fs = true ->
  parseLine_loop (stretchLineText fs) out "" false = out ++ List.map stretchesValue fs.
Proof.
  revert out. induction fs as [|f fs IH]; intros out Hok; [discriminate|].
  destruct fs as [|g fs].
  - cbn [stretchLineOk] in Hok. unfold stretchLineText. cbn [List.map joinComma].
    now rewrite loop_stretches_last.
  - change (stretchLineOk (f :: g :: fs))
      with (stretchesOk false f && stretchLineOk (g :: fs)) in Hok.
    apply andb_prop in Hok as [Hf Hok].
    change (stretchLineText (f :: g :: fs))
      with (stretchesText f +:+ "," +:+ stretchLineText (g :: fs)).
    rewrite loop_stretches by (exact Hf || reflexivity).
    change ("," +:+ ?x) with (String JS.comma x).
    rewrite loop_comma, IH by exact Hok.
    cbn [List.map]. now rewrite <- app_assoc.
Qed.

(** The parser returns the value of every field of a line made of
    stretches. *)
Lemma parseLine_stretches fs :
  stretchLineOk fs = true -> parseLine (stretchLineText fs) = List.map stretchesValue fs.
Proof. intros Hok. unfold parseLine. now rewrite loop_stretchLine. Qed.

(** What follows an opening quote: the doubled content up to the end of
    the line, or up to a closing quote that no quote follows. *)
Lemma quote_split rest :
  (exists s, rest = escape s)
  \/ (exists s rest',
        rest = escape s +:+ Q +:+ rest' /\ startsWithQuote rest' = false
        /\ (String.length rest' < String.length rest)%nat).
Proof.
  enough (H : forall n rest0, (String.length rest0 <= n)%nat ->
            (exists s, rest0 = escape s)
            \/ (exists s rest',
                  rest0 = escape s +:+ Q +:+ rest' /\ startsWithQuote rest' = false
                  /\ (String.length rest' < String.length rest0)%nat))
    by (apply (H (String.length rest)); lia).
  clear rest. induction n as [|n IH]; intros [|c r] Hle;
    try (left; exists ""; reflexivity); [simpl in Hle; lia|].
  simpl in Hle. destruct (Ascii.eqb_spec c JS.dquote) as [->|Hc].
  - destruct r as [|d r'].
    + right. exists "", "". repeat split. cbn [String.length]; lia.
    + destruct (Ascii.eqb_spec d JS.dquote) as [->|Hd].
      * simpl in Hle.
        destruct (IH r' ltac:(lia)) as [[s ->] | (s & rest' & -> & Hq & Hl)].
        -- left. exists (String JS.dquote s). reflexivity.
        -- right. exists (String JS.dquote s), rest'. split; [reflexivity|].
           split; [exact Hq|]. cbn [String.length]; lia.
      * right. exists "", (String d r'). split; [reflexivity|]. split.
        -- simpl. now apply Ascii.eqb_neq.
        -- cbn [String.length]; lia.
  - assert (He : forall s, escape (String c s) = String c (escape s)).
    { intros s. cbn [escape]. now rewrite (proj2 (Ascii.eqb_neq c JS.dquote) Hc). }
    destruct (IH r ltac:(lia)) as [[s ->] | (s & rest' & -> & Hq & Hl)].
    + left. exists (String c s). now rewrite He.
    + right. exists (String c s), rest'. rewrite He. split; [reflexivity|].
      split; [exact Hq|]. cbn [String.length]; lia.
Qed.

Lemma stretchLine_cons p f fs :
  stretchLineText ((p :: f) :: fs) = stretchText p +:+ stretchLineText (f :: fs).
Proof.
  unfold stretchLineText. cbn [List.map stretchesText].
  destruct fs as [|g fs]; [reflexivity|]. cbn [List.map joinComma].
  now rewrite str_app_assoc.
Qed.

Lemma stretchLineOk_cons p f fs :
  stretchLineOk (f :: fs) = true ->
  match p with
  | Outside s => plain s = true
  | Inside _ => startsWithQuote (stretchLineText (f :: fs)) = false
  | Unclosed _ => False
  end ->
  stretchLineOk ((p :: f) :: fs) = true.
Proof.
  intros Hok Hp.
  assert (Hq : startsWithQuote (stretchLineText (f :: fs)) = false ->
               startsWithQuote (stretchesText f) = false).
  { unfold stretchLineText. cbn [List.map]. destruct fs as [|g fs]; [exact id|].
    cbn [joinComma]. apply startsWithQuote_prefix. }
  destruct fs as [|g fs].
  - cbn [stretchLineOk] in *. destruct p as [s|s|s]; cbn [stretchesOk]; [| |contradiction].
    + now rewrite Hp, Hok.
    + now rewrite (Hq Hp), Hok.
  - change (stretchLineOk (f :: g :: fs))
      with (stretchesOk false f && stretchLineOk (g :: fs)) in Hok.
    apply andb_prop in Hok as [Hf Hok].
    change (stretchLineOk ((p :: f) :: g :: fs))
      with (stretchesOk false (p :: f) && stretchLineOk (g :: fs)).
    rewrite Hok, andb_true_r.
    destruct p as [s|s|s]; cbn [stretchesOk]; [| |contradiction].
    + now rewrite Hp, Hf.
    + now rewrite (Hq Hp), Hf.
Qed.

(** Every line is made of stretches. *)
Lemma line_of_stretches line :
  exists fs, stretchLineOk fs = true /\ stretchLineText fs = line.
Proof.
  enough (H : forall n line0, (String.length line0 <= n)%nat ->
            exists fs, stretchLineOk fs = true /\ stretchLineText fs = line0)
    by (apply (H (String.length line)); lia).
  clear line. induction n as [|n IH]; intros [|c r] Hle;
    try (exists [[]]; split; reflexivity); [simpl in Hle; lia|].
  simpl in Hle. destruct (Ascii.eqb_spec c JS.dquote) as [->|Hc].
  - destruct (quote_split r) as [[s ->] | (s & rest' & -> & Hq & Hl)].
    + exists [[Unclosed s]]. split; [reflexivity|].
      unfold stretchLineText. cbn. now rewrite str_app_nil_r.
    + destruct (IH rest' ltac:(lia)) as (fs & Hok & Ht).
      destruct fs as [|f fs]; [discriminate|].
      exists ((Inside s :: f) :: fs). split.
      * apply stretchLineOk_cons; [exact Hok | now rewrite Ht].
      * rewrite stretchLine_cons, Ht. cbn [stretchText]. now rewrite !str_app_assoc.
  - destruct (Ascii.eqb_spec c JS.comma) as [->|Hk].
    + destruct (IH r ltac:(lia)) as (fs & Hok & Ht).
      destruct fs as [|f fs]; [discriminate|].
      exists ([] :: f :: fs). split.
      * change (stretchLineOk ([] :: f :: fs)) with (true && stretchLineOk (f :: fs)).
        exact Hok.
      * change (stretchLineText ([] :: f :: fs)) with ("," +:+ stretchLineText (f :: fs)).
        now rewrite Ht.
    + destruct (IH r ltac:(lia)) as (fs & Hok & Ht).
      destruct fs as [|f fs]; [discriminate|].
      exists ((Outside (String c "") :: f) :: fs). split.
      * apply stretchLineOk_cons; [exact Hok|]. cbn [plain].
        now rewrite (proj2 (Ascii.eqb_neq _ _) Hc), (proj2 (Ascii.eqb_neq _ _) Hk).
      * rewrite stretchLine_cons, Ht. reflexivity.
Qed.

(** Every line is read as its stretches say. *)
Lemma parseLine_reads line :
  exists fs,
    stretchLineOk fs = true /\ stretchLineText fs = line
    /\ parseLine line = List.map stretchesValue fs.
Proof.
  destruct (line_of_stretches line) as (fs & Hok & Ht).
  exists fs. split; [exact Hok|]. split; [exact Ht|].
  rewrite <- Ht. now apply parseLine_stretches.
Qed.

Lemma lines_read ls :
  exists fss,
    Forall2 (fun l fs => stretchLineOk fs = true /\ stretchLineText fs = l) ls fss
    /\ List.map parseLine ls = List.map (List.map stretchesValue) fss.
Proof.
  induction ls as [|l ls (fss & HF & HM)]; [exists []; split; [constructor | reflexivity]|].
  destruct (parseLine_reads l) as (fs & Hok & Ht & Hp).
  exists (fs :: fss). split; [constructor; auto|]. cbn [List.map]. now rewrite Hp, HM.
Qed.

(** Every text: its non-blank trimmed lines are made of stretches, and
    the parser returns the values of their fields. *)
Lemma parseCSVSimple_reads text :
  exists fss,
    Forall2 (fun l fs => stretchLineOk fs = true /\ stretchLineText fs = l) (csvLines text) fss
    /\ parseCSVSimple text
       = match fss with
         | [] => {| header := []; rows := [] |}
         | h :: rs =>
             {| header := List.map stretchesValue h;
                rows := List.map (List.map stretchesValue) rs |}
         end.
Proof.
  destruct (lines_read (csvLines text)) as (fss & HF & HM).
  exists fss. split; [exact HF|]. unfold parseCSVSimple.
  destruct HF as [|l fs ls fss' _ _]; [reflexivity|].
  cbn [List.map] in HM. injection HM as -> ->. reflexivity.
Qed.

End Stretches.

(** C7.  For every text: each of its non-blank, trimmed lines is made of
    fields separated by commas, each field a sequence of stretches — text
    outside quotes, text between two quotes with its own quotes doubled,
    or text after a quote that is never closed — and the parser returns,
    for every field, the contents of its stretches put together and
    trimmed.  So a comma between quotes stays in its field, a doubled
    quote between quotes comes back as one quote, the delimiting quotes
    are gone wherever they stand in the field, and every field is trimmed.
    Every line is made of such fields, and the parser reads every line so
    made as said.  In particular a header and rows written field by
    field, raw or quoted, are read back; the row [Coal,"1,234.5",Nuclear]
    under the header [A,B,C] has [1,234.5] as its field B. *)
Theorem parser_reads_written_fields (text : string) :
  (exists fss,
     Forall2 (fun l fs => stretchLineOk fs = true /\ stretchLineText fs = l) (csvLines text) fss
     /\ parseCSVSimple text
        = match fss with
          | [] => {| header := []; rows := [] |}
          | h :: rs =>
              {| header := List.map stretchesValue h;
                 rows := List.map (List.map stretchesValue) rs |}
          end)
  /\ (forall fs, stretchLineOk fs = true ->
        parseLine (stretchLineText fs) = List.map stretchesValue fs)
  /\ (forall line, exists fs, stretchLineOk fs = true /\ stretchLineText fs = line)
  /\ (forall h rs, lineOk h = true -> forallb lineOk rs = true ->
        parseCSVSimple (joinLines (List.map writeLine (h :: rs)))
        = {| header := List.map fieldText h; rows := List.map (List.map fieldText) rs |})
  /\ Forall trimmed (header (parseCSVSimple text))
  /\ Forall (Forall trimmed) (rows (parseCSVSimple text))
  /\ parseCSVSimple ("A,B,C" +:+ NL +:+ "Coal," +:+ Q +:+ "1,234.5" +:+ Q +:+ ",Nuclear")
     = {| header := ["A"; "B"; "C"]; rows := [["Coal"; "1,234.5"; "Nuclear"]] |}
  /\ parseLine ("a, " +:+ Q +:+ "b,c" +:+ Q +:+ " ,d" +:+ Q +:+ "," +:+ Q +:+ "e") = ["a"; "b,c"; "d,e"].
Proof.
  split; [apply parseCSVSimple_reads|].
  split; [apply parseLine_stretches|].
  split; [apply line_of_stretches|].
  split; [intros h rs; apply parseCSVSimple_written|].
  split; [apply parseCSVSimple_trimmed|].
  split; [apply parseCSVSimple_trimmed|].
  split; reflexivity.
Qed.

(** A line with spaces around a quoted field, a comma and a doubled quote
    between quotes, and a quote in the middle of a field; and a header and
    two rows written field by field. *)
Lemma parser_reads_written_fields_witness :
  parseLine
    (stretchLineText
       [ [Outside "a"];
         [Outside " "; Inside ("b," +:+ Q +:+ "c"); Outside " "];
         [Outside "d"; Inside ",e"; Outside "f "] ])
  = ["a"; "b," +:+ Q +:+ "c"; "d,ef"]
  /\ parseCSVSimple
       (joinLines (List.map writeLine
          [ [Raw "A"; Raw " B "; Raw "C"];
            [Raw "Coal"; Quoted "1,234.5"; Raw "Nuclear"];
            [Quoted ("say " +:+ Q +:+ "hi" +:+ Q); Quoted " x, y "; Raw ""] ]))
     = {| header := ["A"; "B"; "C"];
          rows := [ ["Coal"; "1,234.5"; "Nuclear"];
                    ["say " +:+ Q +:+ "hi" +:+ Q; "x, y"; ""] ] |}.
Proof.
  destruct (parser_reads_written_fields "") as (_ & Hs & _ & Hw & _).
  split.
  - apply (Hs [ [Outside "a"];
                [Outside " "; Inside ("b," +:+ Q +:+ "c"); Outside " "];
                [Outside "d"; Inside ",e"; Outside "f "] ]).
    reflexivity.
  - apply (Hw [Raw "A"; Raw " B "; Raw "C"]
              [ [Raw "Coal"; Quoted "1,234.5"; Raw "Nuclear"];
                [Quoted ("say " +:+ Q +:+ "hi" +:+ Q); Quoted " x, y "; Raw ""] ]);
      reflexivity.
Defined.

Section Unterminated.

Lemma stretches_unclosed_value fs ps body :
  List.map stretchesValue (fs ++ [ps ++ [Unclosed body]])
  = List.map stretchesValue fs ++ [JS.trim (stretchesContent ps +:+ body)].
Proof.
  rewrite List.map_app. cbn [List.map]. unfold stretchesValue at 2.
  rewrite stretchesContent_app. cbn [stretchesContent stretchContent].
  now rewrite str_app_nil_r.
Qed.

Lemma parseLine_unclosed fs ps body :
  stretchLineOk (fs ++ [ps ++ [Unclosed body]]) = true ->
  parseLine (stretchLineText (fs ++ [ps ++ [Unclosed body]]))
  = List.map stretchesValue fs ++ [JS.trim (stretchesContent ps +:+ body)].
Proof.
  intros Hok. rewrite parseLine_stretches by exact Hok. apply stretches_unclosed_value.
Qed.

End Unterminated.

(** C10, amended.  The parser is a total function of the text.  It
    returns one header and one row per non-blank line (nothing for a text
    without one), and every line gives at least one field.  Every line is
    made of fields of stretches and is read as they say; when the last
    stretch of the line follows a quote that is never closed, the last
    field is what precedes that quote in the field, followed by the rest
    of the line, commas included, each doubled quote of the rest read as
    one quote (the rest has no other quote), the whole trimmed.  The quote
    characters of the rest are therefore not all removed; they are when
    the rest holds none. *)
Theorem parser_total (text : string) :
  length (rows (parseCSVSimple text)) = Nat.pred (length (csvLines text))
  /\ (csvLines text = [] -> header (parseCSVSimple text) = [])
  /\ (csvLines text <> [] -> header (parseCSVSimple text) <> [])
  /\ Forall (fun r => r <> []) (rows (parseCSVSimple text))
  /\ (forall line, parseLine line <> [])
  /\ (forall line, exists fs,
        stretchLineOk fs = true /\ stretchLineText fs = line
        /\ parseLine line = List.map stretchesValue fs)
  /\ (forall fs ps body,
        stretchLineOk (fs ++ [ps ++ [Unclosed body]]) = true ->
        parseLine (stretchLineText (fs ++ [ps ++ [Unclosed body]]))
        = List.map stretchesValue fs ++ [JS.trim (stretchesContent ps +:+ body)])
  /\ (forall fs body, forallb fieldOk fs = true ->
        parseLine (linePrefix fs +:+ Q +:+ escape body)
        = List.map fieldText fs ++ [JS.trim body])
  /\ (forall fs rest, forallb fieldOk fs = true -> noQuote rest = true ->
        parseLine (linePrefix fs +:+ Q +:+ rest)
        = List.map fieldText fs ++ [JS.trim rest])
  /\ (forall fs body, forallb fieldOk fs = true ->
        noBreak (linePrefix fs +:+ Q +:+ escape body) = true ->
        parseCSVSimple (linePrefix fs +:+ Q +:+ escape body)
        = {| header := List.map fieldText fs ++ [JS.trim body]; rows := [] |})
  /\ parseLine ("a," +:+ Q +:+ "b, c ") = ["a"; "b, c"]
  /\ parseLine ("a, x" +:+ Q +:+ "b, c ") = ["a"; "xb, c"]
  /\ parseCSVSimple ("x," +:+ Q +:+ "y" +:+ NL +:+ Q +:+ "1,2" +:+ Q +:+ "," +:+ Q +:+ " 3,4")
     = {| header := ["x"; "y"]; rows := [["1,2"; "3,4"]] |}.
Proof.
  assert (forall r, In r (rows (parseCSVSimple text)) -> r <> []) as Hrows.
  { unfold parseCSVSimple. destruct (csvLines text) as [|l0 ls]; simpl; [tauto|].
    intros r (l & <- & _)%List.in_map_iff. apply parseLine_nonempty. }
  repeat apply conj.
  - unfold parseCSVSimple. destruct (csvLines text); simpl; [reflexivity|].
    now rewrite length_map.
  - unfold parseCSVSimple. now intros ->.
  - unfold parseCSVSimple. destruct (csvLines text); [congruence|].
    intros _. apply parseLine_nonempty.
  - now apply List.Forall_forall.
  - apply parseLine_nonempty.
  - apply parseLine_reads.
  - apply parseLine_unclosed.
  - apply parseLine_unterminated.
  - intros fs rest Hfs Hrest. rewrite <- (escape_noQuote rest Hrest) at 1.
    now apply parseLine_unterminated.
  - apply parseCSVSimple_unterminated.
  - reflexivity.
  - reflexivity.
  - reflexivity.
Qed.

(** C10 as stated fails: after a quote that is never closed, a doubled
    quote of the rest comes back as a quote, so the field is not the rest
    with its quote characters removed; and what precedes the quote in the
    field is part of the field. *)
Lemma unterminated_keeps_doubled_quote :
  parseLine (Q +:+ "a" +:+ Q +:+ Q +:+ "b") = ["a" +:+ Q +:+ "b"]
  /\ JS.trim (dropQuotes ("a" +:+ Q +:+ Q +:+ "b")) = "ab"
  /\ parseLine (Q +:+ "a" +:+ Q +:+ Q +:+ "b") <> [JS.trim (dropQuotes ("a" +:+ Q +:+ Q +:+ "b"))]
  /\ parseLine ("x" +:+ Q +:+ "a,b") = ["xa,b"]
  /\ parseLine ("x" +:+ Q +:+ "a,b") <> [JS.trim (dropQuotes "a,b")].
Proof. repeat split; try reflexivity; vm_compute; discriminate. Qed.

(** ** Numbers written in decimal digits *)

Section Digits.

Lemma is_digit_cases c :
  JS.is_digit c = true ->
  In c ["0"; "1"; "2"; "3"; "4"; "5"; "6"; "7"; "8"; "9"]%char.
Proof.
  destruct c as [[] [] [] [] [] [] [] []]; intros H; try discriminate H;
    simpl; tauto.
Qed.

Ltac digit_cases c H :=
  apply is_digit_cases in H; simpl in H;
  repeat (destruct H as [H | H]; [subst c |]); [.. | contradiction].

Lemma digit_val_range c : JS.is_digit c = true -> 0 <= JS.digit_val c <= 9.
Proof. intros H. digit_cases c H; vm_compute; split; discriminate. Qed.

Lemma digit_val_inj c d :
  JS.is_digit c = true -> JS.is_digit d = true -> JS.digit_val c = JS.digit_val d -> c = d.
Proof.
  intros Hc Hd. digit_cases c Hc; digit_cases d Hd; intros E;
    try reflexivity; vm_compute in E; discriminate E.
Qed.

Lemma digit_not_ws c : JS.is_digit c = true -> JS.is_ws c = false.
Proof. intros H. digit_cases c H; reflexivity. Qed.

Lemma digit_not_slash c : JS.is_digit c = true -> Ascii.eqb c JS.slash = false.
Proof. intros H. digit_cases c H; reflexivity. Qed.

Lemma trimEnd_digits s : allDigits s = true -> JS.trimEnd s = s.
Proof.
  induction s as [|c s IH]; [reflexivity|]. simpl.
  intros [Hc Hs]%andb_prop. rewrite (digit_not_ws _ Hc), IH by exact Hs. reflexivity.
Qed.

Lemma trim_digits s : allDigits s = true -> JS.trim s = s.
Proof.
  intros Hs. unfold JS.trim. destruct s as [|c s]; [reflexivity|].
  pose proof Hs as Hs'. simpl in Hs'. apply andb_prop in Hs' as [Hc _].
  simpl JS.trimStart. rewrite (digit_not_ws _ Hc). now apply trimEnd_digits.
Qed.

Lemma spanDigits_digits s : allDigits s = true -> JS.spanDigits s = (s, "").
Proof.
  induction s as [|c s IH]; [reflexivity|]. simpl.
  intros [Hc Hs]%andb_prop. rewrite Hc, IH by exact Hs. reflexivity.
Qed.

Lemma unsignedDecimal_digits s :
  s <> "" -> allDigits s = true ->
  JS.unsignedDecimal false s = JS.LDec false (JS.digitsValue 0 s) 0.
Proof.
  intros Hne Hs. unfold JS.unsignedDecimal.
  destruct s as [|c s]; [congruence|].
  assert (String.eqb (String c s) "Infinity" = false) as ->.
  { simpl in Hs. apply andb_prop in Hs as [Hc _]. digit_cases c Hc; reflexivity. }
  rewrite spanDigits_digits by exact Hs. simpl.
  now rewrite str_app_nil_r.
Qed.

Lemma stringLiteral_digits s :
  s <> "" -> allDigits s = true ->
  JS.stringLiteral s = JS.LDec false (JS.digitsValue 0 s) 0.
Proof.
  intros Hne Hs. unfold JS.stringLiteral. rewrite trim_digits by exact Hs.
  rewrite <- unsignedDecimal_digits by assumption.
  destruct s as [|c s]; [congruence|].
  pose proof Hs as Hs'. simpl in Hs'. apply andb_prop in Hs' as [Hc Hs'].
  destruct s as [|c2 s].
  - digit_cases c Hc; reflexivity.
  - simpl in Hs'. apply andb_prop in Hs' as [Hc2 _].
    digit_cases c Hc; try reflexivity.
    digit_cases c2 Hc2; reflexivity.
Qed.

Lemma Number_int_digits s :
  s <> "" -> allDigits s = true -> JS.Number_int s = JS.IInt (JS.digitsValue 0 s).
Proof.
  intros Hne Hs. unfold JS.Number_int. rewrite stringLiteral_digits by assumption.
  simpl. now rewrite Z.mul_1_r.
Qed.

End Digits.

(** ** Month keys as numbers *)

Section MonthKeys.

Lemma monthKeyRegex_shape s :
  monthKeyRegex s = true ->
  exists a b d e f g,
    s = String a (String b (String JS.slash (String d (String e (String f (String g ""))))))
    /\ JS.is_digit a = true /\ JS.is_digit b = true /\ JS.is_digit d = true
    /\ JS.is_digit e = true /\ JS.is_digit f = true /\ JS.is_digit g = true.
Proof.
  destruct s as [|a [|b [|c [|d [|e [|f [|g [|? ?]]]]]]]]; try discriminate.
  simpl.
  intros [[[[[[Ha Hb]%andb_prop Hc]%andb_prop Hd]%andb_prop He]%andb_prop Hf]%andb_prop Hg]%andb_prop.
  exists a, b, d, e, f, g. apply Ascii.eqb_eq in Hc. subst c. auto 10.
Qed.

Lemma monthParts_regex s :
  monthKeyRegex s = true ->
  exists m y, monthNumbers s = Some (m, y) /\ 0 <= m <= 99 /\ 0 <= y <= 9999.
Proof.
  intros (a & b & d & e & f & g & -> & Ha & Hb & Hd & He & Hf & Hg)%monthKeyRegex_shape.
  unfold monthNumbers, monthParts.
  cbn [JS.splitOn]. rewrite (digit_not_slash a), (digit_not_slash b) by assumption.
  rewrite Ascii.eqb_refl.
  rewrite (digit_not_slash d), (digit_not_slash e), (digit_not_slash f),
    (digit_not_slash g) by assumption.
  cbn [List.map List.nth].
  rewrite !Number_int_digits by (try discriminate; simpl; rewrite ?Ha, ?Hb, ?Hd, ?He, ?Hf, ?Hg; reflexivity).
  eexists _, _. split; [reflexivity|]. cbn [JS.digitsValue].
  pose proof (digit_val_range a Ha). pose proof (digit_val_range b Hb).
  pose proof (digit_val_range d Hd). pose proof (digit_val_range e He).
  pose proof (digit_val_range f Hf). pose proof (digit_val_range g Hg).
  lia.
Qed.

Lemma regex_comparable s : monthKeyRegex s = true -> comparable s.
Proof. intros (m & y & H & Hm & _)%monthParts_regex. now exists m, y. Qed.

Lemma monthNumbers_inj a b :
  monthKeyRegex a = true -> monthKeyRegex b = true ->
  monthNumbers a = monthNumbers b -> a = b.
Proof.
  intros (a1 & a2 & a3 & a4 & a5 & a6 & -> & Ha1 & Ha2 & Ha3 & Ha4 & Ha5 & Ha6)%monthKeyRegex_shape.
  intros (b1 & b2 & b3 & b4 & b5 & b6 & -> & Hb1 & Hb2 & Hb3 & Hb4 & Hb5 & Hb6)%monthKeyRegex_shape.
  unfold monthNumbers, monthParts. cbn [JS.splitOn].
  rewrite (digit_not_slash a1), (digit_not_slash a2), (digit_not_slash a3),
    (digit_not_slash a4), (digit_not_slash a5), (digit_not_slash a6),
    (digit_not_slash b1), (digit_not_slash b2), (digit_not_slash b3),
    (digit_not_slash b4), (digit_not_slash b5), (digit_not_slash b6) by assumption.
  rewrite Ascii.eqb_refl. cbn [List.map List.nth].
  rewrite !Number_int_digits
    by (try discriminate; simpl;
        rewrite ?Ha1, ?Ha2, ?Ha3, ?Ha4, ?Ha5, ?Ha6, ?Hb1, ?Hb2, ?Hb3, ?Hb4, ?Hb5, ?Hb6;
        reflexivity).
  cbn [JS.digitsValue]. intros E. injection E as Em Ey.
  pose proof (digit_val_range a1 Ha1). pose proof (digit_val_range a2 Ha2).
  pose proof (digit_val_range a3 Ha3). pose proof (digit_val_range a4 Ha4).
  pose proof (digit_val_range a5 Ha5). pose proof (digit_val_range a6 Ha6).
  pose proof (digit_val_range b1 Hb1). pose proof (digit_val_range b2 Hb2).
  pose proof (digit_val_range b3 Hb3). pose proof (digit_val_range b4 Hb4).
  pose proof (digit_val_range b5 Hb5). pose proof (digit_val_range b6 Hb6).
  rewrite (digit_val_inj a1 b1), (digit_val_inj a2 b2), (digit_val_inj a3 b3),
    (digit_val_inj a4 b4), (digit_val_inj a5 b5), (digit_val_inj a6 b6)
    by (assumption || lia).
  reflexivity.
Qed.

(** On comparable keys the comparator is the difference of the years, or of
    the months when the years agree; its sign is the order of the indices. *)
Lemma compareMonthKey_numbers a b ma ya mb yb :
  monthNumbers a = Some (ma, ya) -> monthNumbers b = Some (mb, yb) ->
  compareMonthKey a b = JS.IInt (if ya =? yb then ma - mb else ya - yb).
Proof.
  unfold monthNumbers, compareMonthKey.
  destruct (monthParts a) as [[| |am] [| |ay]]; try discriminate.
  destruct (monthParts b) as [[| |bm] [| |by_]]; try discriminate.
  intros [= -> ->] [= -> ->]. simpl.
  destruct (ya =? yb) eqn:E; simpl; [|reflexivity].
  reflexivity.
Qed.

Lemma le0_compare a b :
  comparable a -> comparable b ->
  JS.le0 (compareMonthKey a b) = (monthIndex a <=? monthIndex b).
Proof.
  intros (ma & ya & Ha & Hma) (mb & yb & Hb & Hmb).
  rewrite (compareMonthKey_numbers _ _ _ _ _ _ Ha Hb).
  unfold monthIndex. rewrite Ha, Hb. simpl.
  destruct (ya =? yb) eqn:E; [apply Z.eqb_eq in E | apply Z.eqb_neq in E];
    apply eq_true_iff_eq; rewrite !Z.leb_le; lia.
Qed.

Lemma gt0_compare a b :
  comparable a -> comparable b ->
  JS.gt0 (compareMonthKey a b) = (monthIndex b <? monthIndex a).
Proof.
  intros (ma & ya & Ha & Hma) (mb & yb & Hb & Hmb).
  rewrite (compareMonthKey_numbers _ _ _ _ _ _ Ha Hb).
  unfold monthIndex. rewrite Ha, Hb. simpl.
  destruct (ya =? yb) eqn:E; [apply Z.eqb_eq in E | apply Z.eqb_neq in E];
    apply eq_true_iff_eq; rewrite !Z.ltb_lt; lia.
Qed.

(** A key is never after itself, whatever it holds. *)
Lemma gt0_compare_same a : JS.gt0 (compareMonthKey a a) = false.
Proof.
  unfold compareMonthKey. destruct (monthParts a) as [[| |m] [| |y]]; simpl;
    try reflexivity; rewrite ?Z.eqb_refl; simpl; try reflexivity;
    apply Z.ltb_ge; lia.
Qed.

Lemma monthIndex_inj a b :
  monthKeyRegex a = true -> monthKeyRegex b = true -> monthIndex a = monthIndex b -> a = b.
Proof.
  intros Ha Hb E. apply monthNumbers_inj; auto.
  destruct (monthParts_regex a Ha) as (ma & ya & Ea & Hma & _).
  destruct (monthParts_regex b Hb) as (mb & yb & Eb & Hmb & _).
  unfold monthIndex in E. rewrite Ea, Eb in *. f_equal. f_equal; lia.
Qed.

End MonthKeys.

(** ** The sort *)

Section Sort.

Context {A : Type} (cmp : A -> A -> JS.ival).

Lemma insert_perm x l : Permutation (JS.insert cmp x l) (x :: l).
Proof.
  induction l as [|y l IH]; simpl; [reflexivity|].
  destruct (JS.gt0 (cmp x y)); [|reflexivity].
  rewrite IH. apply perm_swap.
Qed.

Lemma sort_perm l : Permutation (JS.sort cmp l) l.
Proof.
  induction l as [|x l IH]; simpl; [reflexivity|].
  rewrite insert_perm. now constructor.
Qed.

Lemma sort_In l x : In x (JS.sort cmp l) <-> In x l.
Proof.
  split; apply Permutation_in; [apply sort_perm | symmetry; apply sort_perm].
Qed.

Lemma sort_nil_inv l : JS.sort cmp l = [] -> l = [].
Proof.
  intros E. apply Permutation_nil. rewrite <- E. apply sort_perm.
Qed.

(** Stability: the elements selected by [p] keep their order when no
    selected element is placed after another one by the comparator. *)
Section Stable.

Variable p : A -> bool.
Hypothesis p_tied : forall a b, p a = true -> p b = true -> JS.gt0 (cmp a b) = false.

Lemma insert_filter x l :
  List.filter p (JS.insert cmp x l) = List.filter p (x :: l).
Proof.
  induction l as [|y l IH]; [reflexivity|]. simpl JS.insert.
  destruct (JS.gt0 (cmp x y)) eqn:E; [|reflexivity].
  simpl in *. rewrite IH.
  destruct (p x) eqn:Hx, (p y) eqn:Hy; try reflexivity.
  rewrite p_tied in E by assumption. discriminate.
Qed.

Lemma sort_filter l : List.filter p (JS.sort cmp l) = List.filter p l.
Proof.
  induction l as [|x l IH]; [reflexivity|]. simpl JS.sort.
  rewrite insert_filter. simpl. now rewrite IH.
Qed.

Lemma find_filter (l : list A) : List.find p l = List.hd_error (List.filter p l).
Proof.
  induction l as [|x l IH]; [reflexivity|]. simpl. now destruct (p x).
Qed.

Lemma sort_find l : List.find p (JS.sort cmp l) = List.find p l.
Proof. now rewrite !find_filter, sort_filter. Qed.

End Stable.

(** Order: on a domain where the comparator follows a numeric key, the
    result is ascending. *)
Section Ordered.

Variables (key : A -> Z) (dom : A -> Prop).
Hypothesis cmp_key : forall a b, dom a -> dom b -> JS.gt0 (cmp a b) = (key b <? key a).

Lemma insert_ascending x l :
  dom x -> Forall dom l -> ascending key l -> ascending key (JS.insert cmp x l).
Proof.
  intros Hx Hl Hs. revert Hl. induction Hs as [|y l Hs IH Hy]; intros Hl; simpl.
  - repeat constructor.
  - inversion Hl as [|? ? Hdy Hdl]; subst.
    rewrite cmp_key by assumption.
    destruct (key y <? key x) eqn:E.
    + apply Z.ltb_lt in E. constructor; [exact (IH Hdl)|].
      apply List.Forall_forall. intros z Hz.
      apply (Permutation_in _ (insert_perm x l)) in Hz as [<- | Hz]; [lia|].
      rewrite List.Forall_forall in Hy. now apply Hy.
    + apply Z.ltb_ge in E. constructor; [now constructor|].
      constructor; [exact E|].
      apply List.Forall_forall. intros z Hz.
      rewrite List.Forall_forall in Hy. specialize (Hy z Hz). lia.
Qed.

Lemma sort_dom l : Forall dom l -> Forall dom (JS.sort cmp l).
Proof.
  intros H. apply List.Forall_forall. intros x Hx.
  rewrite List.Forall_forall in H. exact (H x (proj1 (sort_In l x) Hx)).
Qed.

Lemma sort_ascending l : Forall dom l -> ascending key (JS.sort cmp l).
Proof.
  induction l as [|x l IH]; intros Hl; simpl; [constructor|].
  inversion Hl; subst. apply insert_ascending; auto using sort_dom.
Qed.

End Ordered.

End Sort.

(** ** Clamping a month to the options *)

Section Clamp.

Lemma find_split {A} (p : A -> bool) l x :
  List.find p l = Some x ->
  exists l1 l2, l = l1 ++ x :: l2 /\ p x = true /\ forall y, In y l1 -> p y = false.
Proof.
  induction l as [|a l IH]; [discriminate|]. simpl.
  destruct (p a) eqn:E.
  - intros [= ->]. exists [], l. repeat split; auto. intros y [].
  - intros (l1 & l2 & -> & Hx & Hl1)%IH. exists (a :: l1), l2.
    repeat split; auto. intros y [<- | Hy]; auto.
Qed.

Lemma includes_In xs x : JS.includes xs x = true <-> In x xs.
Proof.
  unfold JS.includes. rewrite List.existsb_exists. split.
  - intros (y & Hy & ->%String.eqb_eq). exact Hy.
  - intros H. exists x. split; [exact H | apply String.eqb_refl].
Qed.

Lemma ascending_before {A} (key : A -> Z) l x l' y :
  ascending key (l ++ x :: l') -> In y l -> key y <= key x.
Proof.
  induction l as [|a l IH]; simpl; [tauto|].
  intros Hs [<- | Hy]; inversion Hs as [|? ? Hs' Ha]; subst.
  - rewrite List.Forall_forall in Ha. apply Ha, List.in_elt.
  - now apply IH.
Qed.

Lemma monthKeyLe_index a b :
  comparable a -> comparable b -> monthKeyLe a b <-> monthIndex a <= monthIndex b.
Proof.
  intros Ha Hb. unfold monthKeyLe. rewrite le0_compare by assumption.
  apply Z.leb_le.
Qed.

Lemma regexes_comparable options :
  forallb monthKeyRegex options = true -> Forall comparable options.
Proof.
  rewrite forallb_forall. intros H. apply List.Forall_forall.
  intros o Ho. apply regex_comparable. now apply H.
Qed.

Lemma sorted_options_ascending options :
  forallb monthKeyRegex options = true ->
  ascending monthIndex (JS.sort compareMonthKey options).
Proof.
  intros H. apply (sort_ascending compareMonthKey monthIndex comparable).
  - intros a b. apply gt0_compare.
  - now apply regexes_comparable.
Qed.

Lemma clamp_unfold target options :
  options <> [] ->
  clampMonthKeyToOptions target options
  = if JS.includes options target then target
    else
      match List.find (fun o => JS.le0 (compareMonthKey o target))
              (List.rev (JS.sort compareMonthKey options)) with
      | Some o => o
      | None => match JS.sort compareMonthKey options with o :: _ => o | [] => target end
      end.
Proof. destruct options; [congruence | reflexivity]. Qed.

(** The result is the target when there is no option, and an option
    otherwise (the target itself when it is one). *)
Lemma clamp_In target options :
  options <> [] -> In (clampMonthKeyToOptions target options) options.
Proof.
  intros Hne. rewrite clamp_unfold by exact Hne.
  destruct (JS.includes options target) eqn:Ei; [now apply includes_In|].
  destruct (List.find _ _) as [o|] eqn:Ef.
  - apply List.find_some in Ef as [Hin _].
    apply List.in_rev in Hin. exact (proj1 (sort_In compareMonthKey _ _) Hin).
  - destruct (JS.sort compareMonthKey options) as [|h t] eqn:Es.
    + apply sort_nil_inv in Es. congruence.
    + apply (proj1 (sort_In compareMonthKey options h)). rewrite Es. now left.
Qed.

Lemma clamp_member target options :
  In target options -> clampMonthKeyToOptions target options = target.
Proof.
  intros Hin. unfold clampMonthKeyToOptions.
  destruct options as [|o0 os] eqn:Eo; [reflexivity|]. rewrite <- Eo in *.
  apply includes_In in Hin. now rewrite Hin.
Qed.

Lemma monthKeyLe_refl a : comparable a -> monthKeyLe a a.
Proof. intros Ha. apply monthKeyLe_index; auto. lia. Qed.

Lemma clamp_extremal target options :
  monthKeyRegex target = true -> forallb monthKeyRegex options = true ->
  options <> [] ->
  let r := clampMonthKeyToOptions target options in
  ((exists o, In o options /\ monthKeyLe o target) ->
     monthKeyLe r target
     /\ forall o, In o options -> monthKeyLe o target -> monthKeyLe o r)
  /\ ((forall o, In o options -> ~ monthKeyLe o target) ->
     forall o, In o options -> monthKeyLe r o).
Proof.
  intros Ht Ho Hne r.
  pose proof (regex_comparable _ Ht) as Hct.
  pose proof (regexes_comparable _ Ho) as Hco. rewrite List.Forall_forall in Hco.
  pose proof (clamp_In target options Hne) as Hr. fold r in Hr.
  pose proof (sorted_options_ascending _ Ho) as Hs.
  subst r. rewrite clamp_unfold in * by exact Hne.
  destruct (JS.includes options target) eqn:Ei.
  { apply includes_In in Ei. split.
    - intros _. split; [now apply monthKeyLe_refl | auto].
    - intros Hnone. exfalso. apply (Hnone target Ei). now apply monthKeyLe_refl. }
  destruct (List.find _ _) as [x|] eqn:Ef.
  - apply find_split in Ef as (l1 & l2 & El & Hx & Hl1).
    assert (JS.sort compareMonthKey options = List.rev l2 ++ x :: List.rev l1) as Es.
    { rewrite <- (List.rev_involutive (JS.sort _ _)), El, List.rev_app_distr. simpl.
      now rewrite <- List.app_assoc. }
    rewrite Es in Hs. split.
    + intros _. split; [exact Hx|]. intros o Hin Hle.
      apply monthKeyLe_index; auto.
      assert (In o (l1 ++ x :: l2)) as Hin'.
      { rewrite <- El. apply List.in_rev. rewrite List.rev_involutive.
        exact (proj2 (sort_In compareMonthKey _ _) Hin). }
      apply List.in_app_or in Hin' as [H1 | [<- | H2]].
      * apply Hl1 in H1. unfold monthKeyLe in Hle. congruence.
      * lia.
      * apply (ascending_before monthIndex _ _ _ _ Hs). now apply List.in_rev in H2.
    + intros Hnone. exfalso. apply (Hnone x Hr Hx).
  - split.
    + intros (o & Hin & Hle). exfalso.
      assert (In o (List.rev (JS.sort compareMonthKey options))) as Hin'.
      { apply List.in_rev. rewrite List.rev_involutive.
        exact (proj2 (sort_In compareMonthKey _ _) Hin). }
      pose proof (List.find_none _ _ Ef o Hin') as Hf. simpl in Hf.
      unfold monthKeyLe in Hle. congruence.
    + intros _ o Hin.
      destruct (JS.sort compareMonthKey options) as [|h t] eqn:Es.
      { apply sort_nil_inv in Es. congruence. }
      apply monthKeyLe_index; auto.
      assert (In o (h :: t)) as [<- | Hin'].
      { rewrite <- Es. exact (proj2 (sort_In compareMonthKey _ _) Hin). }
      * lia.
      * inversion Hs as [|? ? _ Hh]; subst.
        rewrite List.Forall_forall in Hh. now apply Hh.
Qed.

(** The order of the keys is the order of their years, then months. *)
Lemma monthKeyLe_numbers a b ma ya mb yb :
  monthNumbers a = Some (ma, ya) -> monthNumbers b = Some (mb, yb) ->
  monthKeyLe a b <-> ya < yb \/ (ya = yb /\ ma <= mb).
Proof.
  intros Ha Hb. unfold monthKeyLe.
  rewrite (compareMonthKey_numbers _ _ _ _ _ _ Ha Hb). simpl.
  destruct (ya =? yb) eqn:E; [apply Z.eqb_eq in E | apply Z.eqb_neq in E];
    rewrite Z.leb_le; lia.
Qed.

End Clamp.

(** C5.  For a target and options of the shape MM/YYYY, the order being
    by year, then month: with no option the target is returned; a target
    that is an option is returned; in every case the result is the
    greatest option not after the target if there is one, and the smallest
    option if every option is after the target. *)
Theorem clampMonthKeyToOptions_spec (target : string) (options : list string) :
  monthKeyRegex target = true -> forallb monthKeyRegex options = true ->
  let r := clampMonthKeyToOptions target options in
  (options = [] -> r = target)
  /\ (In target options -> r = target)
  /\ (options <> [] -> In r options)
  /\ ((exists o, In o options /\ monthKeyLe o target) ->
        monthKeyLe r target
        /\ forall o, In o options -> monthKeyLe o target -> monthKeyLe o r)
  /\ ((forall o, In o options -> ~ monthKeyLe o target) ->
        forall o, In o options -> monthKeyLe r o)
  /\ (forall a b ma ya mb yb,
        monthNumbers a = Some (ma, ya) -> monthNumbers b = Some (mb, yb) ->
        monthKeyLe a b <-> ya < yb \/ (ya = yb /\ ma <= mb))
  /\ clampMonthKeyToOptions "03/2023" ["01/2023"; "06/2023"; "01/2024"] = "01/2023"
  /\ clampMonthKeyToOptions "12/2022" ["01/2023"; "06/2023"; "01/2024"] = "01/2023".
Proof.
  intros Ht Ho r. repeat apply conj.
  - intros ->. reflexivity.
  - apply clamp_member.
  - apply clamp_In.
  - intros Hex.
    destruct options as [|o0 os]; [destruct Hex as (o & [] & _)|].
    now apply (clamp_extremal target (o0 :: os)).
  - intros Hall o Hin.
    destruct options as [|o0 os]; [destruct Hin|].
    now apply (clamp_extremal target (o0 :: os)).
  - apply monthKeyLe_numbers.
  - reflexivity.
  - reflexivity.
Qed.

Lemma clampMonthKeyToOptions_spec_witness :
  clampMonthKeyToOptions "03/2023" ["06/2023"; "01/2024"; "01/2023"] = "01/2023"
  /\ monthKeyLe "01/2023" "03/2023"
  /\ In (clampMonthKeyToOptions "12/2022" ["06/2023"; "01/2024"; "01/2023"])
        ["06/2023"; "01/2024"; "01/2023"].
Proof.
  pose proof (clampMonthKeyToOptions_spec "03/2023" ["06/2023"; "01/2024"; "01/2023"]
                eq_refl eq_refl) as H.
  pose proof (clampMonthKeyToOptions_spec "12/2022" ["06/2023"; "01/2024"; "01/2023"]
                eq_refl eq_refl) as H'.
  split; [reflexivity|]. split; [reflexivity|].
  apply H'. discriminate.
Defined.

(** ** Shifting a month back *)

Section MinusMonths.

Lemma minusMonths_loop_rel n m y :
  1 <= m <= 12 ->
  exists m' y',
    minusMonths_loop n (JS.IInt m) (JS.IInt y) = (JS.IInt m', JS.IInt y')
    /\ 1 <= m' <= 12 /\ 12 * y' + m' = 12 * y + m - Z.of_nat n.
Proof.
  revert m y. induction n as [|n IH]; intros m y Hm.
  - exists m, y. simpl. repeat split; lia.
  - cbn [minusMonths_loop JS.isub JS.le0].
    destruct (m - 1 <=? 0) eqn:E; [apply Z.leb_le in E | apply Z.leb_gt in E].
    + destruct (IH 12 (y - 1)) as (m' & y' & -> & Hm' & Hy'); [lia|].
      exists m', y'. repeat split; lia.
    + destruct (IH (m - 1) y) as (m' & y' & -> & Hm' & Hy'); [lia|].
      exists m', y'. repeat split; lia.
Qed.

Lemma minusMonths_loop_spec n m y :
  1 <= m <= 12 ->
  let t := 12 * y + (m - 1) - Z.of_nat n in
  minusMonths_loop n (JS.IInt m) (JS.IInt y) = (JS.IInt (t mod 12 + 1), JS.IInt (t / 12)).
Proof.
  intros Hm t.
  destruct (minusMonths_loop_rel n m y Hm) as (m' & y' & -> & Hm' & Hy').
  assert (t = 12 * y' + (m' - 1)) as Et by (subst t; lia).
  rewrite <- (Z.div_unique_pos t 12 y' (m' - 1)) by lia.
  rewrite <- (Z.mod_unique_pos t 12 y' (m' - 1)) by lia.
  f_equal. f_equal. lia.
Qed.

Lemma fourDigits_range y : 1000 <= y <= 9999 -> fourDigits y = true.
Proof.
  intros Hy.
  assert (forallb (fun k => fourDigits (Z.of_nat k))
            (List.seq (Z.to_nat 1000) (Z.to_nat 9000)) = true) as H
    by (vm_compute; reflexivity).
  rewrite forallb_forall in H. specialize (H (Z.to_nat y)).
  rewrite Z2Nat.id in H by lia. apply H, List.in_seq. lia.
Qed.

Lemma twoDigits_range m : 1 <= m <= 12 -> twoDigits m = true.
Proof.
  intros Hm.
  assert (forallb (fun k => twoDigits (Z.of_nat k))
            (List.seq (Z.to_nat 1) (Z.to_nat 12)) = true) as H
    by (vm_compute; reflexivity).
  rewrite forallb_forall in H. specialize (H (Z.to_nat m)).
  rewrite Z2Nat.id in H by lia. apply H, List.in_seq. lia.
Qed.

Lemma monthNumbers_shape a b d e f g :
  JS.is_digit a = true -> JS.is_digit b = true -> JS.is_digit d = true ->
  JS.is_digit e = true -> JS.is_digit f = true -> JS.is_digit g = true ->
  monthNumbers (String a (String b "") +:+ "/" +:+ String d (String e (String f (String g ""))))
  = Some (JS.digitsValue 0 (String a (String b "")),
          JS.digitsValue 0 (String d (String e (String f (String g ""))))).
Proof.
  intros Ha Hb Hd He Hf Hg.
  unfold monthNumbers, monthParts. cbn [String.append JS.splitOn].
  rewrite (digit_not_slash a), (digit_not_slash b) by assumption.
  change (Ascii.eqb "/" JS.slash) with true. cbv iota.
  rewrite (digit_not_slash d), (digit_not_slash e), (digit_not_slash f),
    (digit_not_slash g) by assumption.
  cbn [List.map List.nth].
  rewrite !Number_int_digits
    by (try discriminate; simpl; rewrite ?Ha, ?Hb, ?Hd, ?He, ?Hf, ?Hg; reflexivity).
  reflexivity.
Qed.

Lemma printed_key_wellFormed m y :
  1 <= m <= 12 -> 1000 <= y <= 9999 ->
  wellFormedMonthKey (monthText m +:+ "/" +:+ yearText y) = true
  /\ monthNumbers (monthText m +:+ "/" +:+ yearText y) = Some (m, y).
Proof.
  intros Hm Hy.
  pose proof (twoDigits_range m Hm) as H2. pose proof (fourDigits_range y Hy) as H4.
  unfold twoDigits in H2. unfold fourDigits in H4.
  destruct (monthText m) as [|a [|b [|? ?]]]; try discriminate.
  destruct (yearText y) as [|d [|e [|f [|g [|? ?]]]]]; try discriminate.
  apply andb_prop in H2 as [[Ha Hb]%andb_prop Em].
  apply andb_prop in H4 as [[[[Hd He]%andb_prop Hf]%andb_prop Hg]%andb_prop Ey].
  apply Z.eqb_eq in Em, Ey.
  pose proof (monthNumbers_shape a b d e f g Ha Hb Hd He Hf Hg) as Hn.
  rewrite Em, Ey in Hn. split; [|exact Hn].
  unfold wellFormedMonthKey.
  unfold monthNumbers in Hn.
  destruct (monthParts _) as [[| |m'] [| |y']]; try discriminate.
  injection Hn as -> ->.
  cbn [String.append monthKeyRegex fst]. rewrite Ha, Hb, Hd, He, Hf, Hg. simpl.
  apply andb_true_intro; split; [apply Z.leb_le | apply Z.leb_le]; lia.
Qed.

Lemma wellFormed_numbers key :
  wellFormedMonthKey key = true ->
  exists m y, monthNumbers key = Some (m, y) /\ 1 <= m <= 12 /\ 0 <= y <= 9999.
Proof.
  unfold wellFormedMonthKey. intros [Hr Hm]%andb_prop.
  destruct (monthParts_regex key Hr) as (m & y & Hn & _ & Hy).
  exists m, y. split; [exact Hn|]. split; [|exact Hy].
  unfold monthNumbers in Hn.
  destruct (monthParts key) as [[| |m'] [| |y']]; try discriminate.
  injection Hn as -> ->. simpl in Hm. apply andb_prop in Hm as [H1 H2].
  apply Z.leb_le in H1, H2. lia.
Qed.

Lemma minusMonths_numbers key n m y :
  monthNumbers key = Some (m, y) -> 1 <= m <= 12 ->
  let t := 12 * y + (m - 1) - Z.of_nat n in
  minusMonths key n = monthText (t mod 12 + 1) +:+ "/" +:+ yearText (t / 12).
Proof.
  intros Hn Hm t. unfold minusMonths, monthNumbers in *.
  destruct (monthParts key) as [[| |m'] [| |y']]; try discriminate.
  injection Hn as -> ->.
  rewrite (minusMonths_loop_spec n m y Hm). reflexivity.
Qed.

End MinusMonths.

(** C9, amended.  From a well-formed key of month [m] and year [y], and
    for a number of months [n] of at most 2^53 (up to which the counter of
    the loop, a binary64 number, counts down exactly), [minusMonths] goes
    back exactly [n] months: it prints the month [t mod 12 + 1], between 1
    and 12 and padded to two digits, a slash and the year [t / 12], where
    [t = 12 y + (m - 1) - n].  The year is printed as it is, without
    padding: the result is a well-formed key, and reads back as that month
    and year, when the year reached is at least 1000. *)
Theorem minusMonths_spec (key : string) (n : nat) (m y : Z) :
  wellFormedMonthKey key = true -> monthNumbers key = Some (m, y) ->
  Z.of_nat n <= 2 ^ 53 ->
  let t := 12 * y + (m - 1) - Z.of_nat n in
  minusMonths key n = monthText (t mod 12 + 1) +:+ "/" +:+ yearText (t / 12)
  /\ 1 <= t mod 12 + 1 <= 12
  /\ 12 * (t / 12) + (t mod 12 + 1) = 12 * y + m - Z.of_nat n
  /\ twoDigits (t mod 12 + 1) = true
  /\ (1000 <= t / 12 ->
        wellFormedMonthKey (minusMonths key n) = true
        /\ monthNumbers (minusMonths key n) = Some (t mod 12 + 1, t / 12))
  /\ minusMonths "03/2024" 12 = "03/2023"
  /\ minusMonths "02/2024" 2 = "12/2023"
  /\ minusMonths "11/2024" 35 = "12/2021".
Proof.
  intros Hwf Hn _ t.
  destruct (wellFormed_numbers key Hwf) as (m' & y' & Hn' & Hm & Hy).
  rewrite Hn in Hn'. injection Hn' as <- <-.
  pose proof (Z.mod_pos_bound t 12 ltac:(lia)) as Hmod.
  pose proof (Z.div_mod t 12 ltac:(lia)) as Hdiv.
  assert (minusMonths key n = monthText (t mod 12 + 1) +:+ "/" +:+ yearText (t / 12)) as E
    by now apply minusMonths_numbers.
  repeat apply conj; try reflexivity.
  - exact E.
  - lia.
  - lia.
  - subst t. lia.
  - apply twoDigits_range. lia.
  - intros Ht. rewrite E. apply printed_key_wellFormed; [lia|].
    split; [exact Ht|].
    assert (t / 12 < y + 1); [|lia].
    apply Z.div_lt_upper_bound; subst t; lia.
Qed.

Lemma minusMonths_spec_witness :
  minusMonths "02/2024" 14 = "12/2022" /\ wellFormedMonthKey (minusMonths "02/2024" 14) = true.
Proof.
  assert (Hb : Z.of_nat 14 <= 2 ^ 53) by (vm_compute; discriminate).
  pose proof (minusMonths_spec "02/2024" 14 2 2024 eq_refl eq_refl Hb) as H.
  cbv zeta in H. split; [apply H | apply H; vm_compute; discriminate].
Defined.

(** C9 as stated fails: one month before 01/1000 the year is printed
    with three digits, and the result is not a MonthKey. *)
Lemma minusMonths_year_not_padded :
  wellFormedMonthKey "01/1000" = true
  /\ minusMonths "01/1000" 1 = "12/999"
  /\ wellFormedMonthKey (minusMonths "01/1000" 1) = false
  /\ monthKeyRegex (minusMonths "03/2024" (Z.to_nat 12300)) = false.
Proof. repeat split; vm_compute; reflexivity. Qed.

(** ** Loading the history *)

Section History.

Lemma parseRows_spec header monthIdx rows parsed :
  parseRows header monthIdx rows parsed
  = parsed ++ List.map (toMonthRow header monthIdx) (List.filter (keptRow monthIdx) rows).
Proof.
  revert parsed. induction rows as [|row rows IH]; intros parsed; simpl.
  - now rewrite app_nil_r.
  - unfold keptRow at 1. destruct (monthKeyRegex (rowMonth monthIdx row)); rewrite IH.
    + simpl. now rewrite <- app_assoc.
    + reflexivity.
Qed.

Lemma parsedRows_inv text parsed :
  parsedRows text = Some parsed ->
  exists monthIdx,
    JS.findIndex isMonthHeader (header (parseCSVSimple text)) = Some monthIdx
    /\ header (parseCSVSimple text) <> [] /\ rows (parseCSVSimple text) <> []
    /\ parsed = List.map (toMonthRow (header (parseCSVSimple text)) monthIdx)
                  (List.filter (keptRow monthIdx) (rows (parseCSVSimple text))).
Proof.
  unfold parsedRows.
  destruct (header (parseCSVSimple text)) as [|h0 hs] eqn:Eh; [discriminate|].
  destruct (rows (parseCSVSimple text)) as [|r0 rs] eqn:Er; [discriminate|].
  destruct (JS.findIndex isMonthHeader (h0 :: hs)) as [idx|] eqn:Ei; [|discriminate].
  intros E. injection E as <-. exists idx.
  split; [reflexivity|]. split; [discriminate|]. split; [discriminate|].
  exact (parseRows_spec (h0 :: hs) idx (r0 :: rs) []).
Qed.

Lemma loadHistory_inv text h :
  loadHistory text = Some h ->
  exists parsed, parsedRows text = Some parsed /\ h = JS.sort compareRows parsed.
Proof.
  unfold loadHistory. destruct (parsedRows text) as [parsed|]; [|discriminate].
  intros [= <-]. now exists parsed.
Qed.

Lemma parsedRows_regex text parsed :
  parsedRows text = Some parsed -> Forall (fun r => monthKeyRegex (month r) = true) parsed.
Proof.
  intros (idx & _ & _ & _ & ->)%parsedRows_inv.
  apply List.Forall_forall. intros r (row & <- & Hrow)%List.in_map_iff.
  now apply List.filter_In in Hrow as [_ Hk].
Qed.

Lemma loadHistory_regex text h :
  loadHistory text = Some h -> Forall (fun r => monthKeyRegex (month r) = true) h.
Proof.
  intros (parsed & Hp & ->)%loadHistory_inv.
  apply parsedRows_regex in Hp. rewrite List.Forall_forall in *.
  intros r Hr. apply Hp. exact (proj1 (sort_In compareRows _ _) Hr).
Qed.

Lemma loadHistory_ascending text h :
  loadHistory text = Some h -> ascending (fun r => monthIndex (month r)) h.
Proof.
  intros (parsed & Hp & ->)%loadHistory_inv.
  apply (sort_ascending compareRows _ (fun r => comparable (month r))).
  - intros a b Ha Hb. now apply gt0_compare.
  - apply parsedRows_regex in Hp. rewrite List.Forall_forall in *.
    intros r Hr. apply regex_comparable. now apply Hp.
Qed.

Lemma filter_month_sorted m parsed :
  List.filter (fun r => String.eqb (month r) m) (JS.sort compareRows parsed)
  = List.filter (fun r => String.eqb (month r) m) parsed.
Proof.
  apply sort_filter. intros a b Ha%String.eqb_eq Hb%String.eqb_eq.
  unfold compareRows. rewrite Ha, Hb. apply gt0_compare_same.
Qed.

Lemma firstWithMonth_sorted m parsed :
  firstWithMonth m (JS.sort compareRows parsed) = firstWithMonth m parsed.
Proof.
  unfold firstWithMonth. rewrite !find_filter. now rewrite filter_month_sorted.
Qed.

Lemma regex_nonempty m : monthKeyRegex m = true -> JS.is_empty m = false.
Proof. destruct m; [discriminate | reflexivity]. Qed.

Lemma filterTruthy_regex ms :
  Forall (fun m => monthKeyRegex m = true) ms -> JS.filterTruthy ms = ms.
Proof.
  induction 1 as [|m ms Hm _ IH]; [reflexivity|].
  unfold JS.filterTruthy in *. simpl. rewrite (regex_nonempty _ Hm). simpl. now rewrite IH.
Qed.

Lemma monthOptions_In text h m :
  loadHistory text = Some h -> In m (monthOptions h) <-> In m (List.map month h).
Proof.
  intros Hh%loadHistory_regex. unfold monthOptions.
  rewrite filterTruthy_regex; [apply sort_In|].
  apply List.Forall_forall. intros x (r & <- & Hr)%List.in_map_iff.
  rewrite List.Forall_forall in Hh. now apply Hh.
Qed.

Lemma monthOptions_regex text h :
  loadHistory text = Some h -> forallb monthKeyRegex (monthOptions h) = true.
Proof.
  intros Hh. apply forallb_forall. intros m Hm.
  apply (monthOptions_In _ _ _ Hh) in Hm. apply List.in_map_iff in Hm as (r & <- & Hr).
  apply loadHistory_regex in Hh. rewrite List.Forall_forall in Hh. now apply Hh.
Qed.

End History.

Section HistoryOrder.

Lemma ascending_monthKeyLe h :
  Forall (fun r => monthKeyRegex (month r) = true) h ->
  ascending (fun r => monthIndex (month r)) h ->
  StronglySorted (fun a b => monthKeyLe (month a) (month b)) h.
Proof.
  intros Hr Hs. induction Hs as [|r h Hs IH Hall]; [constructor|].
  inversion Hr as [|? ? Hr0 Hrh]; subst.
  constructor; [now apply IH|].
  rewrite List.Forall_forall in *. intros x Hx.
  apply monthKeyLe_index; auto using regex_comparable.
Qed.

Lemma findRow_sorted m parsed :
  findRow (JS.sort compareRows parsed) m
  = if JS.is_empty m then None else firstWithMonth m parsed.
Proof.
  unfold findRow. destruct (JS.is_empty m); [reflexivity|].
  apply firstWithMonth_sorted.
Qed.

End HistoryOrder.

(** C2, amended.  After a successful load the history holds exactly the
    data rows whose Month value, trimmed, has the shape of two digits, a
    slash and four digits; every other row (for example one with [1/24])
    is dropped, and its month is neither in the history nor among the
    month options.  The month number is not checked against 01–12. *)
Theorem malformed_month_rows_dropped (text : string) (h : list MonthRow) :
  loadHistory text = Some h ->
  exists monthIdx,
    JS.findIndex isMonthHeader (header (parseCSVSimple text)) = Some monthIdx
    /\ Permutation h
         (List.map (toMonthRow (header (parseCSVSimple text)) monthIdx)
            (List.filter (keptRow monthIdx) (rows (parseCSVSimple text))))
    /\ (forall row,
          In row (rows (parseCSVSimple text)) ->
          monthKeyRegex (rowMonth monthIdx row) = false ->
          ~ In (rowMonth monthIdx row) (List.map month h)
          /\ ~ In (rowMonth monthIdx row) (monthOptions h))
    /\ (forall m, In m (monthOptions h) <-> In m (List.map month h))
    /\ (forall m, In m (monthOptions h) -> monthKeyRegex m = true).
Proof.
  intros Hh.
  pose proof (loadHistory_regex _ _ Hh) as Hreg. rewrite List.Forall_forall in Hreg.
  destruct (loadHistory_inv _ _ Hh) as (parsed & Hp & ->).
  destruct (parsedRows_inv _ _ Hp) as (idx & Hi & _ & _ & ->).
  assert (forall m, In m (List.map month (JS.sort compareRows
            (List.map (toMonthRow (header (parseCSVSimple text)) idx)
               (List.filter (keptRow idx) (rows (parseCSVSimple text)))))) ->
          monthKeyRegex m = true) as Hmonths.
  { intros m (r & <- & Hr)%List.in_map_iff. now apply Hreg. }
  exists idx. split; [exact Hi|]. split; [apply sort_perm|].
  split; [|split].
  - intros row _ Hbad. split.
    + intros Hin%Hmonths. congruence.
    + intros Hin%(monthOptions_In _ _ _ Hh). apply Hmonths in Hin. congruence.
  - intros m. apply (monthOptions_In _ _ _ Hh).
  - intros m Hm%(monthOptions_In _ _ _ Hh). now apply Hmonths.
Qed.

Lemma malformed_month_rows_dropped_witness :
  loadHistory shortMonthText = Some [coalRow "01/2024" 1]
  /\ ~ In "1/24" (monthOptions [coalRow "01/2024" 1]).
Proof.
  assert (loadHistory shortMonthText = Some [coalRow "01/2024" 1]) as Hh
    by (vm_compute; reflexivity).
  split; [exact Hh|].
  destruct (malformed_month_rows_dropped shortMonthText _ Hh) as (idx & _ & _ & _ & _ & Hopt).
  intros Hin%Hopt. discriminate Hin.
Defined.

(** C2 as stated fails: a row with the month [13/2024] is kept, and
    13/2024 is offered as a month option. *)
Lemma month_13_is_accepted :
  wellFormedMonthKey "13/2024" = false
  /\ option_map (List.map month) (loadHistory ("Month,Coal" +:+ NL +:+ "13/2024,5"))
     = Some ["13/2024"]
  /\ option_map monthOptions (loadHistory ("Month,Coal" +:+ NL +:+ "13/2024,5"))
     = Some ["13/2024"].
Proof. repeat split; vm_compute; reflexivity. Qed.

(** C3, amended.  After a successful load the history is the array of
    the parsed rows, sorted: it is ascending by month key, it holds every
    retained row (rows with the same month are all kept, in file order),
    and the row found for a month is the first row parsed with it. *)
Theorem history_sorted_first_wins (text : string) (h : list MonthRow) :
  loadHistory text = Some h ->
  exists parsed,
    parsedRows text = Some parsed
    /\ Permutation h parsed
    /\ StronglySorted (fun a b => monthKeyLe (month a) (month b)) h
    /\ (forall m,
          List.filter (fun r => String.eqb (month r) m) h
          = List.filter (fun r => String.eqb (month r) m) parsed)
    /\ (forall m,
          findRow h m = if JS.is_empty m then None else firstWithMonth m parsed).
Proof.
  intros Hh.
  pose proof (loadHistory_regex _ _ Hh) as Hreg.
  pose proof (loadHistory_ascending _ _ Hh) as Hasc.
  destruct (loadHistory_inv _ _ Hh) as (parsed & Hp & ->).
  exists parsed. split; [exact Hp|]. split; [apply sort_perm|].
  split; [now apply ascending_monthKeyLe|].
  split; [intros m; apply filter_month_sorted | intros m; apply findRow_sorted].
Qed.

Lemma history_sorted_first_wins_witness :
  loadHistory twiceText
  = Some [coalRow "01/2024" 1; coalRow "01/2024" 2; coalRow "06/2024" 3]
  /\ findRow [coalRow "01/2024" 1; coalRow "01/2024" 2; coalRow "06/2024" 3] "01/2024"
     = Some (coalRow "01/2024" 1).
Proof.
  assert (loadHistory twiceText
          = Some [coalRow "01/2024" 1; coalRow "01/2024" 2; coalRow "06/2024" 3]) as Hh
    by (vm_compute; reflexivity).
  split; [exact Hh|].
  destruct (history_sorted_first_wins twiceText _ Hh) as (parsed & _ & _ & _ & _ & _).
  reflexivity.
Defined.

(** C3 as stated fails: two rows with the month 01/2024 give two entries,
    and the values used for that month are those of the first row. *)
Lemma duplicate_months_kept :
  option_map (List.map month) (loadHistory twiceText)
  = Some ["01/2024"; "01/2024"; "06/2024"]
  /\ (loadHistory twiceText ≫= fun h => findRow h "01/2024" ≫= fun r => values r !! "Coal")
     = Some 1%float
  /\ ~ (exists h, loadHistory twiceText = Some h /\ NoDup (List.map month h)).
Proof.
  split; [vm_compute; reflexivity|]. split; [vm_compute; reflexivity|].
  intros (h & Hh & Hnd).
  assert (List.map month h = ["01/2024"; "01/2024"; "06/2024"]) as E.
  { assert (option_map (List.map month) (loadHistory twiceText)
            = Some ["01/2024"; "01/2024"; "06/2024"]) as H by (vm_compute; reflexivity).
    rewrite Hh in H. now injection H. }
  rewrite E in Hnd. inversion Hnd as [|? ? Hnin _]. apply Hnin. now left.
Qed.

(** ** Objects filled by a loop over the sources *)

Section FoldInsert.

Lemma fold_left_ext_eq {A B} (f g : A -> B -> A) l i :
  (forall a x, f a x = g a x) -> List.fold_left f l i = List.fold_left g l i.
Proof.
  intros H. revert i. induction l as [|x l IH]; intros i; simpl; [reflexivity|].
  now rewrite H, IH.
Qed.

Context {V : Type} (g : string -> V).

Lemma fold_insert_notin keys (init : gmap string V) s :
  ~ In s keys ->
  List.fold_left (fun out k => <[k := g k]> out) keys init !! s = init !! s.
Proof.
  revert init. induction keys as [|k keys IH]; intros init Hs; simpl; [reflexivity|].
  rewrite IH by (intros H; apply Hs; now right).
  apply lookup_insert_ne. intros ->. apply Hs. now left.
Qed.

Lemma fold_insert_in keys (init : gmap string V) s :
  In s keys ->
  List.fold_left (fun out k => <[k := g k]> out) keys init !! s = Some (g s).
Proof.
  revert init. induction keys as [|k keys IH]; intros init Hs; simpl; [destruct Hs|].
  destruct (List.in_dec string_dec s keys) as [Hin | Hnin]; [now apply IH|].
  destruct Hs as [-> | Hs]; [|contradiction].
  rewrite fold_insert_notin by exact Hnin. apply lookup_insert_eq.
Qed.

End FoldInsert.

Section Numbers.

Lemma safeNum_finite v : JS.isFinite (safeNum v) = true.
Proof.
  unfold safeNum. destruct (JS.isFinite (JS.Number v)) eqn:E; [exact E | reflexivity].
Qed.

Lemma safeNum_number x : safeNum (JS.VNumber x) = finiteOr0 x.
Proof. reflexivity. Qed.

Lemma finiteOr0_finite x : JS.isFinite x = true -> finiteOr0 x = x.
Proof. unfold finiteOr0. now intros ->. Qed.

Lemma sumSources_fold (obj : gmap string float) keys (f : string -> float) :
  (forall s, In s keys -> obj !! s = Some (f s)) ->
  sumSources obj keys
  = List.fold_left (fun acc s => (acc + finiteOr0 (f s))%float) keys 0%float.
Proof.
  unfold sumSources. generalize 0%float. induction keys as [|k keys IH]; intros acc H; simpl.
  - reflexivity.
  - rewrite IH by (intros s Hs; apply H; now right).
    unfold numProp. rewrite (H k) by now left. reflexivity.
Qed.

Lemma fold_sum_finite keys (f : string -> float) :
  (forall s, In s keys -> JS.isFinite (f s) = true) ->
  List.fold_left (fun acc s => (acc + finiteOr0 (f s))%float) keys 0%float
  = List.fold_left (fun acc s => (acc + f s)%float) keys 0%float.
Proof.
  generalize 0%float. induction keys as [|k keys IH]; intros acc H; simpl; [reflexivity|].
  rewrite IH by (intros s Hs; apply H; now right).
  rewrite finiteOr0_finite by (apply H; now left). reflexivity.
Qed.

Lemma ratedBySource_lookup installed plf s :
  In s SOURCES -> ratedBySource installed plf !! s = Some (ratedOf installed plf s).
Proof. intros Hs. unfold ratedBySource. now apply (fold_insert_in (ratedOf installed plf)). Qed.

Lemma rowValues_fold header row :
  rowValues header row
  = List.fold_left (fun out s => <[s := rowValue header row s]> out) SOURCES ∅.
Proof.
  unfold rowValues. apply fold_left_ext_eq. intros out s. unfold rowValue.
  now destruct (JS.findIndex _ header).
Qed.

Lemma rowValues_lookup header row s :
  In s SOURCES -> rowValues header row !! s = Some (rowValue header row s).
Proof. intros Hs. rewrite rowValues_fold. now apply (fold_insert_in (rowValue header row)). Qed.

Lemma rowValue_finite header row s : JS.isFinite (rowValue header row s) = true.
Proof.
  unfold rowValue. destruct (JS.findIndex _ header); [apply safeNum_finite | reflexivity].
Qed.

End Numbers.

(** C1, amended.  For every source the rated capacity is
    [round2(installed × (plf / 100))], computed in that order in binary64
    on the inputs with a non-finite or missing one counted as 0.  The
    total is the sum over the sources, in display order, of the rated
    values with a non-finite one counted as 0; it is the plain sum of the
    rated values when they are all finite.  Installed 100 at PLF 85 gives
    85. *)
Theorem ratedCapacity_spec (installed plf : gmap string float) :
  (forall s, In s SOURCES ->
     ratedBySource installed plf !! s
     = Some (round2 (safeNum (numProp installed s) * (safeNum (numProp plf s) / 100))%float))
  /\ (forall v, JS.isFinite (safeNum v) = true)
  /\ ratedTotal installed plf
     = List.fold_left (fun acc s => (acc + finiteOr0 (ratedOf installed plf s))%float)
         SOURCES 0%float
  /\ ((forall s, In s SOURCES -> JS.isFinite (ratedOf installed plf s) = true) ->
      ratedTotal installed plf
      = List.fold_left (fun acc s => (acc + ratedOf installed plf s)%float) SOURCES 0%float)
  /\ ratedBySource (<["Coal" := 100%float]> zeroCaps) (<["Coal" := 85%float]> zeroCaps) !! "Coal"
     = Some 85%float
  /\ ratedTotal (<["Coal" := 100%float]> zeroCaps) (<["Coal" := 85%float]> zeroCaps) = 85%float.
Proof.
  assert (ratedTotal installed plf
          = List.fold_left (fun acc s => (acc + finiteOr0 (ratedOf installed plf s))%float)
              SOURCES 0%float) as Htotal.
  { unfold ratedTotal. apply sumSources_fold. intros s Hs. now apply ratedBySource_lookup. }
  repeat apply conj.
  - intros s Hs. now apply ratedBySource_lookup.
  - apply safeNum_finite.
  - exact Htotal.
  - intros Hfin. rewrite Htotal. now apply fold_sum_finite.
  - vm_compute. reflexivity.
  - vm_compute. reflexivity.
Qed.

(** C1 as stated fails.  With 1.5 installed at PLF 15 the code rounds
    1.5 × 0.15, which is below 0.225 in binary64, to 0.22, while
    [round2(1.5 * 15 / 100)] is 0.23.  With 1e307 installed at PLF 100 the
    rated value of Coal is infinite and the total, which skips it, is 0. *)
Lemma rated_differs_from_stated_formula :
  ratedBySource (<["Coal" := 1.5%float]> zeroCaps) (<["Coal" := 15%float]> zeroCaps) !! "Coal"
  = Some (typed "0.22")
  /\ round2 (1.5 * 15 / 100)%float = typed "0.23"
  /\ ratedBySource (<["Coal" := 1.5%float]> zeroCaps) (<["Coal" := 15%float]> zeroCaps) !! "Coal"
     <> Some (round2 (1.5 * 15 / 100)%float)
  /\ ratedBySource (<["Coal" := typed "1e307"]> zeroCaps) (<["Coal" := 100%float]> zeroCaps) !! "Coal"
     = Some infinity
  /\ ratedTotal (<["Coal" := typed "1e307"]> zeroCaps) (<["Coal" := 100%float]> zeroCaps)
     = 0%float
  /\ List.fold_left
       (fun acc s =>
          (acc + ratedOf (<["Coal" := typed "1e307"]> zeroCaps)
                   (<["Coal" := 100%float]> zeroCaps) s)%float)
       SOURCES 0%float
     = infinity.
Proof.
  repeat apply conj; try (vm_compute; reflexivity).
  vm_compute. intros H. discriminate H.
Qed.

(** ** Net additions *)

Section NetAdditions.

Lemma netAdditions_per st en s :
  In s SOURCES -> per (netAdditions st en) !! s = Some (netOf st en s).
Proof.
  intros Hs. unfold netAdditions. cbn [per].
  rewrite (fold_left_ext_eq _ (fun out k => <[k := netOf st en k]> out)).
  - now apply (fold_insert_in (netOf st en)).
  - intros out k. unfold netOf.
    destruct (st ≫= _) as [a|]; [|reflexivity].
    now destruct (en ≫= _).
Qed.

(** Every row of a loaded history has a finite value for every source. *)
Lemma loadHistory_values text h r s :
  loadHistory text = Some h -> In r h -> In s SOURCES ->
  exists v, values r !! s = Some v /\ JS.isFinite v = true.
Proof.
  intros (parsed & Hp & ->)%loadHistory_inv Hr Hs.
  apply (proj1 (sort_In compareRows _ _)) in Hr.
  destruct (parsedRows_inv _ _ Hp) as (idx & _ & _ & _ & ->).
  apply List.in_map_iff in Hr as (row & <- & _).
  exists (rowValue (header (parseCSVSimple text)) row s).
  split; [now apply rowValues_lookup | apply rowValue_finite].
Qed.

Lemma sumSources_plain text h r :
  loadHistory text = Some h -> In r h -> sumSources (values r) SOURCES = plainSum (values r).
Proof.
  intros Hh Hr. unfold plainSum.
  rewrite (sumSources_fold _ _ (fun s => default 0%float (values r !! s))).
  - apply fold_sum_finite. intros s Hs.
    destruct (loadHistory_values _ _ _ _ Hh Hr Hs) as (v & -> & Hv). exact Hv.
  - intros s Hs. destruct (loadHistory_values _ _ _ _ Hh Hr Hs) as (v & -> & _). reflexivity.
Qed.

Lemma findRow_In h m r : findRow h m = Some r -> In r h.
Proof.
  unfold findRow. destruct (JS.is_empty m); [discriminate|].
  intros H. now apply List.find_some in H.
Qed.

End NetAdditions.

(** C8.  On a loaded history: when the rows of the start month and of the
    end month are both found, the net addition of every source is
    [round2(end value − start value)] and the total is [round2] of the
    sum of the end values minus the sum of the start values; when one of
    the rows is missing, every net addition and the total are 0.  Here
    [round2] rounds to two decimals, a tie going up: from 0.1 to 0.3 the
    net addition is 0.2 where the difference in binary64 is
    0.19999999999999998, a difference of 0.125 gives 0.13 and one of
    −0.125 gives −0.12. *)
Theorem netAdditions_spec (text : string) (h : list MonthRow) (startM endM : string) :
  loadHistory text = Some h ->
  let net := netAdditions (rowTotals (findRow h startM)) (rowTotals (findRow h endM)) in
  (forall rs re,
      findRow h startM = Some rs -> findRow h endM = Some re ->
      (forall s, In s SOURCES ->
         exists a b, values rs !! s = Some a /\ values re !! s = Some b
                     /\ per net !! s = Some (round2 (b - a)%float))
      /\ total net = round2 (plainSum (values re) - plainSum (values rs))%float)
  /\ (findRow h startM = None \/ findRow h endM = None ->
      (forall s, In s SOURCES -> per net !! s = Some 0%float) /\ total net = 0%float)
  /\ round2 (typed "0.3" - typed "0.1") = typed "0.2"
  /\ (typed "0.3" - typed "0.1")%float = typed "0.19999999999999998"
  /\ (typed "0.3" - typed "0.1")%float <> typed "0.2"
  /\ round2 (0.375 - 0.25) = typed "0.13"
  /\ round2 (0.25 - 0.375) = typed "-0.12"
  /\ round2 (typed "2.675" - 0) = typed "2.68"
  /\ round2 (typed "1234.5678" - typed "0.0001") = typed "1234.57".
Proof.
  intros Hh net. split; [|split; [|repeat split; vm_compute; (reflexivity || discriminate)]].
  - intros rs re Hrs Hre.
    pose proof (findRow_In _ _ _ Hrs) as Hins. pose proof (findRow_In _ _ _ Hre) as Hine.
    split.
    + intros s Hs.
      destruct (loadHistory_values _ _ _ _ Hh Hins Hs) as (a & Ha & _).
      destruct (loadHistory_values _ _ _ _ Hh Hine Hs) as (b & Hb & _).
      exists a, b. split; [exact Ha|]. split; [exact Hb|].
      subst net. rewrite netAdditions_per by exact Hs.
      unfold netOf. rewrite Hrs, Hre. simpl. now rewrite Ha, Hb.
    + subst net. rewrite Hrs, Hre. simpl.
      now rewrite (sumSources_plain _ _ _ Hh Hins), (sumSources_plain _ _ _ Hh Hine).
  - intros Hnone. split.
    + intros s Hs. subst net. rewrite netAdditions_per by exact Hs. unfold netOf.
      destruct Hnone as [-> | ->]; simpl; [reflexivity|].
      now destruct (rowTotals (findRow h startM) ≫= _).
    + subst net. destruct Hnone as [-> | ->]; simpl; [reflexivity|].
      now destruct (rowTotals (findRow h startM)).
Qed.

(** From 01/2023 to 01/2024 in a history whose differences are not
    multiples of 0.01: Coal 0.1 to 0.3, Solar 0.375 to 0.25, Wind 0.25 to
    0.375. *)
Lemma netAdditions_spec_witness :
  per (netAdditions
         (rowTotals (findRow (default [] (loadHistory roundingText)) "01/2023"))
         (rowTotals (findRow (default [] (loadHistory roundingText)) "01/2024"))) !! "Coal"
  = Some (typed "0.2")
  /\ per (netAdditions
         (rowTotals (findRow (default [] (loadHistory roundingText)) "01/2023"))
         (rowTotals (findRow (default [] (loadHistory roundingText)) "01/2024"))) !! "Solar"
     = Some (typed "-0.12")
  /\ per (netAdditions
         (rowTotals (findRow (default [] (loadHistory roundingText)) "01/2023"))
         (rowTotals (findRow (default [] (loadHistory roundingText)) "01/2024"))) !! "Wind"
     = Some (typed "0.13")
  /\ total (netAdditions
         (rowTotals (findRow (default [] (loadHistory roundingText)) "01/2023"))
         (rowTotals (findRow (default [] (loadHistory roundingText)) "01/2024")))
     = typed "0.2"
  /\ total (netAdditions
         (rowTotals (findRow (default [] (loadHistory roundingText)) "01/2023"))
         (rowTotals (findRow (default [] (loadHistory roundingText)) "02/2024")))
     = 0%float.
Proof.
  set (h := default [] (loadHistory roundingText)).
  assert (Hh : loadHistory roundingText = Some h) by (vm_compute; reflexivity).
  set (rs := {| month := "01/2023";
                values := <["Coal" := typed "0.1"]> (<["Solar" := 0.375%float]>
                            (<["Wind" := 0.25%float]> zeroCaps)) |}).
  set (re := {| month := "01/2024";
                values := <["Coal" := typed "0.3"]> (<["Solar" := 0.25%float]>
                            (<["Wind" := 0.375%float]> zeroCaps)) |}).
  assert (Hrs : findRow h "01/2023" = Some rs) by (vm_compute; reflexivity).
  assert (Hre : findRow h "01/2024" = Some re) by (vm_compute; reflexivity).
  pose proof (netAdditions_spec roundingText h "01/2023" "01/2024" Hh) as (Hboth & _).
  pose proof (netAdditions_spec roundingText h "01/2023" "02/2024" Hh) as (_ & Hnone & _).
  destruct (Hboth rs re Hrs Hre) as [Hper Htot].
  assert (Hval : forall s a b,
            In s SOURCES -> values rs !! s = Some a -> values re !! s = Some b ->
            per (netAdditions (rowTotals (findRow h "01/2023"))
                   (rowTotals (findRow h "01/2024"))) !! s = Some (round2 (b - a)%float)).
  { intros s a b Hs Ha Hb. destruct (Hper s Hs) as (a' & b' & Ha' & Hb' & Hn).
    rewrite Ha in Ha'. rewrite Hb in Hb'. injection Ha' as <-. injection Hb' as <-. exact Hn. }
  split; [|split; [|split; [|split]]].
  - rewrite (Hval "Coal" (typed "0.1") (typed "0.3")); [| simpl; tauto | reflexivity ..].
    vm_compute. reflexivity.
  - rewrite (Hval "Solar" 0.375%float 0.25%float); [| simpl; tauto | reflexivity ..].
    vm_compute. reflexivity.
  - rewrite (Hval "Wind" 0.25%float 0.375%float); [| simpl; tauto | reflexivity ..].
    vm_compute. reflexivity.
  - rewrite Htot. vm_compute. reflexivity.
  - apply Hnone. right. vm_compute. reflexivity.
Defined.

(** ** The snapshot loader *)

Section Snapshot.

Lemma snapshotLoop_spec map installed :
  snapshotLoop map installed
  = (List.fold_left (fun next s => <[s := snapshotValue map s]> next) SOURCES installed, true).
Proof.
  unfold snapshotLoop.
  assert (forall keys (next : gmap string float) (any : bool),
            keys <> [] ->
            List.fold_left
              (fun '(next, any) s =>
                 let v := safeNum (strProp map s) in
                 if JS.isFinite v then (<[s := v]> next, true) else (next, any))
              keys (next, any)
            = (List.fold_left (fun next s => <[s := snapshotValue map s]> next) keys next, true))
    as H.
  { induction keys as [|k keys IH]; intros next any Hne; [congruence|].
    cbn [List.fold_left]. cbv zeta. rewrite safeNum_finite.
    destruct keys as [|k' keys']; [reflexivity|].
    now rewrite IH by discriminate. }
  now apply H.
Qed.

Lemma headerMap_notin hs row i (map : gmap string string) s :
  ~ In s hs -> headerMap hs row i map !! s = map !! s.
Proof.
  revert i map. induction hs as [|h hs IH]; intros i map Hs; simpl; [reflexivity|].
  rewrite IH by (intros H; apply Hs; now right).
  apply lookup_insert_ne. intros ->. apply Hs. now left.
Qed.

(** Once the text parses to a header and a row, the mapping is replaced,
    whatever the header holds: every source receives the number read by
    [safeNum], which is 0 for a source missing from the header. *)
Lemma loadCapacitySingleRow_replaces installed text :
  header (parseCSVSimple text) <> [] -> rows (parseCSVSimple text) <> [] ->
  exists row next,
    List.head (rows (parseCSVSimple text)) = Some row
    /\ loadCapacitySingleRow installed text = SnapshotReplaced next
    /\ (forall s, In s SOURCES ->
          next !! s = Some (snapshotValue (headerMap (header (parseCSVSimple text)) row 0 ∅) s))
    /\ (forall s, In s SOURCES -> ~ In s (header (parseCSVSimple text)) ->
          next !! s = Some 0%float)
    /\ (forall s, ~ In s SOURCES -> next !! s = installed !! s).
Proof.
  intros Hh Hr. unfold loadCapacitySingleRow.
  destruct (header (parseCSVSimple text)) as [|h0 hs] eqn:Eh; [congruence|].
  destruct (rows (parseCSVSimple text)) as [|row rs] eqn:Er; [congruence|].
  rewrite snapshotLoop_spec. eexists row, _. split; [reflexivity|]. split; [reflexivity|].
  repeat apply conj.
  - intros s Hs. now apply (fold_insert_in (snapshotValue _)).
  - intros s Hs Hnin. rewrite (fold_insert_in (snapshotValue _)) by exact Hs.
    unfold snapshotValue, strProp. rewrite headerMap_notin by exact Hnin.
    rewrite lookup_empty. reflexivity.
  - intros s Hs. now apply (fold_insert_notin (snapshotValue _)).
Qed.

End Snapshot.

(** C4: what the code does where the claim fails.  In a fresh session,
    where every stored value is 0 and the snapshot is fetched, 40 is typed
    for Wind while the fetch is under way; the snapshot that arrives names
    no source at all.  The test on [safeNum(map[s])] being finite always
    holds, so the mapping is replaced all the same, every source is
    written as 0, and Wind goes from 40 back to 0.  This is so for every
    text with two non-blank lines whose header names no source, whatever
    mapping the loader starts from. *)
Theorem snapshot_replaced_without_any_source :
  hasNonZeroLocal zeroCaps = false
  /\ cardReachable (mountCard zeroCaps zeroCaps) typedWhilePending
  /\ cardEnabled (SnapshotArrived noSourceText) typedWhilePending
  /\ installedCaps typedWhilePending !! "Wind" = Some 40%float
  /\ header (parseCSVSimple noSourceText) = ["Foo"]
  /\ (forall s, In s SOURCES -> ~ In s (header (parseCSVSimple noSourceText)))
  /\ loadCapacitySingleRow (atMount typedWhilePending) noSourceText = SnapshotReplaced zeroCaps
  /\ installedCaps (cardStep (SnapshotArrived noSourceText) typedWhilePending) !! "Wind"
     = Some 0%float
  /\ installedCaps (cardStep (SnapshotArrived noSourceText) typedWhilePending)
     <> installedCaps typedWhilePending
  /\ (forall installed text,
        header (parseCSVSimple text) <> [] -> rows (parseCSVSimple text) <> [] ->
        (forall s, In s SOURCES -> ~ In s (header (parseCSVSimple text))) ->
        exists next,
          loadCapacitySingleRow installed text = SnapshotReplaced next
          /\ forall s, In s SOURCES -> next !! s = Some 0%float).
Proof.
  split; [reflexivity|]. split.
  { apply cardReachable_step; [apply cardReachable_mount|]. simpl. tauto. }
  split; [reflexivity|]. split; [reflexivity|]. split; [reflexivity|]. split.
  { intros s Hs [H | []]. subst s. simpl in Hs.
    repeat (destruct Hs as [Hs | Hs]; [discriminate Hs|]). exact Hs. }
  split; [vm_compute; reflexivity|]. split; [vm_compute; reflexivity|]. split.
  { intros E.
    assert (H : installedCaps (cardStep (SnapshotArrived noSourceText) typedWhilePending)
                  !! "Wind" = Some 40%float) by (rewrite E; reflexivity).
    vm_compute in H. discriminate H. }
  intros installed text Hh Hr Hno.
  destruct (loadCapacitySingleRow_replaces installed text Hh Hr) as (row & next & _ & E & _ & Hz & _).
  exists next. split; [exact E|]. intros s Hs. apply Hz; auto.
Qed.

(** ** The selection stays ordered *)

Section SelectionOrder.

Lemma is_empty_true s : JS.is_empty s = true <-> s = "".
Proof. destruct s; simpl; split; congruence. Qed.

Lemma is_empty_false s : JS.is_empty s = false <-> s <> "".
Proof. destruct s; simpl; split; congruence. Qed.

Lemma okKey_comparable m : okKey m -> m <> "" -> comparable m.
Proof. intros [-> | H] Hne; [congruence | now apply regex_comparable]. Qed.

Lemma enforce_ordered sel :
  okKey (startMonth sel) -> okKey (endMonth sel) ->
  okKey (startMonth (enforce sel)) /\ okKey (endMonth (enforce sel))
  /\ endMonth (enforce sel) = endMonth sel
  /\ (startMonth (enforce sel) <> "" -> endMonth (enforce sel) <> "" ->
      monthKeyLe (startMonth (enforce sel)) (endMonth (enforce sel))).
Proof.
  intros Hs He. unfold enforce.
  destruct (JS.is_empty (startMonth sel)) eqn:E1; simpl.
  { apply is_empty_true in E1. repeat split; auto. congruence. }
  destruct (JS.is_empty (endMonth sel)) eqn:E2; simpl.
  { apply is_empty_true in E2. repeat split; auto. congruence. }
  apply is_empty_false in E1, E2.
  pose proof (okKey_comparable _ Hs E1) as Cs. pose proof (okKey_comparable _ He E2) as Ce.
  destruct (JS.gt0 _) eqn:G; simpl; repeat split; auto.
  - intros _ _. apply monthKeyLe_index; auto. lia.
  - intros _ _. rewrite gt0_compare in G by assumption. apply Z.ltb_ge in G.
    now apply monthKeyLe_index.
Qed.

(** Picking an end before the start, or a start after the end, moves the
    start onto the end. *)
Lemma enforce_clamps s e :
  okKey s -> okKey e -> s <> "" -> e <> "" -> ~ monthKeyLe s e ->
  enforce {| startMonth := s; endMonth := e |} = {| startMonth := e; endMonth := e |}.
Proof.
  intros Hs He Ns Ne Hgt. unfold enforce. simpl.
  apply is_empty_false in Ns, Ne. rewrite Ns, Ne. simpl.
  apply is_empty_false in Ns, Ne.
  pose proof (okKey_comparable _ Hs Ns) as Cs. pose proof (okKey_comparable _ He Ne) as Ce.
  rewrite gt0_compare by assumption.
  destruct (monthIndex e <? monthIndex s) eqn:G; [reflexivity|].
  apply Z.ltb_ge in G. exfalso. apply Hgt. now apply monthKeyLe_index.
Qed.

Lemma options_okKey opts m :
  forallb monthKeyRegex opts = true -> In m opts -> okKey m.
Proof. rewrite forallb_forall. intros H Hm. right. now apply H. Qed.

Lemma clamp_okKey opts m :
  forallb monthKeyRegex opts = true -> opts <> [] -> okKey (clampMonthKeyToOptions m opts).
Proof. intros H Hne. apply (options_okKey opts); [exact H | now apply clamp_In]. Qed.

Lemma orElse_okKey a b :
  (forall x, a = Some x -> okKey x) -> (forall x, b = Some x -> okKey x) ->
  forall x, orElse a b = Some x -> okKey x.
Proof.
  intros Ha Hb x. unfold orElse. destruct a as [y|]; [|apply Hb].
  destruct (JS.is_empty y); [apply Hb | apply Ha].
Qed.

Lemma lookup_okKey opts (i : nat) x :
  forallb monthKeyRegex opts = true -> opts !! i = Some x -> okKey x.
Proof.
  intros H Hx. apply (options_okKey opts); [exact H|].
  apply list_elem_of_In. eapply list_elem_of_lookup_2. exact Hx.
Qed.

Lemma last_okKey opts x :
  forallb monthKeyRegex opts = true -> last opts = Some x -> okKey x.
Proof.
  intros H Hx. apply (options_okKey opts); [exact H|].
  apply list_elem_of_In. rewrite last_lookup in Hx. eapply list_elem_of_lookup_2. exact Hx.
Qed.

Lemma initSelection_okKey opts sel :
  forallb monthKeyRegex opts = true ->
  okKey (startMonth sel) -> okKey (endMonth sel) ->
  okKey (startMonth (initSelection opts sel)) /\ okKey (endMonth (initSelection opts sel)).
Proof.
  intros Ho Hs He. unfold initSelection.
  destruct opts as [|o0 os] eqn:Eo; [now split|]. rewrite <- Eo in *.
  assert (opts <> []) as Hne by (rewrite Eo; discriminate).
  cbn [startMonth endMonth]. split.
  - destruct (JS.is_empty (startMonth sel)); [|now apply clamp_okKey].
    destruct (orElse _ _) as [x|] eqn:E; [|now left]. simpl.
    revert x E. apply orElse_okKey; [apply orElse_okKey|].
    + unfold defaultStartMonth. destruct (latestMonth opts); [|discriminate].
      intros x [= <-]. now apply clamp_okKey.
    + intros x. now apply lookup_okKey.
    + intros x. now apply lookup_okKey.
  - destruct (JS.is_empty (endMonth sel)); [|now apply clamp_okKey].
    destruct (orElse _ _) as [x|] eqn:E; [|now left]. simpl.
    revert x E. apply orElse_okKey; intros x; now apply last_okKey.
Qed.

Lemma default_history_regex text :
  forallb monthKeyRegex (monthOptions (default [] (loadHistory text))) = true.
Proof.
  destruct (loadHistory text) as [h|] eqn:E; [|reflexivity].
  simpl. now apply (monthOptions_regex text).
Qed.

Lemma offered_okKey ui m : selectionInv ui -> offered ui m -> okKey m.
Proof.
  intros (Ho & _) [Hin | [_ ->]]; [now apply (options_okKey _ _ Ho) | now left].
Qed.

Lemma step_selectionInv ev ui : selectionInv ui -> enabled ev ui -> selectionInv (step ev ui).
Proof.
  intros Hinv Hen. pose proof Hinv as (Ho & Hs & He & Hle).
  destruct ev as [text | m | m]; unfold selectionInv; cbn [step history selection].
  - pose proof (default_history_regex text) as Ho'.
    destruct (initSelection_okKey _ _ Ho' Hs He) as [Hs' He'].
    destruct (enforce_ordered _ Hs' He') as (H1 & H2 & _ & H3). auto.
  - pose proof (offered_okKey _ _ Hinv Hen) as Hm.
    destruct (enforce_ordered {| startMonth := m; endMonth := endMonth (selection ui) |} Hm He)
      as (H1 & H2 & _ & H3). auto.
  - pose proof (offered_okKey _ _ Hinv Hen) as Hm.
    destruct (enforce_ordered {| startMonth := startMonth (selection ui); endMonth := m |} Hs Hm)
      as (H1 & H2 & _ & H3). auto.
Qed.

Lemma reachable_selectionInv ui : reachable ui -> selectionInv ui.
Proof.
  induction 1 as [|ev ui _ IH Hen].
  - unfold selectionInv. simpl. repeat split; try (now left); congruence.
  - now apply step_selectionInv.
Qed.

End SelectionOrder.

(** C6.  In every state the component reaches (after the effects that a
    change triggers have run), a selected start month is not after the
    selected end month.  Picking an end month before the current start, or
    a start month after the current end, leaves the start equal to the
    end. *)
Theorem selection_start_le_end (ui : UI) :
  reachable ui ->
  (startMonth (selection ui) <> "" -> endMonth (selection ui) <> "" ->
   monthKeyLe (startMonth (selection ui)) (endMonth (selection ui)))
  /\ (forall m,
        offered ui m -> m <> "" -> startMonth (selection ui) <> "" ->
        ~ monthKeyLe (startMonth (selection ui)) m ->
        selection (step (EndPicked m) ui) = {| startMonth := m; endMonth := m |})
  /\ (forall m,
        offered ui m -> m <> "" -> endMonth (selection ui) <> "" ->
        ~ monthKeyLe m (endMonth (selection ui)) ->
        selection (step (StartPicked m) ui)
        = {| startMonth := endMonth (selection ui); endMonth := endMonth (selection ui) |})
  /\ (forall ev, enabled ev ui ->
        startMonth (selection (step ev ui)) <> "" -> endMonth (selection (step ev ui)) <> "" ->
        monthKeyLe (startMonth (selection (step ev ui))) (endMonth (selection (step ev ui)))).
Proof.
  intros Hr. pose proof (reachable_selectionInv ui Hr) as Hinv.
  pose proof Hinv as (Ho & Hs & He & Hle).
  repeat apply conj.
  - exact Hle.
  - intros m Hm Nm Ns Hgt. cbn [step selection].
    apply enforce_clamps; auto. now apply (offered_okKey ui).
  - intros m Hm Nm Ne Hgt. cbn [step selection].
    apply enforce_clamps; auto. now apply (offered_okKey ui).
  - intros ev Hen. now apply (step_selectionInv ev ui Hinv Hen).
Qed.

(** The history arrives (start 01/2023, end 01/2024), the start is moved
    to 06/2023, then 01/2023 is picked as the end: the start follows. *)
Lemma selection_start_le_end_witness :
  reachable (step (StartPicked "06/2023") (step (HistoryLoaded threeMonthsText) initialUI))
  /\ selection (step (StartPicked "06/2023") (step (HistoryLoaded threeMonthsText) initialUI))
     = {| startMonth := "06/2023"; endMonth := "01/2024" |}
  /\ selection (step (EndPicked "01/2023")
       (step (StartPicked "06/2023") (step (HistoryLoaded threeMonthsText) initialUI)))
     = {| startMonth := "01/2023"; endMonth := "01/2023" |}.
Proof.
  set (ui1 := step (HistoryLoaded threeMonthsText) initialUI).
  set (ui2 := step (StartPicked "06/2023") ui1).
  assert (monthOptions (history ui1) = ["01/2023"; "06/2023"; "01/2024"]) as O1
    by (vm_compute; reflexivity).
  assert (monthOptions (history ui2) = ["01/2023"; "06/2023"; "01/2024"]) as O2
    by (vm_compute; reflexivity).
  assert (selection ui2 = {| startMonth := "06/2023"; endMonth := "01/2024" |}) as S2
    by (vm_compute; reflexivity).
  assert (reachable ui2) as Hr.
  { apply reachable_step; [apply reachable_step; [apply reachable_initial | exact I]|].
    left. rewrite O1. simpl. tauto. }
  split; [exact Hr|]. split; [exact S2|].
  destruct (selection_start_le_end ui2 Hr) as (_ & Hend & _ & _).
  apply Hend.
  - left. rewrite O2. simpl. tauto.
  - discriminate.
  - rewrite S2. discriminate.
  - rewrite S2. cbn [startMonth]. vm_compute. discriminate.
Defined.

(** ** The order of month keys *)

Section MonthOrder.

Lemma lt0_gt0_compare a b ma ya mb yb :
  monthNumbers a = Some (ma, ya) -> monthNumbers b = Some (mb, yb) ->
  JS.lt0 (compareMonthKey a b) = JS.gt0 (compareMonthKey b a).
Proof.
  intros Ha Hb.
  rewrite (compareMonthKey_numbers a b _ _ _ _ Ha Hb), (compareMonthKey_numbers b a _ _ _ _ Hb Ha).
  cbn [JS.lt0 JS.gt0]. rewrite (Z.eqb_sym yb ya).
  destruct (ya =? yb); apply eq_true_iff_eq; rewrite !Z.ltb_lt; lia.
Qed.

Lemma compare_zero a b :
  monthKeyRegex a = true -> monthKeyRegex b = true ->
  compareMonthKey a b = JS.IInt 0 <-> a = b.
Proof.
  intros Ha Hb.
  destruct (monthParts_regex a Ha) as (ma & ya & Na & _).
  destruct (monthParts_regex b Hb) as (mb & yb & Nb & _).
  rewrite (compareMonthKey_numbers a b _ _ _ _ Na Nb). split.
  - intros H. apply monthNumbers_inj; [assumption ..|]. rewrite Na, Nb.
    destruct (Z.eqb_spec ya yb); injection H as H; do 2 f_equal; lia.
  - intros ->. rewrite Na in Nb. injection Nb as -> ->.
    rewrite Z.eqb_refl. f_equal. lia.
Qed.

Lemma monthKeyLe_trans a b c :
  comparable a -> comparable b -> comparable c ->
  monthKeyLe a b -> monthKeyLe b c -> monthKeyLe a c.
Proof.
  intros Ha Hb Hc. rewrite !monthKeyLe_index by assumption. lia.
Qed.

Lemma monthKeyLe_total a b : comparable a -> comparable b -> monthKeyLe a b \/ monthKeyLe b a.
Proof.
  intros Ha Hb. rewrite !monthKeyLe_index by assumption. lia.
Qed.

Lemma monthKeyLe_antisym a b :
  monthKeyRegex a = true -> monthKeyRegex b = true ->
  monthKeyLe a b -> monthKeyLe b a -> a = b.
Proof.
  intros Ha Hb. rewrite !monthKeyLe_index by now apply regex_comparable.
  intros H1 H2. apply monthIndex_inj; [assumption ..|]. lia.
Qed.

End MonthOrder.

(** X1.  On keys of the shape MM/YYYY, [compareMonthKey] is a total order:
    it returns 0 exactly on equal keys, its sign flips when the arguments
    are swapped, and "not after" is total, antisymmetric and transitive. *)
Theorem compareMonthKey_total_order (a b c : string) :
  monthKeyRegex a = true -> monthKeyRegex b = true -> monthKeyRegex c = true ->
  (compareMonthKey a b = JS.IInt 0 <-> a = b)
  /\ JS.lt0 (compareMonthKey a b) = JS.gt0 (compareMonthKey b a)
  /\ (monthKeyLe a b \/ monthKeyLe b a)
  /\ (monthKeyLe a b -> monthKeyLe b a -> a = b)
  /\ (monthKeyLe a b -> monthKeyLe b c -> monthKeyLe a c).
Proof.
  intros Ha Hb Hc.
  pose proof (regex_comparable a Ha) as Ca.
  pose proof (regex_comparable b Hb) as Cb.
  pose proof (regex_comparable c Hc) as Cc.
  split; [now apply compare_zero|].
  split.
  { destruct (monthParts_regex a Ha) as (ma & ya & Na & _).
    destruct (monthParts_regex b Hb) as (mb & yb & Nb & _).
    exact (lt0_gt0_compare a b _ _ _ _ Na Nb). }
  split; [now apply monthKeyLe_total|].
  split; [now apply monthKeyLe_antisym|].
  now apply monthKeyLe_trans.
Qed.

Lemma compareMonthKey_total_order_witness :
  (compareMonthKey "12/2023" "01/2024" = JS.IInt 0 <-> "12/2023" = "01/2024")
  /\ JS.lt0 (compareMonthKey "12/2023" "01/2024") = JS.gt0 (compareMonthKey "01/2024" "12/2023")
  /\ (monthKeyLe "12/2023" "01/2024" -> monthKeyLe "01/2024" "02/2024"
      -> monthKeyLe "12/2023" "02/2024").
Proof.
  pose proof (compareMonthKey_total_order "12/2023" "01/2024" "02/2024"
                eq_refl eq_refl eq_refl) as (H1 & H2 & _ & _ & H5).
  exact (conj H1 (conj H2 H5)).
Defined.

(** ** Going back in steps *)

Section MinusMonthsSteps.

Lemma wellFormed_regex key : wellFormedMonthKey key = true -> monthKeyRegex key = true.
Proof. unfold wellFormedMonthKey. intros H. now apply andb_true_iff in H as [H _]. Qed.

Lemma printed_key_same key m y :
  wellFormedMonthKey key = true -> monthNumbers key = Some (m, y) -> 1000 <= y ->
  monthText m +:+ "/" +:+ yearText y = key.
Proof.
  intros Hw Hn Hy.
  destruct (wellFormed_numbers key Hw) as (m' & y' & N & Hm & Hy').
  rewrite Hn in N. injection N as <- <-.
  destruct (printed_key_wellFormed m y Hm) as [Pw Pn]; [lia|].
  apply monthNumbers_inj; [now apply wellFormed_regex .. | congruence].
Qed.

Lemma minusMonths_reads key n m y :
  wellFormedMonthKey key = true -> monthNumbers key = Some (m, y) ->
  let t := 12 * y + (m - 1) - Z.of_nat n in
  1000 <= t / 12 ->
  wellFormedMonthKey (minusMonths key n) = true
  /\ monthNumbers (minusMonths key n) = Some (t mod 12 + 1, t / 12)
  /\ t / 12 <= y.
Proof.
  intros Hw Hn t Ht.
  destruct (wellFormed_numbers key Hw) as (m' & y' & N & Hm & Hy').
  rewrite Hn in N. injection N as <- <-.
  pose proof (Z.mod_pos_bound t 12 eq_refl) as Hr.
  pose proof (Z.div_mod t 12 ltac:(lia)) as Hd.
  assert (Hle : t / 12 <= y) by (subst t; lia).
  rewrite (minusMonths_numbers key n m y Hn Hm). fold t.
  destruct (printed_key_wellFormed (t mod 12 + 1) (t / 12)) as [Pw Pn]; [lia | lia |].
  auto.
Qed.

End MinusMonthsSteps.

(** X2.  Going back from a well-formed key in two steps is going back by
    the sum, as long as the first step stays in a four-digit year and the
    sum is at most 2^53 (up to which the counter of the loop, a binary64
    number, counts down exactly); going back by no month gives the key
    back; and the key reached is never after the key left. *)
Theorem minusMonths_composes (key : string) (a b : nat) (m y : Z) :
  wellFormedMonthKey key = true -> monthNumbers key = Some (m, y) ->
  1000 <= (12 * y + (m - 1) - Z.of_nat a) / 12 ->
  Z.of_nat (a + b) <= 2 ^ 53 ->
  minusMonths key 0 = key
  /\ minusMonths (minusMonths key a) b = minusMonths key (a + b)
  /\ monthKeyLe (minusMonths key a) key.
Proof.
  intros Hw Hn Ht _.
  destruct (wellFormed_numbers key Hw) as (m' & y' & N & Hm & Hy').
  rewrite Hn in N. injection N as <- <-.
  destruct (minusMonths_reads key a m y Hw Hn Ht) as (Hw1 & Hn1 & Hle).
  set (t := 12 * y + (m - 1) - Z.of_nat a) in *.
  pose proof (Z.mod_pos_bound t 12 eq_refl) as Hr.
  pose proof (Z.div_mod t 12 ltac:(lia)) as Hd.
  split; [|split].
  - rewrite (minusMonths_numbers key 0 m y Hn Hm).
    replace (12 * y + (m - 1) - Z.of_nat 0) with (m - 1 + y * 12) by lia.
    rewrite Z.mod_add, Z.div_add by lia.
    rewrite Z.mod_small, Z.div_small by lia.
    replace (m - 1 + 1) with m by lia. replace (0 + y) with y by lia.
    apply printed_key_same; [assumption .. | lia].
  - rewrite (minusMonths_numbers _ b _ _ Hn1) by lia.
    rewrite (minusMonths_numbers key (a + b) m y Hn Hm).
    replace (12 * (t / 12) + (t mod 12 + 1 - 1) - Z.of_nat b)
      with (12 * y + (m - 1) - Z.of_nat (a + b)) by (subst t; lia).
    reflexivity.
  - apply (monthKeyLe_numbers _ _ _ _ _ _ Hn1 Hn). subst t. lia.
Qed.

Lemma minusMonths_composes_witness :
  minusMonths "03/2024" 0 = "03/2024"
  /\ minusMonths (minusMonths "03/2024" 5) 9 = minusMonths "03/2024" (5 + 9)
  /\ monthKeyLe (minusMonths "03/2024" 5) "03/2024".
Proof.
  apply (minusMonths_composes "03/2024" 5 9 3 2024);
    [reflexivity | reflexivity | vm_compute; discriminate | vm_compute; discriminate].
Defined.

Section ClampAnyTarget.

Lemma clamp_earliest target options :
  forallb monthKeyRegex options = true -> options <> [] ->
  (forall o, In o options -> JS.le0 (compareMonthKey o target) = false) ->
  ~ In target options ->
  forall o, In o options -> monthKeyLe (clampMonthKeyToOptions target options) o.
Proof.
  intros Ho Hne Hnone Hnin o Hin.
  pose proof (regexes_comparable _ Ho) as Hco. rewrite List.Forall_forall in Hco.
  pose proof (clamp_In target options Hne) as Hr.
  pose proof (sorted_options_ascending _ Ho) as Hs.
  rewrite clamp_unfold in * by exact Hne.
  destruct (JS.includes options target) eqn:Ei; [now apply includes_In in Ei|].
  destruct (List.find _ _) as [x|] eqn:Ef.
  - apply List.find_some in Ef as [_ Hx]. cbv beta in Hx.
    now rewrite (Hnone x Hr) in Hx.
  - destruct (JS.sort compareMonthKey options) as [|h t] eqn:Es.
    { apply sort_nil_inv in Es. congruence. }
    apply monthKeyLe_index; auto.
    assert (In o (h :: t)) as [<- | Hin'].
    { rewrite <- Es. exact (proj2 (sort_In compareMonthKey _ _) Hin). }
    + lia.
    + inversion Hs as [|? ? _ Hh]; subst.
      rewrite List.Forall_forall in Hh. now apply Hh.
Qed.

End ClampAnyTarget.

(** X3.  For options of the shape MM/YYYY and any target on which the
    comparison is modelled exactly — a month key, a key with a year of
    three digits as [minusMonths] can print, the empty string, a string
    that is no date at all — the month clamped to a non-empty list of
    options is one of the options, and clamping it again changes nothing;
    with no option the target is returned as it is; and a target that is
    not an option and that no option is at or before gives the earliest
    option. *)
Theorem clamp_lands_in_options (target o : string) (options : list string) :
  exactKey target = true -> forallb monthKeyRegex (o :: options) = true ->
  In (clampMonthKeyToOptions target (o :: options)) (o :: options)
  /\ clampMonthKeyToOptions (clampMonthKeyToOptions target (o :: options)) (o :: options)
     = clampMonthKeyToOptions target (o :: options)
  /\ clampMonthKeyToOptions target [] = target
  /\ ((forall x, In x (o :: options) -> JS.le0 (compareMonthKey x target) = false) ->
      ~ In target (o :: options) ->
      forall x, In x (o :: options) ->
        monthKeyLe (clampMonthKeyToOptions target (o :: options)) x).
Proof.
  intros _ Ho.
  assert (H : In (clampMonthKeyToOptions target (o :: options)) (o :: options))
    by (apply clamp_In; discriminate).
  split; [exact H|]. split; [now apply clamp_member|]. split; [reflexivity|].
  intros Hnone Hnin. now apply clamp_earliest.
Qed.

Lemma clamp_lands_in_options_witness :
  In (clampMonthKeyToOptions "12/999" ["06/2023"; "01/2023"]) ["06/2023"; "01/2023"]
  /\ monthKeyLe (clampMonthKeyToOptions "no date" ["06/2023"; "01/2023"]) "06/2023".
Proof.
  split.
  - apply (clamp_lands_in_options "12/999" "06/2023" ["01/2023"]); reflexivity.
  - refine (proj2 (proj2 (proj2 (clamp_lands_in_options "no date" "06/2023" ["01/2023"]
                                   eq_refl eq_refl))) _ _ "06/2023" _).
    + intros x [<- | [<- | []]]; reflexivity.
    + intros [H | [H | []]]; discriminate H.
    + now left.
Defined.

(** X4.  On two strings on which the comparison is modelled exactly (a
    selected month is the empty string or an option, of the shape
    MM/YYYY), the effect that enforces Start ≤ End settles in one run:
    running it on its own result changes nothing.  It never touches the
    end month, and the start month it leaves is the old start month or the
    end month. *)
Theorem enforce_settles (sel : Selection) :
  exactKey (startMonth sel) = true -> exactKey (endMonth sel) = true ->
  enforce (enforce sel) = enforce sel
  /\ endMonth (enforce sel) = endMonth sel
  /\ (startMonth (enforce sel) = startMonth sel \/ startMonth (enforce sel) = endMonth sel).
Proof.
  intros _ _. unfold enforce.
  destruct (JS.is_empty (startMonth sel) || JS.is_empty (endMonth sel)) eqn:E.
  - rewrite E. auto.
  - destruct (JS.gt0 (compareMonthKey (startMonth sel) (endMonth sel))) eqn:G.
    + cbn [startMonth endMonth]. rewrite gt0_compare_same.
      destruct (JS.is_empty (endMonth sel) || JS.is_empty (endMonth sel)); auto.
    + rewrite E, G. auto.
Qed.

Lemma enforce_settles_witness :
  enforce (enforce {| startMonth := "06/2024"; endMonth := "01/2024" |})
  = enforce {| startMonth := "06/2024"; endMonth := "01/2024" |}
  /\ startMonth (enforce {| startMonth := "06/2024"; endMonth := "01/2024" |}) = "01/2024".
Proof.
  split; [|reflexivity].
  apply (enforce_settles {| startMonth := "06/2024"; endMonth := "01/2024" |}); reflexivity.
Defined.

(** ** Line endings, blank lines and the number of fields *)

Section LineEndings.

Lemma splitLines_eol l e rest :
  noBreak l = true -> JS.splitLines (l +:+ eolText e +:+ rest) = l :: JS.splitLines rest.
Proof.
  destruct e; [apply splitLines_line|].
  induction l as [|c l IH]; [reflexivity|]. simpl noBreak.
  intros [[H1 H2]%andb_prop Hl]%andb_prop. apply negb_true_iff in H1, H2.
  rewrite str_app_cons, splitLines_step, IH by assumption. reflexivity.
Qed.

Lemma splitLines_writeText ls lastLine :
  forallb noBreak (List.map fst ls) = true -> noBreak lastLine = true ->
  JS.splitLines (writeText ls lastLine) = List.map fst ls ++ [lastLine].
Proof.
  intros Hls Hl. induction ls as [|[l e] ls IH]; [now apply splitLines_last|].
  simpl in Hls. apply andb_prop in Hls as [Hl0 Hls].
  cbn [writeText List.map fst]. rewrite splitLines_eol, IH by assumption. reflexivity.
Qed.

Lemma allWs_splitLines text : allWs text = true -> Forall (fun l => allWs l = true) (JS.splitLines text).
Proof.
  remember (String.length text) as n eqn:Hn.
  assert (Hle : (String.length text <= n)%nat) by lia. clear Hn.
  revert text Hle. induction n as [|n IH]; intros [|c r] Hle Hw;
    try (repeat constructor; fail); [simpl in Hle; lia|].
  simpl in Hle, Hw. apply andb_prop in Hw as [Hc Hr].
  cbn [JS.splitLines]. destruct (Ascii.eqb c JS.LF).
  - constructor; [reflexivity|]. apply IH; [lia | exact Hr].
  - destruct r as [|c2 r2]; [repeat constructor; simpl; now rewrite Hc|].
    destruct (Ascii.eqb c JS.CR && Ascii.eqb c2 JS.LF).
    + constructor; [reflexivity|]. simpl in Hr, Hle. apply andb_prop in Hr as [_ Hr].
      apply IH; [lia | exact Hr].
    + pose proof (IH (String c2 r2) ltac:(lia) Hr) as H.
      destruct (JS.splitLines (String c2 r2)) as [|h t].
      * repeat constructor. simpl. now rewrite Hc.
      * inversion H; subst. constructor; [simpl; rewrite Hc; assumption | assumption].
Qed.

Lemma trim_allWs s : allWs s = true -> JS.trim s = "".
Proof. intros H. unfold JS.trim. now rewrite trimStart_of_allWs. Qed.

Lemma csvLines_allWs text : allWs text = true -> csvLines text = [].
Proof.
  intros H. unfold csvLines. pose proof (allWs_splitLines text H) as Hl.
  induction Hl as [|l ls Hw _ IH]; [reflexivity|].
  cbn [List.map JS.filterTruthy List.filter]. rewrite (trim_allWs l Hw). exact IH.
Qed.

Lemma comma_not_quote : Ascii.eqb JS.dquote JS.comma = false.
Proof. reflexivity. Qed.

Lemma parseLine_loop_count line out cur q :
  (length (parseLine_loop line out cur q) <= length out + 1 + countCommas line)%nat
  /\ (noQuote line = true -> q = false ->
      length (parseLine_loop line out cur q) = (length out + 1 + countCommas line)%nat).
Proof.
  revert line out cur q. apply parseLine_loop_cases.
  - intros out cur q. rewrite loop_nil, length_app. simpl. lia.
  - intros rest out cur [IH _]. rewrite loop_escaped. cbn [countCommas].
    rewrite comma_not_quote. split; [exact IH | discriminate].
  - intros rest out cur q Hq [IH _]. rewrite loop_quote by exact Hq. cbn [countCommas].
    rewrite comma_not_quote. split; [exact IH | intros H; simpl in H; discriminate].
  - intros rest out cur [IH1 IH2]. rewrite loop_comma. cbn [countCommas].
    rewrite Ascii.eqb_refl. rewrite length_app in IH1, IH2. simpl in IH1, IH2.
    split; [lia|]. intros Hn _. simpl in Hn. rewrite IH2 by auto. lia.
  - intros ch rest out cur q Hd Hc [IH1 IH2]. rewrite loop_other by assumption.
    cbn [countCommas]. destruct (Ascii.eqb_spec ch JS.comma) as [->|Hne].
    + destruct Hc as [Hc | ->]; [congruence|]. split; [lia | discriminate].
    + split; [exact IH1|]. intros Hn Hq. apply IH2; [|exact Hq].
      simpl in Hn. now apply andb_prop in Hn as [_ Hn].
Qed.

End LineEndings.

(** X5.  A text written line by line parses the same whether its lines
    end with a line feed or with a carriage return and a line feed, in any
    mix: the lines are recovered as written, blank ones are skipped
    wherever they stand, and the result is that of the same lines joined
    by line feeds.  A carriage return alone does not end a line. *)
Theorem parser_line_endings (ls : list (string * eol)) (lastLine : string) :
  forallb noBreak (List.map fst ls) = true -> noBreak lastLine = true ->
  JS.splitLines (writeText ls lastLine) = List.map fst ls ++ [lastLine]
  /\ parseCSVSimple (writeText ls lastLine)
     = match JS.filterTruthy (List.map JS.trim (List.map fst ls ++ [lastLine])) with
       | [] => {| header := []; rows := [] |}
       | l0 :: r => {| header := parseLine l0; rows := List.map parseLine r |}
       end
  /\ parseCSVSimple (writeText ls lastLine)
     = parseCSVSimple (joinLines (List.map fst ls ++ [lastLine]))
  /\ parseCSVSimple ("A,B" +:+ String JS.CR "1,2")
     = {| header := ["A"; "B" +:+ String JS.CR "1"; "2"]; rows := [] |}.
Proof.
  intros Hls Hl.
  pose proof (splitLines_writeText ls lastLine Hls Hl) as Hs.
  assert (Hp : parseCSVSimple (writeText ls lastLine)
     = match JS.filterTruthy (List.map JS.trim (List.map fst ls ++ [lastLine])) with
       | [] => {| header := []; rows := [] |}
       | l0 :: r => {| header := parseLine l0; rows := List.map parseLine r |}
       end).
  { unfold parseCSVSimple, csvLines. now rewrite Hs. }
  split; [exact Hs|]. split; [exact Hp|]. split; [|reflexivity].
  rewrite Hp, parseCSVSimple_joinLines; [reflexivity | now destruct (List.map fst ls) |].
  rewrite forallb_app, Hls. simpl. now rewrite Hl.
Qed.

Lemma parser_line_endings_witness :
  parseCSVSimple ("Month,Coal" +:+ String JS.CR NL +:+ NL +:+ "  " +:+ String JS.CR NL
                  +:+ "01/2024,5" +:+ NL)
  = {| header := ["Month"; "Coal"]; rows := [["01/2024"; "5"]] |}.
Proof.
  pose proof (parser_line_endings
    [("Month,Coal", EolCRLF); ("", EolLF); ("  ", EolCRLF); ("01/2024,5", EolLF)] ""
    eq_refl eq_refl) as (_ & H & _).
  exact H.
Defined.

(** X6.  A line gives one field more than it has commas outside quotes:
    never more than its commas plus one, exactly that many when the line
    holds no quote, and always at least one.  The parser neither pads nor
    cuts a row to the length of the header. *)
Theorem parseLine_field_count (line : string) :
  (1 <= length (parseLine line) <= S (countCommas line))%nat
  /\ (noQuote line = true -> length (parseLine line) = S (countCommas line))
  /\ rows (parseCSVSimple ("A,B,C" +:+ NL +:+ "1" +:+ NL +:+ "1,2,3,4"))
     = [["1"]; ["1"; "2"; "3"; "4"]].
Proof.
  unfold parseLine.
  destruct (parseLine_loop_count line [] "" false) as [H1 H2].
  pose proof (parseLine_loop_length line [] "" false) as H3.
  simpl in H1, H2, H3. split; [lia|]. split; [|reflexivity].
  intros Hn. rewrite H2 by auto. reflexivity.
Qed.

(** ** When the loaders fail *)

Section LoaderFailure.

Lemma parse_shape text :
  match csvLines text with
  | [] => header (parseCSVSimple text) = [] /\ rows (parseCSVSimple text) = []
  | [_] => header (parseCSVSimple text) <> [] /\ rows (parseCSVSimple text) = []
  | _ :: _ :: _ => header (parseCSVSimple text) <> [] /\ rows (parseCSVSimple text) <> []
  end.
Proof.
  unfold parseCSVSimple. destruct (csvLines text) as [|l0 [|l1 ls]]; cbn [header rows List.map];
    repeat split; try apply parseLine_nonempty; discriminate.
Qed.

Lemma findIndex_None {A} (p : A -> bool) xs :
  JS.findIndex p xs = None <-> Forall (fun x => p x = false) xs.
Proof.
  induction xs as [|x xs IH]; simpl; [split; [constructor | reflexivity]|].
  destruct (p x) eqn:E.
  - split; [discriminate | intros H; inversion H; congruence].
  - destruct (JS.findIndex p xs); simpl.
    + split; [discriminate|]. intros H. inversion H; subst.
      now apply (proj2 IH) in H3.
    + split; [|reflexivity]. intros _. constructor; [exact E | now apply IH].
Qed.

Lemma findIndex_first {A} (p : A -> bool) l1 x l2 :
  Forall (fun y => p y = false) l1 -> p x = true ->
  JS.findIndex p (l1 ++ x :: l2) = Some (length l1).
Proof.
  intros H Hx. induction H as [|y l1 Hy _ IH]; simpl; [now rewrite Hx|].
  now rewrite Hy, IH.
Qed.

Lemma parsedRows_None text :
  parsedRows text = None
  <-> (length (csvLines text) < 2)%nat
      \/ JS.findIndex isMonthHeader (header (parseCSVSimple text)) = None.
Proof.
  unfold parsedRows. pose proof (parse_shape text) as H.
  destruct (csvLines text) as [|l0 [|l1 ls]]; simpl length.
  - destruct H as [-> _]. split; [left; lia | reflexivity].
  - destruct H as [_ ->]. split; [left; lia|]. now destruct (header _).
  - destruct H as [Hh Hr].
    destruct (header (parseCSVSimple text)) as [|h hs] eqn:Eh; [congruence|].
    destruct (rows (parseCSVSimple text)) as [|r rs] eqn:Er; [congruence|].
    destruct (JS.findIndex isMonthHeader (h :: hs)).
    + split; [discriminate | intros [?|?]; [lia | discriminate]].
    + split; auto.
Qed.

Lemma loadHistory_None text : loadHistory text = None <-> parsedRows text = None.
Proof. unfold loadHistory. destruct (parsedRows text); split; congruence. Qed.

End LoaderFailure.

(** X7.  The history load fails exactly when the text has fewer than two
    non-blank lines or no header field equal to [month] once trimmed and
    lower-cased; a text of white space only always fails.  The name of the
    Month column is matched without regard to case; a load that succeeds
    may still keep no row. *)
Theorem history_load_fails_iff (text : string) :
  (loadHistory text = None
   <-> (length (csvLines text) < 2)%nat
       \/ Forall (fun h => isMonthHeader h = false) (header (parseCSVSimple text)))
  /\ (allWs text = true -> loadHistory text = None)
  /\ loadHistory "Month,Coal" = None
  /\ loadHistory ("Months,Coal" +:+ NL +:+ "01/2024,5") = None
  /\ loadHistory ("Coal, MONTH " +:+ NL +:+ "5,01/2024") = Some [coalRow "01/2024" 5]
  /\ loadHistory ("Month,Coal" +:+ NL +:+ "2024-01,5") = Some [].
Proof.
  split; [|split].
  - rewrite loadHistory_None, parsedRows_None, findIndex_None. reflexivity.
  - intros Hw. apply loadHistory_None, parsedRows_None. left.
    rewrite (csvLines_allWs text Hw). simpl. lia.
  - repeat split; vm_compute; reflexivity.
Qed.

(** X8.  The snapshot load fails exactly when the text has fewer than two
    non-blank lines, as a text of white space only does; in every other
    case it replaces the installed mapping: there is no text on which it
    leaves the mapping as it is. *)
Theorem snapshot_load_outcome (installed : gmap string float) (text : string) :
  (loadCapacitySingleRow installed text = SnapshotFailed
   <-> (length (csvLines text) < 2)%nat)
  /\ loadCapacitySingleRow installed text <> SnapshotUnchanged
  /\ (allWs text = true -> loadCapacitySingleRow installed text = SnapshotFailed)
  /\ ((2 <= length (csvLines text))%nat ->
      exists next, loadCapacitySingleRow installed text = SnapshotReplaced next).
Proof.
  assert (Hsmall : (length (csvLines text) < 2)%nat ->
                   loadCapacitySingleRow installed text = SnapshotFailed).
  { intros Hl. unfold loadCapacitySingleRow. pose proof (parse_shape text) as H.
    destruct (csvLines text) as [|l0 [|l1 ls]]; [| |simpl in Hl; lia].
    - destruct H as [-> _]. reflexivity.
    - destruct H as [_ ->]. now destruct (header _). }
  assert (Hbig : (2 <= length (csvLines text))%nat ->
                 exists next, loadCapacitySingleRow installed text = SnapshotReplaced next).
  { intros Hl. pose proof (parse_shape text) as H.
    destruct (csvLines text) as [|l0 [|l1 ls]]; [simpl in Hl; lia .. |].
    destruct H as [Hh Hr].
    destruct (loadCapacitySingleRow_replaces installed text Hh Hr) as (row & next & _ & E & _).
    eauto. }
  split; [|split; [|split]].
  - split; [|exact Hsmall]. intros E.
    destruct (Nat.lt_ge_cases (length (csvLines text)) 2) as [?|Hge]; [assumption|].
    destruct (Hbig Hge) as [next E']. congruence.
  - destruct (Nat.lt_ge_cases (length (csvLines text)) 2) as [Hlt|Hge].
    + rewrite (Hsmall Hlt). discriminate.
    + destruct (Hbig Hge) as [next ->]. discriminate.
  - intros Hw. apply Hsmall. rewrite (csvLines_allWs text Hw). simpl. lia.
  - exact Hbig.
Qed.

(** ** Which column a source is read from *)

Section Columns.

Lemma headerMap_last l1 s l2 row i (map : gmap string string) :
  ~ In s l2 ->
  headerMap (l1 ++ s :: l2) row i map !! s
  = Some (default EmptyString (row !! (i + length l1)%nat)).
Proof.
  intros Hs. revert i map. induction l1 as [|h l1 IH]; intros i map.
  - cbn [app headerMap length]. rewrite headerMap_notin by exact Hs.
    rewrite lookup_insert_eq. now rewrite Nat.add_0_r.
  - cbn [app headerMap length]. rewrite IH. do 3 f_equal. lia.
Qed.

Lemma cell_beyond row i : (length row <= i)%nat -> safeNum (cell row i) = 0%float.
Proof.
  intros H. unfold cell. now rewrite (lookup_ge_None_2 row i H).
Qed.

Lemma rowValue_first header row s l1 h l2 :
  header = l1 ++ h :: l2 -> JS.trim h = s -> Forall (fun y => JS.trim y <> s) l1 ->
  rowValue header row s = safeNum (cell row (length l1)).
Proof.
  intros -> Hh Hl. unfold rowValue.
  rewrite (findIndex_first _ l1 h l2); [reflexivity | | now apply String.eqb_eq].
  eapply Forall_impl; [exact Hl|]. intros y Hy. cbv beta. now apply String.eqb_neq.
Qed.

Lemma rowValue_absent header row s :
  Forall (fun y => JS.trim y <> s) header -> rowValue header row s = 0%float.
Proof.
  intros Hl. unfold rowValue.
  rewrite (proj2 (findIndex_None _ header)); [reflexivity|].
  eapply Forall_impl; [exact Hl|]. intros y Hy. cbv beta. now apply String.eqb_neq.
Qed.

End Columns.

(** X9.  In a history row the value of a source is read from the first
    column whose trimmed header is the name of the source, spelled exactly
    (a second column of that name is ignored); a source without a column,
    and a row too short to reach the column, give 0. *)
Theorem history_column_first_wins (header row : list string) :
  (forall s l1 h l2,
      In s SOURCES -> header = l1 ++ h :: l2 -> JS.trim h = s ->
      Forall (fun y => JS.trim y <> s) l1 ->
      rowValues header row !! s = Some (safeNum (cell row (length l1))))
  /\ (forall s, In s SOURCES -> Forall (fun y => JS.trim y <> s) header ->
      rowValues header row !! s = Some 0%float)
  /\ (forall i, (length row <= i)%nat -> safeNum (cell row i) = 0%float)
  /\ loadHistory ("Month,Coal,Coal" +:+ NL +:+ "01/2024,1,2") = Some [coalRow "01/2024" 1]
  /\ loadHistory ("Month,coal" +:+ NL +:+ "01/2024,1") = Some [coalRow "01/2024" 0]
  /\ loadHistory ("Month,Solar,Coal" +:+ NL +:+ "01/2024,4")
     = Some [{| month := "01/2024"; values := <["Solar" := 4%float]> zeroCaps |}].
Proof.
  split; [|split; [|split]].
  - intros s l1 h l2 Hs Hh Ht Hl. rewrite rowValues_lookup by exact Hs.
    f_equal. now apply (rowValue_first header row s l1 h l2).
  - intros s Hs Hl. rewrite rowValues_lookup by exact Hs. f_equal.
    now apply rowValue_absent.
  - apply cell_beyond.
  - repeat split; vm_compute; reflexivity.
Qed.

(** X10.  In the snapshot the value of a source is read from the last
    column whose header is the name of the source: with two columns of the
    same name the later one wins, where the history keeps the earlier one.
    The cell is read as [safeNum] reads it, and a row too short to reach
    the column gives 0. *)
Theorem snapshot_column_last_wins (installed : gmap string float) (text : string)
  (l1 l2 row : list string) (rest : list (list string)) (s : string) :
  parseCSVSimple text = {| header := l1 ++ s :: l2; rows := row :: rest |} ->
  ~ In s l2 -> In s SOURCES ->
  exists next,
    loadCapacitySingleRow installed text = SnapshotReplaced next
    /\ next !! s = Some (typed (default EmptyString (row !! length l1)))
    /\ ((length row <= length l1)%nat -> next !! s = Some 0%float).
Proof.
  intros Hp Hl2 Hs.
  destruct (loadCapacitySingleRow_replaces installed text) as (row' & next & Hrow & E & Hv & _).
  { rewrite Hp. cbn [header]. now destruct l1. }
  { rewrite Hp. discriminate. }
  rewrite Hp in Hrow, Hv. cbn [header rows List.head] in Hrow, Hv. injection Hrow as <-.
  assert (Hn : next !! s = Some (typed (default EmptyString (row !! length l1)))).
  { rewrite (Hv s Hs). unfold snapshotValue, strProp.
    rewrite (headerMap_last l1 s l2 row 0 ∅ Hl2). reflexivity. }
  exists next. split; [exact E|]. split; [exact Hn|].
  intros Hlen. rewrite Hn, (lookup_ge_None_2 row _ Hlen). reflexivity.
Qed.

Lemma snapshot_column_last_wins_witness :
  exists next,
    loadCapacitySingleRow zeroCaps ("Coal,Solar,Coal" +:+ NL +:+ "1,4,2") = SnapshotReplaced next
    /\ next !! "Coal" = Some 2%float.
Proof.
  destruct (snapshot_column_last_wins zeroCaps ("Coal,Solar,Coal" +:+ NL +:+ "1,4,2")
              ["Coal"; "Solar"] [] ["1"; "4"; "2"] [] "Coal" eq_refl)
    as (next & E & Hn & _).
  - simpl. tauto.
  - simpl. tauto.
  - exists next. split; [exact E|]. rewrite Hn. vm_compute. reflexivity.
Defined.

(** ** Binary64 facts: what cannot be NaN *)

Section FloatFacts.

Lemma Prim2SF_nan x : Prim2SF x = S754_nan <-> is_nan x = true.
Proof.
  unfold Prim2SF. destruct (is_nan x); [tauto|].
  split; [|discriminate].
  destruct (is_zero x); [discriminate|].
  destruct (is_infinity x); [discriminate|].
  destruct (Z.frexp x) as [r ex].
  destruct (shr_fexp prec emax _ _ _) as [sh e'].
  destruct (shr_m sh); discriminate.
Qed.

Lemma not_nan_Prim2SF x : is_nan x = false <-> Prim2SF x <> S754_nan.
Proof.
  rewrite Prim2SF_nan. destruct (is_nan x); split; congruence.
Qed.

Lemma finite_cases x :
  is_finite x = true ->
  (exists s, Prim2SF x = S754_zero s) \/ (exists s m e, Prim2SF x = S754_finite s m e).
Proof.
  unfold is_finite, Prim2SF. destruct (is_nan x); [discriminate|].
  destruct (is_infinity x); [discriminate|]. intros _.
  destruct (is_zero x); [eauto|].
  destruct (Z.frexp x) as [r ex].
  destruct (shr_fexp prec emax _ _ _) as [sh e'].
  destruct (shr_m sh); eauto 6.
Qed.

Lemma shr_1_nonneg mrs : 0 <= shr_m mrs -> 0 <= shr_m (shr_1 mrs).
Proof.
  destruct mrs as [m r s]. cbn [shr_m]. intros H.
  destruct m as [|p|p]; [cbn; lia | destruct p; cbn; lia | lia].
Qed.

Lemma iter_pos_inv {A} (P : A -> Prop) (f : A -> A) :
  (forall a, P a -> P (f a)) -> forall n a, P a -> P (SpecFloat.iter_pos f n a).
Proof.
  intros Hf. induction n as [n IH|n IH|]; intros a Ha; simpl; auto.
Qed.

Lemma shr_fexp_nonneg m e l :
  0 <= m -> 0 <= shr_m (fst (shr_fexp prec emax m e l)).
Proof.
  intros Hm. unfold shr_fexp, shr.
  assert (H0 : 0 <= shr_m (shr_record_of_loc m l)) by (destruct l as [|[]]; exact Hm).
  destruct (fexp prec emax (Zdigits2 m + e) - e); simpl; auto.
  apply (iter_pos_inv (fun r => 0 <= shr_m r)); auto using shr_1_nonneg.
Qed.

Lemma round_nearest_even_nonneg m l : 0 <= m -> 0 <= round_nearest_even m l.
Proof.
  intros Hm. destruct l as [|[]]; simpl; try lia. destruct (Z.even m); lia.
Qed.

Lemma binary_round_aux_not_nan sx mx ex lx :
  0 <= mx -> binary_round_aux prec emax sx mx ex lx <> S754_nan.
Proof.
  intros Hm. unfold binary_round_aux.
  pose proof (shr_fexp_nonneg mx ex lx Hm) as H1.
  destruct (shr_fexp prec emax mx ex lx) as [mrs' e']. simpl in H1.
  pose proof (shr_fexp_nonneg _ e' loc_Exact
                (round_nearest_even_nonneg _ (loc_of_shr_record mrs') H1)) as H2.
  destruct (shr_fexp prec emax (round_nearest_even _ _) e' loc_Exact) as [mrs'' e''].
  simpl in H2. destruct (shr_m mrs''); [discriminate | | lia].
  destruct (e'' <=? emax - prec); discriminate.
Qed.

Lemma binary_round_not_nan sx mx ex : binary_round prec emax sx mx ex <> S754_nan.
Proof.
  unfold binary_round. destruct (shl_align _ _ _) as [mz ez].
  apply binary_round_aux_not_nan. lia.
Qed.

Lemma binary_normalize_not_nan m e sz : binary_normalize prec emax m e sz <> S754_nan.
Proof.
  destruct m; simpl; [discriminate | apply binary_round_not_nan ..].
Qed.

Lemma SFadd_not_nan x y :
  x <> S754_nan ->
  (exists s, y = S754_zero s) \/ (exists s m e, y = S754_finite s m e) ->
  SFadd prec emax x y <> S754_nan.
Proof.
  intros Hx [[s ->] | (s & m & e & ->)]; destruct x as [sx|sx| |sx mx ex]; try congruence;
    cbn [SFadd]; try discriminate.
  - destruct sx, s; discriminate.
  - apply binary_normalize_not_nan.
Qed.

Lemma SFsub_not_nan x y :
  (exists s, x = S754_zero s) \/ (exists s m e, x = S754_finite s m e) ->
  (exists s, y = S754_zero s) \/ (exists s m e, y = S754_finite s m e) ->
  SFsub prec emax x y <> S754_nan.
Proof.
  intros [[sx ->] | (sx & mx & ex & ->)] [[s ->] | (s & m & e & ->)];
    cbn [SFsub]; try discriminate.
  - destruct sx, s; discriminate.
  - apply binary_normalize_not_nan.
Qed.

Lemma SFmul_not_nan x s m e :
  x <> S754_nan -> SFmul prec emax x (S754_finite s m e) <> S754_nan.
Proof.
  intros Hx. destruct x as [sx|sx| |sx mx ex]; try congruence; cbn [SFmul]; try discriminate.
  apply binary_round_aux_not_nan. lia.
Qed.

Lemma SFdiv_not_nan x s m e :
  x <> S754_nan -> SFdiv prec emax x (S754_finite s m e) <> S754_nan.
Proof.
  intros Hx. destruct x as [sx|sx| |sx mx ex]; try congruence; cbn [SFdiv]; try discriminate.
  unfold SFdiv_core_binary.
  set (sh := _ - _ - Z.min _ _).
  set (m' := match sh with 0 => Z.pos mx | Z.pos _ => Z.shiftl (Z.pos mx) sh | Z.neg _ => 0 end).
  assert (Hm' : 0 <= m').
  { subst m'. destruct sh eqn:E; try lia. apply Z.shiftl_nonneg. lia. }
  pose proof (Z.div_pos m' (Z.pos m) Hm' eq_refl) as Hq.
  unfold Z.div in Hq. destruct (Z.div_eucl m' (Z.pos m)) as [q r]. simpl in Hq.
  now apply binary_round_aux_not_nan.
Qed.

Lemma add_not_nan x y : is_nan x = false -> is_finite y = true -> is_nan (x + y) = false.
Proof.
  rewrite !not_nan_Prim2SF, add_spec. intros Hx Hy.
  apply SFadd_not_nan; [exact Hx | exact (finite_cases y Hy)].
Qed.

Lemma sub_not_nan x y : is_finite x = true -> is_finite y = true -> is_nan (x - y) = false.
Proof.
  rewrite not_nan_Prim2SF, sub_spec. intros Hx Hy.
  apply SFsub_not_nan; now apply finite_cases.
Qed.

Lemma hundred_finite : Prim2SF 100 = S754_finite false 7036874417766400 (-46).
Proof. reflexivity. Qed.

Lemma mul_100_not_nan x : is_nan x = false -> is_nan (x * 100) = false.
Proof.
  rewrite !not_nan_Prim2SF, mul_spec, hundred_finite. apply SFmul_not_nan.
Qed.

Lemma div_100_not_nan x : is_nan x = false -> is_nan (x / 100) = false.
Proof.
  rewrite !not_nan_Prim2SF, div_spec, hundred_finite. apply SFdiv_not_nan.
Qed.

Lemma SF2Prim_not_nan sf : sf <> S754_nan -> is_nan (SF2Prim sf) = false.
Proof.
  intros Hsf. destruct sf as [[]|[]| |s m e]; try reflexivity; [congruence|].
  cbn [SF2Prim].
  set (f := Z.ldexp _ e).
  assert (Hf : Prim2SF f <> S754_nan).
  { subst f. rewrite Z_ldexp_spec, of_uint63_spec.
    match goal with
    | |- context [binary_normalize _ _ ?z 0 false] =>
        pose proof (binary_normalize_not_nan z 0 false) as Hn
    end.
    destruct (binary_normalize _ _ _ _ _); cbn [SFldexp]; try congruence.
    apply binary_round_not_nan. }
  destruct s; apply not_nan_Prim2SF; [|exact Hf].
  rewrite opp_spec. destruct (Prim2SF f); cbn; congruence.
Qed.

Lemma Math_round_not_nan x : is_nan x = false -> is_nan (JS.Math_round x) = false.
Proof.
  intros Hx. unfold JS.Math_round.
  destruct (Prim2SF x) as [| | |s m e]; try exact Hx.
  destruct (0 <=? e); [exact Hx|].
  cbv zeta. destruct (_ =? 0); [destruct s; reflexivity|].
  apply SF2Prim_not_nan, binary_normalize_not_nan.
Qed.

Lemma round2_not_nan x : is_nan x = false -> is_nan (round2 x) = false.
Proof.
  intros Hx. unfold round2. now apply div_100_not_nan, Math_round_not_nan, mul_100_not_nan.
Qed.

Lemma sub_self x : is_finite x = true -> (x - x)%float = 0%float.
Proof.
  intros Hx. apply Prim2SF_inj. rewrite sub_spec.
  destruct (finite_cases x Hx) as [[s ->] | (s & m & e & ->)].
  - destruct s; reflexivity.
  - cbn [SF64sub SFsub]. unfold SF64sub. cbn [SFsub]. rewrite Z.sub_diag. reflexivity.
Qed.

Lemma digits2_pos_log2 p : Z.pos (digits2_pos p) = Z.log2 (Z.pos p) + 1.
Proof.
  assert (Hs : forall q, digits2_pos q = Pos.size q).
  { induction q as [q IH|q IH|]; simpl; [now rewrite IH .. | reflexivity]. }
  destruct p; simpl; rewrite ?Hs; lia.
Qed.

Lemma Zdigits2_le m n : 0 <= m < 2 ^ n -> 0 <= n -> Zdigits2 m <= n.
Proof.
  intros [Hm Hlt] Hn. destruct m as [|p|p]; [exact Hn | | lia].
  cbn [Zdigits2]. rewrite digits2_pos_log2.
  assert (Z.log2 (Z.pos p) < n) by (apply Z.log2_lt_pow2; lia). lia.
Qed.

Lemma Zdigits2_bound p : Z.pos p < 2 ^ Z.pos (digits2_pos p).
Proof.
  rewrite digits2_pos_log2. pose proof (Z.log2_spec (Z.pos p) eq_refl) as H.
  replace (Z.log2 (Z.pos p) + 1) with (Z.succ (Z.log2 (Z.pos p))) by lia. lia.
Qed.

Lemma shr_1_half mrs : 0 <= shr_m mrs -> shr_m (shr_1 mrs) = shr_m mrs / 2.
Proof.
  destruct mrs as [m r s]. cbn [shr_m]. intros H.
  destruct m as [|p|p]; [reflexivity | | lia].
  destruct p as [p|p|]; cbn [shr_1 shr_m]; [| |reflexivity].
  - apply (Z.div_unique_pos _ _ _ 1); lia.
  - apply (Z.div_unique_pos _ _ _ 0); lia.
Qed.

Lemma iter_shr_1 k mrs :
  0 <= shr_m mrs -> shr_m (SpecFloat.iter_pos shr_1 k mrs) = shr_m mrs / 2 ^ Z.pos k.
Proof.
  revert mrs. induction k as [k IH|k IH|]; intros mrs Hm; cbn [SpecFloat.iter_pos];
    try (assert (Hp : 0 < 2 ^ Z.pos k) by (apply Z.pow_pos_nonneg; lia)).
  - pose proof (shr_1_nonneg mrs Hm) as H1.
    assert (H2 : 0 <= shr_m (SpecFloat.iter_pos shr_1 k (shr_1 mrs))).
    { apply (iter_pos_inv (fun r => 0 <= shr_m r)); auto using shr_1_nonneg. }
    rewrite (IH _ H2), (IH _ H1), shr_1_half by exact Hm.
    rewrite !Z.div_div by nia. f_equal.
    rewrite Pos2Z.inj_xI.
    replace (2 * Z.pos k + 1) with (1 + (Z.pos k + Z.pos k)) by lia.
    rewrite !Z.pow_add_r by lia. reflexivity.
  - assert (H2 : 0 <= shr_m (SpecFloat.iter_pos shr_1 k mrs)).
    { apply (iter_pos_inv (fun r => 0 <= shr_m r)); auto using shr_1_nonneg. }
    rewrite (IH _ H2), (IH _ Hm). rewrite Z.div_div by lia. f_equal.
    rewrite Pos2Z.inj_xO. rewrite <- Z.pow_add_r by lia. f_equal. lia.
  - rewrite shr_1_half by exact Hm. reflexivity.
Qed.

(** A value below 2^(emax - 1) does not overflow when it is rounded. *)
Lemma shr_fexp_bound m e l N :
  0 <= m < 2 ^ (N - e) -> e <= N - prec -> 3 - emax - prec <= N - prec ->
  let r := shr_fexp prec emax m e l in
  0 <= shr_m (fst r) < 2 ^ (N - snd r) /\ snd r <= N - prec.
Proof.
  intros [Hm Hlt] He HN r.
  assert (Hd : Zdigits2 m <= N - e) by (apply Zdigits2_le; [lia | unfold prec in *; lia]).
  subst r. unfold shr_fexp, shr.
  assert (H0 : shr_m (shr_record_of_loc m l) = m) by (destruct l as [|[]]; reflexivity).
  set (k := fexp prec emax (Zdigits2 m + e) - e).
  assert (Hk : k <= N - prec - e).
  { subst k. unfold fexp, SpecFloat.emin. lia. }
  destruct k as [|p|p] eqn:E; cbn [fst snd]; rewrite ?H0; try (split; [split|]; lia).
  rewrite iter_shr_1 by lia. rewrite H0.
  assert (Hp : 0 < 2 ^ Z.pos p) by (apply Z.pow_pos_nonneg; lia).
  split; [split|]; [apply Z.div_pos; lia | | lia].
  apply Z.div_lt_upper_bound; [exact Hp|].
  rewrite <- Z.pow_add_r by (unfold prec in *; lia).
  replace (Z.pos p + (N - (e + Z.pos p))) with (N - e) by lia. exact Hlt.
Qed.

Lemma binary_round_aux_finite sx mx ex lx :
  0 <= mx < 2 ^ (emax - 1 - ex) -> ex <= emax - 1 - prec ->
  (exists s, binary_round_aux prec emax sx mx ex lx = S754_zero s)
  \/ (exists s m e, binary_round_aux prec emax sx mx ex lx = S754_finite s m e).
Proof.
  intros Hm He. unfold binary_round_aux.
  pose proof (shr_fexp_bound mx ex lx (emax - 1) Hm He) as H1.
  destruct (shr_fexp prec emax mx ex lx) as [mrs' e']. cbn [fst snd] in H1.
  destruct H1 as [[H1 H1'] H1'']; [unfold emax, prec; lia|].
  set (m2 := round_nearest_even (shr_m mrs') (loc_of_shr_record mrs')).
  assert (Hm2 : 0 <= m2 < 2 ^ (emax - e')).
  { assert (shr_m mrs' <= m2 <= shr_m mrs' + 1).
    { subst m2. unfold round_nearest_even.
      destruct (loc_of_shr_record mrs') as [|[]]; try lia. destruct (Z.even _); lia. }
    replace (emax - e') with (Z.succ (emax - 1 - e')) by lia.
    rewrite Z.pow_succ_r by (unfold prec in *; lia). lia. }
  pose proof (shr_fexp_bound m2 e' loc_Exact emax Hm2) as H2.
  destruct (shr_fexp prec emax m2 e' loc_Exact) as [mrs'' e'']. cbn [fst snd] in H2.
  destruct H2 as [[H2 _] H2'']; [lia | unfold emax, prec; lia |].
  destruct (shr_m mrs''); [eauto | | lia].
  destruct (Z.leb_spec e'' (emax - prec)); [eauto 6 | lia].
Qed.

Lemma SFdiv_100_finite x :
  valid_binary x = true -> zeroOrFinite x ->
  zeroOrFinite (SFdiv prec emax x (S754_finite false 7036874417766400 (-46))).
Proof.
  intros Hv [[s ->] | (s & mx & ex & ->)]; [left; eexists; reflexivity|].
  cbn [SFdiv]. unfold SFdiv_core_binary.
  cbn [valid_binary] in Hv. unfold bounded, canonical_mantissa in Hv.
  apply andb_true_iff in Hv as [Hc Hb]. apply Z.eqb_eq in Hc. apply Z.leb_le in Hb.
  change (Zdigits2 7036874417766400) with 53. cbn [Zdigits2].
  pose proof (Zdigits2_bound mx) as Hd.
  set (d1 := Z.pos (digits2_pos mx)) in *.
  assert (Hd1 : 0 < d1 <= 53 /\ -1074 <= ex <= 971).
  { unfold fexp, SpecFloat.emin, prec, emax in *. subst d1. lia. }
  set (e' := Z.min (fexp prec emax (d1 + ex - (53 + -46))) (ex - -46)).
  assert (He' : e' <= 964 /\ e' <= ex + 46).
  { subst e'. unfold fexp, SpecFloat.emin, prec, emax. lia. }
  set (sh := ex - -46 - e').
  set (m' := match sh with 0 => Z.pos mx | Z.pos _ => Z.shiftl (Z.pos mx) sh | Z.neg _ => 0 end).
  assert (Hm' : 0 <= m' < 7036874417766400 * 2 ^ (emax - 1 - e')).
  { assert (Hsh : 0 <= sh) by (subst sh; lia).
    assert (Hms : m' = Z.pos mx * 2 ^ sh).
    { subst m'. destruct sh eqn:E; [lia | now rewrite Z.shiftl_mul_pow2 | lia]. }
    assert (H2s : 0 < 2 ^ sh) by (apply Z.pow_pos_nonneg; lia).
    assert (Hle : 2 ^ (d1 + sh) <= 2 ^ (52 + (emax - 1 - e'))).
    { apply Z.pow_le_mono_r; [lia|]. subst sh. unfold emax. lia. }
    rewrite !Z.pow_add_r in Hle by (unfold emax; lia).
    assert (0 < 2 ^ (emax - 1 - e')) by (apply Z.pow_pos_nonneg; unfold emax; lia).
    change (2 ^ 52) with 4503599627370496 in Hle.
    rewrite Hms. split; [lia|]. nia. }
  pose proof (Z.div_pos m' 7036874417766400 (proj1 Hm') eq_refl) as Hq.
  pose proof (Z.div_lt_upper_bound m' 7036874417766400 _ eq_refl (proj2 Hm')) as Hq'.
  unfold Z.div in Hq, Hq'. destruct (Z.div_eucl m' 7036874417766400) as [q r].
  cbn [fst] in Hq, Hq'.
  apply binary_round_aux_finite; [lia | unfold emax, prec; lia].
Qed.

Lemma SFmul_finite_not_nan x y :
  zeroOrFinite x -> zeroOrFinite y -> SFmul prec emax x y <> S754_nan.
Proof.
  intros [[sx ->] | (sx & mx & ex & ->)] [[s ->] | (s & m & e & ->)];
    cbn [SFmul]; try discriminate.
  apply binary_round_aux_not_nan. lia.
Qed.

Lemma rated_product_not_nan a p :
  is_finite a = true -> is_finite p = true -> is_nan (a * (p / 100)) = false.
Proof.
  intros Ha Hp. apply not_nan_Prim2SF. rewrite mul_spec, div_spec, hundred_finite.
  apply SFmul_finite_not_nan; [now apply finite_cases|].
  apply SFdiv_100_finite; [apply Prim2SF_valid | now apply finite_cases].
Qed.

Lemma sub_self_cases x :
  is_nan x = false -> (x - x)%float = 0%float \/ (x - x)%float = nan.
Proof.
  intros Hx. apply not_nan_Prim2SF in Hx.
  destruct (Prim2SF x) as [s|s| |s m e] eqn:E; [| |congruence|].
  - left. apply Prim2SF_inj. rewrite sub_spec, E. destruct s; reflexivity.
  - right. apply Prim2SF_inj. rewrite sub_spec, E. destruct s; reflexivity.
  - left. apply Prim2SF_inj. rewrite sub_spec, E. unfold SF64sub. cbn [SFsub].
    rewrite Z.sub_diag. reflexivity.
Qed.

Lemma infinite_shape x s : Prim2SF x = S754_infinity s -> is_finite x = false.
Proof.
  intros E. destruct (is_finite x) eqn:F; [|reflexivity].
  destruct (finite_cases x F) as [[s' H] | (s' & m & e & H)]; congruence.
Qed.

Lemma sub_nan_inv x y :
  is_nan x = false -> is_nan y = false -> is_nan (x - y) = true ->
  is_finite x = false /\ is_finite y = false.
Proof.
  intros Hx Hy Hn. apply not_nan_Prim2SF in Hx, Hy. apply Prim2SF_nan in Hn.
  rewrite sub_spec in Hn. unfold SF64sub in Hn.
  destruct (Prim2SF x) as [sx|sx| |sx mx ex] eqn:Ex; [| |congruence|];
    (destruct (Prim2SF y) as [sy|sy| |sy my ey] eqn:Ey; [| |congruence|]);
    cbn [SFsub] in Hn; try discriminate.
  - destruct sx, sy; discriminate.
  - split; eapply infinite_shape; eassumption.
  - now apply binary_normalize_not_nan in Hn.
Qed.

Lemma fold_add_not_nan (f : string -> float) keys acc :
  (forall k, is_finite (f k) = true) -> is_nan acc = false ->
  is_nan (List.fold_left (fun a k => (a + f k)%float) keys acc) = false.
Proof.
  intros Hf. revert acc. induction keys as [|k keys IH]; intros acc Ha; [exact Ha|].
  apply IH. now apply add_not_nan.
Qed.

Lemma sumSources_not_nan obj keys : is_nan (sumSources obj keys) = false.
Proof.
  unfold sumSources.
  apply (fold_add_not_nan (fun k => safeNum (numProp obj k))); [|reflexivity].
  intros k. apply safeNum_finite.
Qed.

End FloatFacts.

(** X11.  A sum over sources is never NaN, whatever the object holds:
    every addend goes through [safeNum].  This covers the installed total,
    the rated total and the totals of a history row.  The sum can still
    overflow to Infinity. *)
Theorem totals_never_nan (obj installed plf : gmap string float) (keys : list string)
  (r : MonthRow) :
  is_nan (sumSources obj keys) = false
  /\ is_nan (installedTotal installed) = false
  /\ is_nan (ratedTotal installed plf) = false
  /\ option_map (fun t => is_nan (total t)) (rowTotals (Some r)) = Some false
  /\ installedTotal (<["Coal" := typed "1e308"]> (<["Solar" := typed "1e308"]> zeroCaps))
     = infinity.
Proof.
  repeat split; try apply sumSources_not_nan.
  cbn [rowTotals option_map total]. now rewrite sumSources_not_nan.
Qed.

(** X12.  The rated capacity of a source is never NaN, whatever the two
    mappings hold: both inputs go through [safeNum], the PLF divided by
    100 stays finite, and a product of finite numbers is a number (it can
    overflow to an infinity, which [round2] returns as it is). *)
Theorem rated_never_nan (installed plf : gmap string float) :
  (forall s, In s SOURCES ->
     exists v, ratedBySource installed plf !! s = Some v /\ is_nan v = false)
  /\ (forall x, is_nan x = false -> is_nan (round2 x) = false)
  /\ (forall a p, is_finite a = true -> is_finite p = true ->
        is_nan (a * (p / 100)) = false)
  /\ round2 infinity = infinity.
Proof.
  split; [|split; [|split]].
  - intros s Hs. exists (ratedOf installed plf s).
    split; [now apply ratedBySource_lookup|].
    unfold ratedOf. apply round2_not_nan, rated_product_not_nan; apply safeNum_finite.
  - apply round2_not_nan.
  - apply rated_product_not_nan.
  - reflexivity.
Qed.

Section NetNumbers.

Lemma netOf_not_nan text h startM endM s :
  loadHistory text = Some h -> In s SOURCES ->
  is_nan (netOf (rowTotals (findRow h startM)) (rowTotals (findRow h endM)) s) = false.
Proof.
  intros Hh Hs. unfold netOf.
  destruct (findRow h startM) as [rs|] eqn:Es; [|reflexivity].
  destruct (findRow h endM) as [re|] eqn:Ee; cbn [rowTotals mbind option_bind per].
  - destruct (loadHistory_values text h rs s Hh (findRow_In _ _ _ Es) Hs) as (a & -> & Ha).
    destruct (loadHistory_values text h re s Hh (findRow_In _ _ _ Ee) Hs) as (b & -> & Hb).
    now apply round2_not_nan, sub_not_nan.
  - now destruct (values rs !! s).
Qed.

End NetNumbers.

(** X13.  On a loaded history the net addition of a source is never NaN.
    The net total is NaN only when the totals of both rows have overflowed
    to an infinity, which two values of 1e308 in each row are enough to
    cause. *)
Theorem net_additions_nan (text : string) (h : list MonthRow) (startM endM : string) :
  loadHistory text = Some h ->
  let net := netAdditions (rowTotals (findRow h startM)) (rowTotals (findRow h endM)) in
  (forall s, In s SOURCES -> exists v, per net !! s = Some v /\ is_nan v = false)
  /\ (is_nan (total net) = true ->
      exists rs re,
        findRow h startM = Some rs /\ findRow h endM = Some re
        /\ is_finite (sumSources (values rs) SOURCES) = false
        /\ is_finite (sumSources (values re) SOURCES) = false)
  /\ is_nan (total (netAdditions
               (rowTotals (findRow (default [] (loadHistory overflowText)) "01/2023"))
               (rowTotals (findRow (default [] (loadHistory overflowText)) "01/2024"))))
     = true.
Proof.
  intros Hh net. split; [|split].
  - intros s Hs. exists (netOf (rowTotals (findRow h startM)) (rowTotals (findRow h endM)) s).
    split; [now apply netAdditions_per | now apply (netOf_not_nan text)].
  - subst net. cbn [netAdditions total].
    destruct (findRow h startM) as [rs|]; [|discriminate].
    destruct (findRow h endM) as [re|]; [|discriminate].
    cbn [rowTotals total]. intros Hn. exists rs, re. split; [reflexivity|]. split; [reflexivity|].
    destruct (is_nan (sumSources (values re) SOURCES - sumSources (values rs) SOURCES)) eqn:E.
    + destruct (sub_nan_inv _ _ (sumSources_not_nan _ _) (sumSources_not_nan _ _) E). auto.
    + apply round2_not_nan in E. congruence.
  - vm_compute. reflexivity.
Qed.

Lemma net_additions_nan_witness :
  exists v,
    per (netAdditions
           (rowTotals (findRow (default [] (loadHistory overflowText)) "01/2023"))
           (rowTotals (findRow (default [] (loadHistory overflowText)) "01/2024"))) !! "Solar"
    = Some v /\ is_nan v = false.
Proof.
  set (h := default [] (loadHistory overflowText)).
  assert (Hh : loadHistory overflowText = Some h) by (vm_compute; reflexivity).
  destruct (net_additions_nan overflowText h "01/2023" "01/2024" Hh) as (H & _).
  apply H. simpl. tauto.
Defined.

(** X14.  With the same month chosen as start and as end, every net
    addition of a loaded history is 0, shown without a sign and in the
    neutral colour; the net total is 0 as well, unless the total of the
    row has overflowed, and is shown in the neutral colour without a sign
    in both cases. *)
Theorem same_month_net_is_zero (text : string) (h : list MonthRow) (m : string) :
  loadHistory text = Some h ->
  let net := netAdditions (rowTotals (findRow h m)) (rowTotals (findRow h m)) in
  (forall s, In s SOURCES -> per net !! s = Some 0%float)
  /\ (total net = 0%float \/ total net = nan)
  /\ netColorClass 0 = "text-slate-700" /\ netSign 0 = ""
  /\ netColorClass (total net) = "text-slate-700" /\ netSign (total net) = "".
Proof.
  intros Hh net.
  assert (Hper : forall s, In s SOURCES -> per net !! s = Some 0%float).
  { intros s Hs. subst net. rewrite netAdditions_per by exact Hs. f_equal. unfold netOf.
    destruct (findRow h m) as [r|] eqn:Er; [|reflexivity]. cbn [rowTotals mbind option_bind per].
    destruct (loadHistory_values text h r s Hh (findRow_In _ _ _ Er) Hs) as (a & -> & Ha).
    rewrite (sub_self a Ha). reflexivity. }
  assert (Htot : total net = 0%float \/ total net = nan).
  { subst net. cbn [netAdditions total]. destruct (findRow h m) as [r|]; [|now left].
    cbn [rowTotals total].
    destruct (sub_self_cases _ (sumSources_not_nan (values r) SOURCES)) as [-> | ->];
      [left | right]; reflexivity. }
  split; [exact Hper|]. split; [exact Htot|].
  split; [reflexivity|]. split; [reflexivity|].
  destruct Htot as [-> | ->]; split; reflexivity.
Qed.

Lemma same_month_net_is_zero_witness :
  per (netAdditions
         (rowTotals (findRow (default [] (loadHistory twoYearsText)) "01/2024"))
         (rowTotals (findRow (default [] (loadHistory twoYearsText)) "01/2024"))) !! "Solar"
  = Some 0%float.
Proof.
  set (h := default [] (loadHistory twoYearsText)).
  assert (Hh : loadHistory twoYearsText = Some h) by (vm_compute; reflexivity).
  destruct (same_month_net_is_zero twoYearsText h "01/2024" Hh) as (H & _).
  apply H. simpl. tauto.
Defined.

(** ** The top card *)

Section TopCard.

Lemma zeroCaps_in s : In s SOURCES -> zeroCaps !! s = Some 0%float.
Proof.
  intros Hs. simpl in Hs.
  repeat (destruct Hs as [<- | Hs]; [reflexivity|]). contradiction.
Qed.

Lemma zeroCaps_notin s : ~ In s SOURCES -> zeroCaps !! s = None.
Proof.
  intros Hs. unfold zeroCaps. apply not_elem_of_list_to_map_1.
  intros H. apply Hs, list_elem_of_In. exact H.
Qed.

Lemma zeroCaps_ok : capsOk zeroCaps.
Proof.
  split; [|apply zeroCaps_notin]. intros s Hs. exists 0%float.
  split; [now apply zeroCaps_in | reflexivity].
Qed.

Lemma initialCaps_ok persisted : capsOk (initialCaps persisted).
Proof.
  destruct persisted as [obj|]; [|apply zeroCaps_ok]. split.
  - intros s Hs. exists (safeNum (numProp obj s)). split; [|apply safeNum_finite].
    now apply (fold_insert_in (fun s => safeNum (numProp obj s))).
  - intros s Hs. unfold initialCaps.
    rewrite (fold_insert_notin (fun s => safeNum (numProp obj s))) by exact Hs.
    now apply zeroCaps_notin.
Qed.

Lemma typedInto_ok prev s text : capsOk prev -> In s SOURCES -> capsOk (typedInto prev s text).
Proof.
  intros [H1 H2] Hs. unfold typedInto. split.
  - intros k Hk. destruct (String.eqb_spec s k) as [->|Hne].
    + rewrite lookup_insert_eq. eexists. split; [reflexivity | apply safeNum_finite].
    + rewrite lookup_insert_ne by exact Hne. now apply H1.
  - intros k Hk. rewrite lookup_insert_ne by (intros ->; contradiction). now apply H2.
Qed.

Lemma snapshot_ok installed text next :
  capsOk installed -> loadCapacitySingleRow installed text = SnapshotReplaced next ->
  capsOk next.
Proof.
  intros [H1 H2] E. pose proof (parse_shape text) as Hsh.
  destruct (csvLines text) as [|l0 [|l1 ls]] eqn:El.
  - unfold loadCapacitySingleRow in E. destruct Hsh as [Hh _]. rewrite Hh in E. discriminate.
  - unfold loadCapacitySingleRow in E. destruct Hsh as [_ Hr]. rewrite Hr in E.
    now destruct (header _).
  - destruct Hsh as [Hh Hr].
    destruct (loadCapacitySingleRow_replaces installed text Hh Hr)
      as (row & next' & _ & E' & Hv & _ & Hn).
    rewrite E in E'. injection E' as <-. split.
    + intros s Hs. rewrite (Hv s Hs). eexists. split; [reflexivity | apply safeNum_finite].
    + intros s Hs. rewrite (Hn s Hs). now apply H2.
Qed.

Lemma capsOk_sum caps : capsOk caps -> sumSources caps SOURCES = plainSum caps.
Proof.
  intros [H1 _]. unfold plainSum.
  rewrite (sumSources_fold _ _ (fun s => default 0%float (caps !! s))).
  - apply fold_sum_finite. intros s Hs. destruct (H1 s Hs) as (v & -> & Hv). exact Hv.
  - intros s Hs. destruct (H1 s Hs) as (v & -> & _). reflexivity.
Qed.

Lemma capsOk_safeNum caps s a :
  capsOk caps -> In s SOURCES -> caps !! s = Some a -> safeNum (numProp caps s) = a.
Proof.
  intros [H1 _] Hs Ha. destruct (H1 s Hs) as (v & Hv & Hf).
  unfold numProp. rewrite Ha. rewrite Ha in Hv. injection Hv as <-.
  rewrite safeNum_number. now apply finiteOr0_finite.
Qed.

Lemma cardStep_inv ev c : cardInv c -> cardEnabled ev c -> cardInv (cardStep ev c).
Proof.
  intros (Hm & Hi & Hp) Hen. destruct ev as [s text | s text | text];
    unfold cardInv; cbn [cardStep atMount installedCaps plfCaps].
  - split; [exact Hm|]. split; [now apply typedInto_ok | exact Hp].
  - split; [exact Hm|]. split; [exact Hi | now apply typedInto_ok].
  - split; [exact Hm|]. split; [|exact Hp].
    destruct (loadCapacitySingleRow (atMount c) text) as [next| |] eqn:E; try exact Hi.
    now apply (snapshot_ok (atMount c) text).
Qed.

Lemma cardReachable_inv c0 c : cardInv c0 -> cardReachable c0 c -> cardInv c.
Proof.
  intros H0. induction 1 as [|ev c _ IH Hen]; [exact H0 | now apply cardStep_inv].
Qed.

Lemma cardReachable_atMount c0 c : cardReachable c0 c -> atMount c = atMount c0.
Proof.
  induction 1 as [|ev c _ IH Hen]; [reflexivity|]. now destruct ev.
Qed.

Lemma mountCard_inv p q : cardInv (mountCard (initialCaps p) (initialCaps q)).
Proof. repeat split; apply initialCaps_ok. Qed.

End TopCard.

(** X15.  From the mappings the initialisers build, whatever was stored,
    and through any typing and the arrival of the snapshot, both mappings
    of the top card keep a finite value for each of the eight sources and
    nothing else.  Hence [safeNum] changes none of the values it is applied
    to: the installed total is the plain sum of the eight values, and the
    rated capacity of a source is [round2] of its installed value times
    its PLF over 100. *)
Theorem card_values_stay_finite (p q : option (gmap string float)) (c : Card) :
  cardReachable (mountCard (initialCaps p) (initialCaps q)) c ->
  capsOk (installedCaps c) /\ capsOk (plfCaps c)
  /\ installedTotal (installedCaps c) = plainSum (installedCaps c)
  /\ (forall s a v,
        In s SOURCES -> installedCaps c !! s = Some a -> plfCaps c !! s = Some v ->
        ratedBySource (installedCaps c) (plfCaps c) !! s = Some (round2 (a * (v / 100)))%float).
Proof.
  intros Hr. destruct (cardReachable_inv _ _ (mountCard_inv p q) Hr) as (_ & Hi & Hp).
  split; [exact Hi|]. split; [exact Hp|]. split; [now apply capsOk_sum|].
  intros s a v Hs Ha Hv. rewrite ratedBySource_lookup by exact Hs. unfold ratedOf.
  now rewrite (capsOk_safeNum _ s a Hi Hs Ha), (capsOk_safeNum _ s v Hp Hs Hv).
Qed.

Lemma card_values_stay_finite_witness :
  installedTotal
    (installedCaps (cardStep (InstalledTyped "Coal" "100")
       (mountCard (initialCaps None) (initialCaps (Some {[ "Coal" := 85%float ]})))))
  = plainSum
      (installedCaps (cardStep (InstalledTyped "Coal" "100")
         (mountCard (initialCaps None) (initialCaps (Some {[ "Coal" := 85%float ]}))))).
Proof.
  refine (proj1 (proj2 (proj2 (card_values_stay_finite None (Some {[ "Coal" := 85%float ]}) _ _)))).
  apply cardReachable_step; [apply cardReachable_mount|]. simpl. tauto.
Defined.

(** X16.  The snapshot is computed from the mapping the component was
    mounted with, not from the current one: when it arrives and has two
    non-blank lines, the installed mapping becomes what it would have been
    with nothing typed, so every installed value typed while the fetch was
    under way is lost; the PLF values are kept.  A snapshot with fewer
    than two non-blank lines leaves the typed values in place. *)
Theorem snapshot_discards_typing (c0 c : Card) (text : string) :
  cardReachable c0 c -> awaiting c = true ->
  ((2 <= length (csvLines text))%nat ->
     installedCaps (cardStep (SnapshotArrived text) c)
     = installedCaps (cardStep (SnapshotArrived text) c0))
  /\ ((length (csvLines text) < 2)%nat ->
     installedCaps (cardStep (SnapshotArrived text) c) = installedCaps c)
  /\ plfCaps (cardStep (SnapshotArrived text) c) = plfCaps c
  /\ awaiting (cardStep (SnapshotArrived text) c) = false.
Proof.
  intros Hr _. pose proof (cardReachable_atMount c0 c Hr) as Hm.
  cbn [cardStep installedCaps plfCaps awaiting]. rewrite Hm.
  split; [|split; [|split; reflexivity]].
  - intros Hl. pose proof (parse_shape text) as Hsh.
    destruct (csvLines text) as [|l0 [|l1 ls]]; [simpl in Hl; lia .. |].
    destruct Hsh as [Hh Hrw].
    destruct (loadCapacitySingleRow_replaces (atMount c0) text Hh Hrw) as (row & next & _ & -> & _).
    reflexivity.
  - intros Hl. pose proof (parse_shape text) as Hsh. unfold loadCapacitySingleRow.
    destruct (csvLines text) as [|l0 [|l1 ls]]; [| |simpl in Hl; lia].
    + destruct Hsh as [-> _]. reflexivity.
    + destruct Hsh as [_ ->]. now destruct (header _).
Qed.

Lemma snapshot_discards_typing_witness :
  installedCaps
    (cardStep (SnapshotArrived ("Coal,Solar" +:+ NL +:+ "7,3"))
       (cardStep (InstalledTyped "Wind" "40") (mountCard zeroCaps zeroCaps)))
  = installedCaps
      (cardStep (SnapshotArrived ("Coal,Solar" +:+ NL +:+ "7,3")) (mountCard zeroCaps zeroCaps)).
Proof.
  refine (proj1 (snapshot_discards_typing (mountCard zeroCaps zeroCaps)
                   (cardStep (InstalledTyped "Wind" "40") (mountCard zeroCaps zeroCaps))
                   ("Coal,Solar" +:+ NL +:+ "7,3") _ eq_refl) _).
  - apply cardReachable_step; [apply cardReachable_mount|]. simpl. tauto.
  - vm_compute. lia.
Defined.

(** X17.  Typing in the input of a source stores [safeNum] of the text
    for that source and leaves every other entry as it was: the rated
    capacity of the source is recomputed from the typed value, the rated
    capacity of the other sources does not move, and typing a PLF changes
    no installed value.  An empty input stores 0, and of two texts typed
    one after the other for a source only the second counts. *)
Theorem typing_changes_one_source (installed plf : gmap string float) (s text : string) :
  typedInto installed s text !! s = Some (typed text)
  /\ (forall k, k <> s -> typedInto installed s text !! k = installed !! k)
  /\ (In s SOURCES ->
      ratedBySource (typedInto installed s text) plf !! s
      = Some (round2 (typed text * (safeNum (numProp plf s) / 100)))%float)
  /\ (forall k, In k SOURCES -> k <> s ->
      ratedBySource (typedInto installed s text) plf !! k = ratedBySource installed plf !! k)
  /\ typedInto installed s "" !! s = Some 0%float
  /\ (forall before, typedInto (typedInto installed s before) s text
                      = typedInto installed s text).
Proof.
  unfold typedInto.
  assert (H1 : <[s := safeNum (JS.VString text)]> installed !! s = Some (typed text))
    by apply lookup_insert_eq.
  assert (H2 : forall k, k <> s ->
            <[s := safeNum (JS.VString text)]> installed !! k = installed !! k).
  { intros k Hk. now apply lookup_insert_ne. }
  split; [exact H1|]. split; [exact H2|]. split; [|split; [|split]].
  - intros Hs. rewrite ratedBySource_lookup by exact Hs. unfold ratedOf, numProp at 1.
    rewrite H1. f_equal. f_equal. f_equal. apply finiteOr0_finite, safeNum_finite.
  - intros k Hk Hne. rewrite !ratedBySource_lookup by exact Hk. unfold ratedOf, numProp.
    now rewrite (H2 k Hne).
  - apply lookup_insert_eq.
  - intros before. apply insert_insert_eq.
Qed.

(** ** The month options and the default selection *)

Section Options.

Lemma sort_sorted_id {A} (cmp : A -> A -> JS.ival) l :
  StronglySorted (fun a b => JS.gt0 (cmp a b) = false) l -> JS.sort cmp l = l.
Proof.
  induction 1 as [|x l Hl IH Hx]; [reflexivity|].
  cbn [JS.sort List.fold_right]. fold (JS.sort cmp l). rewrite IH.
  destruct l as [|y l']; [reflexivity|]. cbn [JS.insert].
  inversion Hx as [|? ? Hxy _]; subst. now rewrite Hxy.
Qed.

Lemma ascending_gt0 ms :
  Forall (fun m => monthKeyRegex m = true) ms -> ascending monthIndex ms ->
  StronglySorted (fun a b => JS.gt0 (compareMonthKey a b) = false) ms.
Proof.
  intros Hr Hs. induction Hs as [|x l Hl IH Hx]; [constructor|].
  inversion Hr as [|? ? Rx Rl]; subst. constructor; [now apply IH|].
  rewrite List.Forall_forall in *. intros y Hy.
  rewrite gt0_compare by (apply regex_comparable; auto).
  apply Z.ltb_ge. now apply Hx.
Qed.

Lemma ascending_map {A} (f : A -> string) (l : list A) :
  ascending (fun r => monthIndex (f r)) l -> ascending monthIndex (List.map f l).
Proof.
  induction 1 as [|x l Hl IH Hx]; [constructor|]. cbn [List.map].
  constructor; [exact IH|]. rewrite List.Forall_forall in *.
  intros y (r & <- & Hr)%List.in_map_iff. now apply Hx.
Qed.

Lemma history_months_regex text h :
  loadHistory text = Some h -> Forall (fun m => monthKeyRegex m = true) (List.map month h).
Proof.
  intros Hh. pose proof (loadHistory_regex text h Hh) as H.
  rewrite List.Forall_forall in *. intros m (r & <- & Hr)%List.in_map_iff. now apply H.
Qed.

Lemma monthOptions_months text h :
  loadHistory text = Some h -> monthOptions h = List.map month h.
Proof.
  intros Hh. unfold monthOptions.
  pose proof (history_months_regex text h Hh) as Hr.
  rewrite (filterTruthy_regex _ Hr). apply sort_sorted_id, ascending_gt0; [exact Hr|].
  apply ascending_map. now apply (loadHistory_ascending text).
Qed.

Lemma ascending_last ms l o :
  Forall comparable ms -> ascending monthIndex ms -> last ms = Some l -> In o ms ->
  monthKeyLe o l.
Proof.
  intros Hc Hs Hl Ho.
  destruct (exists_last (l := ms)) as (ms' & x & ->); [intros ->; discriminate|].
  rewrite last_snoc in Hl. injection Hl as ->.
  rewrite List.Forall_forall in Hc.
  apply monthKeyLe_index; [apply Hc; exact Ho | apply Hc, List.in_or_app; right; now left |].
  apply List.in_app_or in Ho as [Ho | [<- | []]]; [|lia].
  now apply (ascending_before monthIndex ms' l [] o).
Qed.

Lemma find_month_some (h : list MonthRow) m :
  In m (List.map month h) -> m <> "" -> exists r, findRow h m = Some r /\ month r = m.
Proof.
  intros (r & Hr & Hin)%List.in_map_iff Hne. unfold findRow.
  rewrite (proj2 (is_empty_false m) Hne).
  destruct (List.find (fun r0 => String.eqb (month r0) m) h) as [r'|] eqn:E.
  - exists r'. split; [reflexivity|]. apply List.find_some in E as [_ E].
    now apply String.eqb_eq.
  - apply (List.find_none _ _ E) in Hin. cbv beta in Hin. rewrite Hr, String.eqb_refl in Hin.
    discriminate.
Qed.

Lemma enforce_fixed sel :
  (startMonth sel <> "" -> endMonth sel <> "" ->
   JS.gt0 (compareMonthKey (startMonth sel) (endMonth sel)) = false) ->
  enforce sel = sel.
Proof.
  intros H. unfold enforce.
  destruct (JS.is_empty (startMonth sel)) eqn:E1; [reflexivity|].
  destruct (JS.is_empty (endMonth sel)) eqn:E2; [reflexivity|]. cbn [orb].
  apply is_empty_false in E1, E2. now rewrite (H E1 E2).
Qed.

Lemma le0_not_gt0 v : JS.le0 v = true -> JS.gt0 v = false.
Proof. destruct v as [| |z]; try discriminate. simpl. lia. Qed.

Lemma enforce_inv ui : selectionInv ui -> enforce (selection ui) = selection ui.
Proof.
  intros (_ & _ & _ & Hle). apply enforce_fixed. intros Hs He.
  now apply le0_not_gt0, Hle.
Qed.

Lemma history_months_offered text h :
  loadHistory text = Some h ->
  monthOptions h = List.map month h
  /\ (forall l o, last (monthOptions h) = Some l -> In o (monthOptions h) -> monthKeyLe o l).
Proof.
  intros Hh. pose proof (monthOptions_months text h Hh) as Hm.
  pose proof (history_months_regex text h Hh) as Hr.
  split; [exact Hm|]. rewrite Hm. intros l o Hl Ho.
  apply (ascending_last (List.map month h)); auto.
  - eapply Forall_impl; [exact Hr|]. intros m. apply regex_comparable.
  - apply ascending_map. now apply (loadHistory_ascending text).
Qed.

End Options.

(** X18.  After a successful load the month options are the months of the
    history rows, in the order of the rows and one per row, so a month
    held by two rows is offered twice; they are in ascending order, and
    the latest month is not before any of them.  There is no option
    exactly when the history is empty. *)
Theorem options_are_history_months (text : string) (h : list MonthRow) :
  loadHistory text = Some h ->
  monthOptions h = List.map month h
  /\ StronglySorted monthKeyLe (monthOptions h)
  /\ (forall l o, latestMonth (monthOptions h) = Some l -> In o (monthOptions h) ->
        monthKeyLe o l)
  /\ (latestMonth (monthOptions h) = None <-> h = []).
Proof.
  intros Hh. pose proof (monthOptions_months text h Hh) as Hm.
  pose proof (history_months_regex text h Hh) as Hr.
  assert (Hc : Forall comparable (List.map month h)).
  { eapply Forall_impl; [exact Hr|]. intros m. apply regex_comparable. }
  assert (Hs : ascending monthIndex (List.map month h))
    by (apply ascending_map; now apply (loadHistory_ascending text)).
  rewrite Hm. split; [reflexivity|]. split; [|split].
  - clear Hm Hr. induction Hs as [|x l Hl IH Hx]; [constructor|].
    inversion Hc as [|? ? Cx Cl]; subst. constructor; [now apply IH|].
    rewrite List.Forall_forall in *. intros y Hy.
    apply monthKeyLe_index; auto.
  - intros l o Hl Ho. now apply (ascending_last (List.map month h)).
  - unfold latestMonth. destruct h as [|r h']; [split; reflexivity|].
    split; [|discriminate]. intros H. apply last_None in H. discriminate.
Qed.

Lemma options_are_history_months_witness :
  monthOptions [coalRow "01/2024" 1; coalRow "01/2024" 2; coalRow "06/2024" 3]
  = ["01/2024"; "01/2024"; "06/2024"].
Proof.
  assert (Hh : loadHistory twiceText
               = Some [coalRow "01/2024" 1; coalRow "01/2024" 2; coalRow "06/2024" 3])
    by (vm_compute; reflexivity).
  exact (proj1 (options_are_history_months twiceText _ Hh)).
Defined.

Section Defaults.

Lemma last_In {A} (l : list A) x : last l = Some x -> In x l.
Proof.
  intros H. apply list_elem_of_In. rewrite last_lookup in H.
  eapply list_elem_of_lookup_2. exact H.
Qed.

Lemma twelve_back l m y :
  wellFormedMonthKey l = true -> monthNumbers l = Some (m, y) -> 1001 <= y ->
  minusMonths l 12 = monthText m +:+ "/" +:+ yearText (y - 1)
  /\ monthKeyRegex (monthText m +:+ "/" +:+ yearText (y - 1)) = true.
Proof.
  intros Hw Hn Hy.
  destruct (wellFormed_numbers l Hw) as (m' & y' & N & Hm & Hy').
  rewrite Hn in N. injection N as <- <-.
  rewrite (minusMonths_numbers l 12 m y Hn Hm).
  replace (12 * y + (m - 1) - Z.of_nat 12) with (m - 1 + (y - 1) * 12) by lia.
  rewrite Z.mod_add, Z.div_add by lia. rewrite Z.mod_small, Z.div_small by lia.
  replace (m - 1 + 1) with m by lia. replace (0 + (y - 1)) with (y - 1) by lia.
  split; [reflexivity|].
  destruct (printed_key_wellFormed m (y - 1) Hm) as [Pw _]; [lia|].
  now apply wellFormed_regex.
Qed.

Lemma initial_load_selection opts l :
  forallb monthKeyRegex opts = true -> last opts = Some l ->
  initSelection opts {| startMonth := ""; endMonth := "" |}
  = {| startMonth := clampMonthKeyToOptions (minusMonths l 12) opts; endMonth := l |}.
Proof.
  intros Ho Hl.
  assert (Hne : opts <> []) by (intros ->; discriminate).
  assert (Hd : JS.is_empty (clampMonthKeyToOptions (minusMonths l 12) opts) = false).
  { apply regex_nonempty. rewrite forallb_forall in Ho. apply Ho. now apply clamp_In. }
  unfold initSelection. destruct opts as [|o0 os] eqn:Eo; [congruence|]. rewrite <- Eo in *.
  cbn [startMonth endMonth JS.is_empty]. unfold defaultStartMonth, latestMonth. rewrite Hl.
  cbn [orElse]. rewrite Hd. cbn [orElse]. rewrite Hd.
  f_equal. now destruct (JS.is_empty l).
Qed.

End Defaults.

(** X19.  When the history arrives in a component that has no selection
    yet, the end month becomes the latest month of the data and the start
    month the option that [clampMonthKeyToOptions] gives for twelve months
    before it; the two positional fall-backs of the effect are never used.
    Both are options, the start is not after the end, and a row is found
    for each.  When the latest month is a well-formed key of a year from
    1001 on, the start is the greatest option not after the same month of
    the year before, or the earliest option if every option is after
    it. *)
Theorem default_selection (text : string) (h : list MonthRow) (l : string) :
  loadHistory text = Some h -> latestMonth (monthOptions h) = Some l ->
  let sel := selection (step (HistoryLoaded text) initialUI) in
  endMonth sel = l
  /\ startMonth sel = clampMonthKeyToOptions (minusMonths l 12) (monthOptions h)
  /\ In (startMonth sel) (monthOptions h) /\ In l (monthOptions h)
  /\ monthKeyLe (startMonth sel) l
  /\ (exists rs, findRow h (startMonth sel) = Some rs /\ month rs = startMonth sel)
  /\ (exists re, findRow h l = Some re /\ month re = l)
  /\ (forall m y,
        wellFormedMonthKey l = true -> monthNumbers l = Some (m, y) -> 1001 <= y ->
        let cand := monthText m +:+ "/" +:+ yearText (y - 1) in
        minusMonths l 12 = cand
        /\ ((exists o, In o (monthOptions h) /\ monthKeyLe o cand) ->
            monthKeyLe (startMonth sel) cand
            /\ forall o, In o (monthOptions h) -> monthKeyLe o cand ->
                         monthKeyLe o (startMonth sel))
        /\ ((forall o, In o (monthOptions h) -> ~ monthKeyLe o cand) ->
            forall o, In o (monthOptions h) -> monthKeyLe (startMonth sel) o)).
Proof.
  intros Hh Hl sel.
  pose proof (monthOptions_regex text h Hh) as Ho.
  destruct (history_months_offered text h Hh) as (Hm & Hmax).
  assert (Hne : monthOptions h <> []) by (intros E; rewrite E in Hl; discriminate).
  set (d := clampMonthKeyToOptions (minusMonths l 12) (monthOptions h)).
  assert (Hd : In d (monthOptions h)) by now apply clamp_In.
  assert (Hlin : In l (monthOptions h)) by now apply last_In.
  assert (Hdl : monthKeyLe d l) by now apply Hmax.
  assert (Hsel : sel = {| startMonth := d; endMonth := l |}).
  { subst sel. cbn [step selection]. rewrite Hh. cbn [default].
    change (selection initialUI) with {| startMonth := ""; endMonth := "" |}.
    change (id h) with h.
    rewrite (initial_load_selection _ l Ho Hl). apply enforce_fixed.
    intros _ _. now apply le0_not_gt0. }
  rewrite Hsel. cbn [startMonth endMonth].
  rewrite forallb_forall in Ho.
  split; [reflexivity|]. split; [reflexivity|]. split; [exact Hd|]. split; [exact Hlin|].
  split; [exact Hdl|]. split; [|split].
  - apply find_month_some; [now rewrite <- Hm|]. apply is_empty_false, regex_nonempty. auto.
  - apply find_month_some; [now rewrite <- Hm|]. apply is_empty_false, regex_nonempty. auto.
  - intros m y Hw Hn Hy.
    destruct (twelve_back l m y Hw Hn Hy) as [Hc Hr].
    split; [exact Hc|]. subst d. rewrite Hc.
    apply (clamp_extremal _ (monthOptions h)); [exact Hr | | exact Hne].
    now apply forallb_forall.
Qed.

Lemma default_selection_witness :
  endMonth (selection (step (HistoryLoaded threeMonthsText) initialUI)) = "01/2024"
  /\ startMonth (selection (step (HistoryLoaded threeMonthsText) initialUI))
     = clampMonthKeyToOptions (minusMonths "01/2024" 12)
         (monthOptions (default [] (loadHistory threeMonthsText))).
Proof.
  set (h := default [] (loadHistory threeMonthsText)).
  assert (Hh : loadHistory threeMonthsText = Some h) by (vm_compute; reflexivity).
  assert (Hl : latestMonth (monthOptions h) = Some "01/2024") by (vm_compute; reflexivity).
  destruct (default_selection threeMonthsText h "01/2024" Hh Hl) as (H1 & H2 & _).
  exact (conj H1 H2).
Defined.

(** ** Options that cannot be picked *)

Section Disabled.

Lemma regex_numbers m : monthKeyRegex m = true -> exists a y, monthNumbers m = Some (a, y).
Proof. intros H. destruct (monthParts_regex m H) as (a & y & N & _). eauto. Qed.

Lemma lt0_swap a b :
  monthKeyRegex a = true -> monthKeyRegex b = true ->
  JS.lt0 (compareMonthKey a b) = JS.gt0 (compareMonthKey b a).
Proof.
  intros (ma & ya & Na)%regex_numbers (mb & yb & Nb)%regex_numbers.
  exact (lt0_gt0_compare a b _ _ _ _ Na Nb).
Qed.

Lemma gt0_not_le a b :
  comparable a -> comparable b ->
  JS.gt0 (compareMonthKey a b) = true <-> ~ monthKeyLe a b.
Proof.
  intros Ha Hb. rewrite gt0_compare, monthKeyLe_index, Z.ltb_lt by assumption. lia.
Qed.

Lemma okKey_regex m : okKey m -> m <> "" -> monthKeyRegex m = true.
Proof. intros [-> | H] Hne; [congruence | exact H]. Qed.

End Disabled.

(** X20.  In every state the component reaches, an option of the start
    select is disabled exactly when an end month is selected and the
    option is after it, and an option of the end select exactly when a
    start month is selected and the option is before it.  Picking an
    option that is not disabled selects it and leaves the other month
    untouched: the effect that moves the start onto the end has nothing to
    do.  The two selected months themselves are never disabled. *)
Theorem enabled_options_are_kept (ui : UI) :
  reachable ui ->
  (forall m, In m (monthOptions (history ui)) ->
     startOptionDisabled (endMonth (selection ui)) m = false ->
     selection (step (StartPicked m) ui)
     = {| startMonth := m; endMonth := endMonth (selection ui) |})
  /\ (forall m, In m (monthOptions (history ui)) ->
     endOptionDisabled (startMonth (selection ui)) m = false ->
     selection (step (EndPicked m) ui)
     = {| startMonth := startMonth (selection ui); endMonth := m |})
  /\ (forall m, In m (monthOptions (history ui)) ->
     startOptionDisabled (endMonth (selection ui)) m = true
     <-> endMonth (selection ui) <> "" /\ ~ monthKeyLe m (endMonth (selection ui)))
  /\ (forall m, In m (monthOptions (history ui)) ->
     endOptionDisabled (startMonth (selection ui)) m = true
     <-> startMonth (selection ui) <> "" /\ ~ monthKeyLe (startMonth (selection ui)) m)
  /\ (startMonth (selection ui) <> "" -> endMonth (selection ui) <> "" ->
      startOptionDisabled (endMonth (selection ui)) (startMonth (selection ui)) = false
      /\ endOptionDisabled (startMonth (selection ui)) (endMonth (selection ui)) = false).
Proof.
  intros Hr. destruct (reachable_selectionInv ui Hr) as (Ho & Hs & He & Hle).
  rewrite forallb_forall in Ho.
  set (s := startMonth (selection ui)) in *. set (e := endMonth (selection ui)) in *.
  unfold startOptionDisabled, endOptionDisabled.
  split; [|split; [|split; [|split]]].
  - intros m Hm Hd. cbn [step selection]. apply enforce_fixed. cbn [startMonth endMonth].
    intros _ Hne. now rewrite (proj2 (is_empty_false e) Hne) in Hd.
  - intros m Hm Hd. cbn [step selection]. apply enforce_fixed. cbn [startMonth endMonth].
    intros Hne _. rewrite (proj2 (is_empty_false s) Hne) in Hd.
    rewrite <- lt0_swap; [exact Hd | now apply Ho | now apply okKey_regex].
  - intros m Hm. destruct (JS.is_empty e) eqn:E.
    + apply is_empty_true in E. split; [discriminate | tauto].
    + apply is_empty_false in E.
      rewrite gt0_not_le by (apply regex_comparable; auto using okKey_regex). tauto.
  - intros m Hm. destruct (JS.is_empty s) eqn:E.
    + apply is_empty_true in E. split; [discriminate | tauto].
    + apply is_empty_false in E.
      rewrite lt0_swap by auto using okKey_regex.
      rewrite gt0_not_le by (apply regex_comparable; auto using okKey_regex). tauto.
  - intros Hns Hne. rewrite (proj2 (is_empty_false s) Hns), (proj2 (is_empty_false e) Hne).
    rewrite lt0_swap by auto using okKey_regex.
    split; now apply le0_not_gt0, Hle.
Qed.

Lemma enabled_options_are_kept_witness :
  selection (step (StartPicked "06/2023") (step (HistoryLoaded threeMonthsText) initialUI))
  = {| startMonth := "06/2023";
       endMonth := endMonth (selection (step (HistoryLoaded threeMonthsText) initialUI)) |}.
Proof.
  refine (proj1 (enabled_options_are_kept
                   (step (HistoryLoaded threeMonthsText) initialUI) _) "06/2023" _ _).
  - apply reachable_step; [apply reachable_initial | exact I].
  - vm_compute. tauto.
  - vm_compute. reflexivity.
Defined.

(** X21.  A history load that fails empties the history and leaves the
    selected months as they were: no option is offered but the empty one,
    no row is found for any month, and every net addition and the net
    total are 0. *)
Theorem failed_load_shows_nothing (ui : UI) (text : string) :
  reachable ui -> loadHistory text = None ->
  step (HistoryLoaded text) ui = {| history := []; selection := selection ui |}
  /\ (forall m, offered (step (HistoryLoaded text) ui) m <-> m = "")
  /\ (forall m, findRow (history (step (HistoryLoaded text) ui)) m = None)
  /\ (forall a b s, In s SOURCES ->
        per (netAdditions (rowTotals (findRow (history (step (HistoryLoaded text) ui)) a))
               (rowTotals (findRow (history (step (HistoryLoaded text) ui)) b))) !! s
        = Some 0%float)
  /\ (forall a b,
        total (netAdditions (rowTotals (findRow (history (step (HistoryLoaded text) ui)) a))
                 (rowTotals (findRow (history (step (HistoryLoaded text) ui)) b)))
        = 0%float).
Proof.
  intros Hr Hn.
  assert (Hstep : step (HistoryLoaded text) ui = {| history := []; selection := selection ui |}).
  { cbn [step]. rewrite Hn. change (default [] None) with (@nil MonthRow).
    change (monthOptions []) with (@nil string). cbn [initSelection].
    now rewrite (enforce_inv ui (reachable_selectionInv ui Hr)). }
  assert (Hfind : forall m, findRow [] m = None).
  { intros m. unfold findRow. now destruct (JS.is_empty m). }
  rewrite Hstep. cbn [history]. split; [reflexivity|]. split; [|split; [|split]].
  - intros m. unfold offered. cbn [history]. change (monthOptions []) with (@nil string).
    split; [intros [[] | [_ ->]]; reflexivity | intros ->; right; split; reflexivity].
  - exact Hfind.
  - intros a b s Hs. rewrite netAdditions_per by exact Hs. now rewrite !Hfind.
  - intros a b. now rewrite !Hfind.
Qed.

Lemma failed_load_shows_nothing_witness :
  step (HistoryLoaded "Month,Coal") initialUI
  = {| history := []; selection := selection initialUI |}.
Proof.
  exact (proj1 (failed_load_shows_nothing initialUI "Month,Coal" reachable_initial eq_refl)).
Defined.

(** ** Stored values and the snapshot *)

Section StoredValues.




End StoredValues.



(** ** Quotes never reach a field *)

Section QuotesRemoved.

Lemma noQuote_app a b : noQuote (a +:+ b) = noQuote a && noQuote b.
Proof.
  induction a as [|c a IH]; [reflexivity|]. rewrite str_app_cons. cbn [noQuote].
  now rewrite IH, andb_assoc.
Qed.

Lemma noQuote_trim s : noQuote s = true -> noQuote (JS.trim s) = true.
Proof.
  intros H. destruct (trim_decomp s) as (w1 & w2 & _ & _ & E).
  rewrite E, !noQuote_app in H.
  apply andb_prop in H as [_ H]. now apply andb_prop in H as [H _].
Qed.

Lemma parseLine_loop_noQuote line out cur q :
  noDoubledQuote line = true -> forallb noQuote out = true -> noQuote cur = true ->
  forallb noQuote (parseLine_loop line out cur q) = true.
Proof.
  revert line out cur q.
  apply (parseLine_loop_cases (fun line out cur q =>
    noDoubledQuote line = true -> forallb noQuote out = true -> noQuote cur = true ->
    forallb noQuote (parseLine_loop line out cur q) = true)).
  - intros out cur q _ Ho Hc. rewrite loop_nil, forallb_app, Ho. cbn [forallb].
    now rewrite noQuote_trim.
  - intros rest out cur _ Hd. cbn in Hd. discriminate.
  - intros rest out cur q Hq IH Hd Ho Hc. rewrite loop_quote by exact Hq.
    apply IH; [|exact Ho | exact Hc].
    destruct rest as [|d r]; [reflexivity|]. cbn [noDoubledQuote] in Hd.
    now apply andb_prop in Hd as [_ Hd].
  - intros rest out cur IH Hd Ho Hc. rewrite loop_comma. apply IH; [| |reflexivity].
    + destruct rest as [|d r]; [reflexivity|]. cbn [noDoubledQuote] in Hd.
      now apply andb_prop in Hd as [_ Hd].
    + rewrite forallb_app, Ho. cbn [forallb]. now rewrite noQuote_trim.
  - intros ch rest out cur q Hch Hc' IH Hd Ho Hc. rewrite loop_other by assumption.
    apply IH; [|exact Ho|].
    + destruct rest as [|d r]; [reflexivity|]. cbn [noDoubledQuote] in Hd.
      now apply andb_prop in Hd as [_ Hd].
    + rewrite noQuote_app, Hc. cbn [noQuote].
      destruct (Ascii.eqb_spec ch JS.dquote); [contradiction | reflexivity].
Qed.

End QuotesRemoved.

(** X23.  The parser drops every quote it reads, wherever it stands in a
    field; only two quotes in a row can leave one quote in a field.  So on
    a line without two quotes in a row no field that is returned holds a
    quote, and a quote in the middle of an unquoted field just switches
    the reading of commas. *)
Theorem quotes_are_removed (line : string) :
  (noDoubledQuote line = true -> forallb noQuote (parseLine line) = true)
  /\ parseLine ("ab" +:+ Q +:+ "c,d" +:+ Q +:+ "e,f") = ["abc,de"; "f"]
  /\ parseLine ("x" +:+ Q +:+ Q +:+ "y") = ["xy"]
  /\ parseLine (Q +:+ "x" +:+ Q +:+ Q +:+ "y" +:+ Q) = ["x" +:+ Q +:+ "y"].
Proof.
  split; [|repeat split; reflexivity].
  intros H. now apply parseLine_loop_noQuote.
Qed.
